(** * Taxi ride-sharing simulation: a shallow embedding and its properties

    The development follows the Python sources module by module:
    [geohash], [location], [road_network] (graph and path searches),
    [spatio_temporal_index], [routing], [query], [dispatcher], [taxi] and
    [simulation].

    Conventions of the embedding.
    - Python [int]s are [Z]; Python [float]s are idealised as rationals [Q].
    - A [dict] is a [gmap]; iterating over a dict visits [map_to_list].
    - Mutable objects shared by reference (queries) live in one store, the
      query set, and every other container holds their keys.
    - A call that raises, a loop that exceeds its iteration budget, and a
      float that leaves the rationals ([float('inf')]) end in [Err]. *)

From stdpp Require Import gmap strings list fin_maps.
From Stdlib Require Import QArith Lqa Sorted.

Local Open Scope Z_scope.

(** ** Outcomes of a call *)

Inductive exn : Type :=
| KeyError
| AttributeError
| TypeError
| IndexError
| ValueError
| FloatInf      (* a float leaves the rationals *)
| NoneVertex    (* a path search is asked for a vertex id that is None *)
| BadRef        (* a reference to no object: never built by the program *)
| OutOfFuel.

Inductive res (A : Type) : Type :=
| Ok (a : A)
| Err (e : exn).
Arguments Ok {A} a.
Arguments Err {A} e.

#[export] Instance res_ret : MRet res := fun _ a => Ok a.
#[export] Instance res_bind : MBind res :=
  fun _ _ f m => match m with Ok a => f a | Err e => Err e end.

(** [d[k]] on a dict. *)
Definition getitem `{Countable K} {V} (d : gmap K V) (k : K) : res V :=
  match d !! k with
  | Some v => Ok v
  | None => Err KeyError
  end.

(** [d.pop(k)] on a dict, dropping the popped value. *)
Definition dict_pop `{Countable K} {V} (d : gmap K V) (k : K) : res (gmap K V) :=
  match d !! k with
  | Some _ => Ok (delete k d)
  | None => Err KeyError
  end.

(** Attribute access on a value that may be [None]. *)
Definition deref {A} (o : option A) : res A :=
  match o with
  | Some a => Ok a
  | None => Err AttributeError
  end.

(** ** Rational comparisons *)

Definition Qltb (a b : Q) : bool :=
  (Qnum a * QDen b <? Qnum b * QDen a)%Z.

Definition Qhalf (a b : Q) : Q := Qred ((a + b) / 2)%Q.

(** ** constants.py *)

Definition MAX_INT : Z := 1061109567.   (* 0x3f3f3f3f *)
Definition PRECISION : Z := 5.
Definition NUM_TAXI : Z := 2980.
Definition AVERAGE_SPEED : Q := 7.
Definition TAXI_CAPACITY : Z := 1.
Definition PATIENCE : Z := 5 * 60.
Definition TIME_STEP : Q := 1.

Inductive Status : Type := WAITING | CANCELLED | RIDING | SATISFIED.

#[export] Instance Status_eq_dec : EqDecision Status.
Proof. solve_decision. Defined.

(** ** geohash.py *)

Definition BASE32 : list Ascii.ascii :=
  String.list_ascii_of_string "0123456789bcdefghjkmnpqrstuvwxyz".

(** [x > mid] in Python 2, where [x] may be [None]: [None] sorts below
    every number. *)
Definition py_gt (x : option Q) (mid : Q) : bool :=
  match x with
  | Some v => Qltb mid v
  | None => false
  end.

Record encode_state : Type := EncodeState {
  lat_interval : Q * Q;
  lon_interval : Q * Q;
  enc_bits : Z;
  enc_geohash : string
}.

(** One pass of the body of [for i in range(1, length + 1)]. *)
Definition geo_encode_body (lat lon : option Q) (i : Z) (st : encode_state)
  : encode_state :=
  let st1 :=
    if negb (i mod 2 =? 0) then
      let mid := Qhalf (lon_interval st).1 (lon_interval st).2 in
      if py_gt lon mid
      then EncodeState (lat_interval st) (mid, (lon_interval st).2)
                       (enc_bits st * 2 + 1) (enc_geohash st)
      else EncodeState (lat_interval st) ((lon_interval st).1, mid)
                       (enc_bits st * 2) (enc_geohash st)
    else
      let mid := Qhalf (lat_interval st).1 (lat_interval st).2 in
      if py_gt lat mid
      then EncodeState (mid, (lat_interval st).2) (lon_interval st)
                       (enc_bits st * 2 + 1) (enc_geohash st)
      else EncodeState ((lat_interval st).1, mid) (lon_interval st)
                       (enc_bits st * 2) (enc_geohash st) in
  if i mod 5 =? 0 then
    EncodeState (lat_interval st1) (lon_interval st1) 0
      (enc_geohash st1 +:+
         String (nth (Z.to_nat (enc_bits st1)) BASE32 Ascii.zero) EmptyString)
  else st1.

Fixpoint geo_encode_loop (n : nat) (lat lon : option Q) (i : Z)
  (st : encode_state) : encode_state :=
  match n with
  | O => st
  | S n' => geo_encode_loop n' lat lon (i + 1) (geo_encode_body lat lon i st)
  end.

Definition geo_encode (lat lon : option Q) (precision : Z) : string :=
  let length := precision * 5 in
  enc_geohash
    (geo_encode_loop (Z.to_nat length) lat lon 1
       (EncodeState ((-90)%Q, 90%Q) ((-180)%Q, 180%Q) 0 EmptyString)).

(** ** location.py *)

Record Location : Type := mkLocation {
  lat : option Q;
  lon : option Q;
  loc_geohash : string
}.

(** [Location.__init__]: the geohash is computed once from the
    coordinates. *)
Definition Location_init (lat lon : option Q) : Location :=
  mkLocation lat lon (geo_encode lat lon PRECISION).

(** The trigonometric kernels of [get_distance], [bearing] and [end_pos]
    are floating-point computations; the embedding takes them as an
    interface on degrees (and metres). *)
Class Geo : Type := {
  great_circle : Q -> Q -> Q -> Q -> Q;
  bearing_rad : Q -> Q -> Q -> Q -> Q;
  end_point : Q -> Q -> Q -> Q -> Q * Q
}.

(** [math.radians(x)] raises [TypeError] on [None]. *)
Definition coord (x : option Q) : res Q :=
  match x with
  | Some v => Ok v
  | None => Err TypeError
  end.

Section location.
Context `{Geo}.

Definition get_distance (pos_a pos_b : Location) : res Q :=
x1 ← coord (lat pos_a);
y1 ← coord (lon pos_a);
x2 ← coord (lat pos_b);
y2 ← coord (lon pos_b);
Ok (great_circle x1 y1 x2 y2).

Definition bearing (pos_a pos_b : Location) : res Q :=
lat_a ← coord (lat pos_a);
lon_a ← coord (lon pos_a);
lat_b ← coord (lat pos_b);
lon_b ← coord (lon pos_b);
Ok (bearing_rad lat_a lon_a lat_b lon_b).

Definition end_pos (start_pos : Location) (theta d : Q) : res Location :=
lat_start ← coord (lat start_pos);
lon_start ← coord (lon start_pos);
let p := end_point lat_start lon_start theta d in
Ok (Location_init (Some p.1) (Some p.2)).
End location.

(** ** road_network.py: the graph *)

Record Vertex : Type := mkVertex {
  vertex_id : Z;
  vertex_location : Location;
  connected_to : gmap Z Z       (* neighbour id -> id of the edge to it *)
}.

Record Edge : Type := mkEdge {
  edge_id : Z;
  start_vid : Z;
  end_vid : Z;
  weight : Q
}.

Record RoadNetwork : Type := mkRoadNetwork {
  num_vertex : Z;
  num_edge : Z;
  vertex_set : gmap Z Vertex;
  edge_set : gmap Z Edge
}.

Definition RoadNetwork_init : RoadNetwork := mkRoadNetwork 0 0 ∅ ∅.

Definition Vertex_init (v_id : Z) (location : Location) : Vertex :=
  mkVertex v_id location ∅.

Definition add_neighbor (v : Vertex) (nbr_id e_id : Z) : Vertex :=
  mkVertex (vertex_id v) (vertex_location v) (<[nbr_id := e_id]> (connected_to v)).

Definition add_vertex (rn : RoadNetwork) (v_id : Z) (lat lon : option Q)
  : RoadNetwork :=
  let num_vertex' :=
    if decide (is_Some (vertex_set rn !! v_id))
    then num_vertex rn else num_vertex rn + 1 in
  let location := Location_init lat lon in
  let vertex := Vertex_init v_id location in
  mkRoadNetwork num_vertex' (num_edge rn)
    (<[v_id := vertex]> (vertex_set rn)) (edge_set rn).

Definition add_edge (rn : RoadNetwork) (e_id start_vid end_vid : Z) (weight : Q)
  : res RoadNetwork :=
  let num_edge' :=
    if decide (is_Some (edge_set rn !! e_id))
    then num_edge rn else num_edge rn + 1 in
  let rn1 := mkRoadNetwork (num_vertex rn) num_edge' (vertex_set rn) (edge_set rn) in
  let rn2 :=
    if decide (is_Some (vertex_set rn1 !! start_vid))
    then rn1 else add_vertex rn1 start_vid None None in
  let rn3 :=
    if decide (is_Some (vertex_set rn2 !! end_vid))
    then rn2 else add_vertex rn2 end_vid None None in
  let edge := mkEdge e_id start_vid end_vid weight in
  let edge_set' := <[edge_id edge := edge]> (edge_set rn3) in
  v ← getitem (vertex_set rn3) start_vid;
  Ok (mkRoadNetwork (num_vertex rn3) (num_edge rn3)
        (<[start_vid := add_neighbor v end_vid e_id]> (vertex_set rn3))
        edge_set').

Definition get_vertex (rn : RoadNetwork) (v_id : Z) : option Vertex :=
  vertex_set rn !! v_id.

Definition get_edge (rn : RoadNetwork) (e_id : option Z) : option Edge :=
  e ← e_id; edge_set rn !! e.

Definition get_neighbors (rn : RoadNetwork) (s_vid : Z) : res (list Z) :=
  v ← getitem (vertex_set rn) s_vid;
  Ok (map_to_list (connected_to v)).*1.

Definition get_eid (rn : RoadNetwork) (start_vid end_vid : Z) : res (option Z) :=
  v ← getitem (vertex_set rn) start_vid;
  Ok (connected_to v !! end_vid).

(** [float('inf')], returned when there is no edge, is not a rational. *)
Definition get_weight (rn : RoadNetwork) (start_vid end_vid : Z) : res Q :=
  v ← getitem (vertex_set rn) start_vid;
  match connected_to v !! end_vid with
  | Some e_id => e ← getitem (edge_set rn) e_id; Ok (weight e)
  | None => Err FloatInf
  end.

Section straight_distance.
Context `{Geo}.

Definition get_straight_distance (rn : RoadNetwork) (start_vid end_vid : Z)
: res Q :=
v_start ← deref (get_vertex rn start_vid);
v_end ← deref (get_vertex rn end_vid);
get_distance (vertex_location v_start) (vertex_location v_end).
End straight_distance.

(** ** container.py *)

(** Modelled from the spec: the module [container] ([Queue] and
    [PriorityQueue]) is not part of the sources at hand.  A [Queue] is a
    FIFO queue.  A [PriorityQueue] holds [(priority, item)] entries
    ([query.py] reads them as [elements], the item in second position);
    [get] removes and returns the item of an entry of least priority, ties
    going to the smaller item. *)
Definition Queue_put {A} (q : list A) (x : A) : list A := q ++ [x].

Definition Queue_get {A} (q : list A) : option (A * list A) :=
  match q with
  | [] => None
  | x :: q' => Some (x, q')
  end.

Definition entry_le (a b : Q * Z) : bool :=
  Qltb a.1 b.1 || (negb (Qltb b.1 a.1) && (a.2 <=? b.2)).

(** The least entry of [x :: l], and the other entries. *)
Fixpoint pq_extract (x : Q * Z) (l : list (Q * Z)) : (Q * Z) * list (Q * Z) :=
  match l with
  | [] => (x, [])
  | y :: l' =>
      if entry_le x y
      then let '(m, r) := pq_extract x l' in (m, y :: r)
      else let '(m, r) := pq_extract y l' in (m, x :: r)
  end.

Definition pq_put (pq : list (Q * Z)) (item : Z) (priority : Q) : list (Q * Z) :=
  (priority, item) :: pq.

(** [None] when [empty()] holds, else the result of [get()]. *)
Definition pq_get (pq : list (Q * Z)) : option (Z * list (Q * Z)) :=
  match pq with
  | [] => None
  | x :: l => let '(m, r) := pq_extract x l in Some (m.2, r)
  end.

(** ** road_network.py: paths and searches *)

Record Path : Type := mkPath {
  vertex_list : list Z;
  edge_list : list (option Z);
  distance : Q
}.

Fixpoint foldM {A S : Type} (f : A -> S -> res S) (l : list A) (s : S) : res S :=
  match l with
  | [] => Ok s
  | x :: l' => s' ← f x s; foldM f l' s'
  end.

(** The [while current != s_vid] loop of [construct_path]; [v_list] is
    kept in reverse, so that [append] is [cons] and the final [reverse]
    is the identity.  [came_from] maps the start vertex to [None]; a
    [current] that became [None] is not a key of [came_from]. *)
Fixpoint construct_vertex_list (fuel : nat) (came_from : gmap Z (option Z))
  (s_vid current : Z) (v_list : list Z) : res (list Z) :=
  if decide (current = s_vid) then Ok v_list
  else match came_from !! current with
       | None => Ok []
       | Some None => Ok []
       | Some (Some prev) =>
           match fuel with
           | O => Err OutOfFuel
           | S fuel' =>
               construct_vertex_list fuel' came_from s_vid prev (prev :: v_list)
           end
       end.

(** The [for i in range(len_v-1)] loop of [construct_path]. *)
Fixpoint construct_edge_list (rn : RoadNetwork) (v_list : list Z)
  (e_list : list (option Z)) (distance : Q) : res (list (option Z) * Q) :=
  match v_list with
  | u :: (v :: _) as rest =>
      e_id ← get_eid rn u v;
      w ← get_weight rn u v;
      construct_edge_list rn rest (e_list ++ [e_id]) (distance + w)%Q
  | _ => Ok (e_list, distance)
  end.

Definition construct_path (fuel : nat) (rn : RoadNetwork) (s_vid e_vid : Z)
  (came_from : gmap Z (option Z)) : res Path :=
  v_list ← construct_vertex_list fuel came_from s_vid e_vid [e_vid];
  '(e_list, distance) ← construct_edge_list rn v_list [] 0%Q;
  Ok (mkPath v_list e_list distance).

(** The body of [for neighbor in ...] in [bfs]. *)
Definition bfs_visit (current neighbor : Z)
  (st : list Z * gmap Z (option Z)) : list Z * gmap Z (option Z) :=
  let '(frontier, came_from) := st in
  match came_from !! neighbor with
  | None => (Queue_put frontier neighbor, <[neighbor := Some current]> came_from)
  | Some _ => st
  end.

Fixpoint bfs_loop (fuel : nat) (rn : RoadNetwork) (e_vid : Z)
  (frontier : list Z) (came_from : gmap Z (option Z))
  : res (gmap Z (option Z)) :=
  match Queue_get frontier with
  | None => Ok came_from
  | Some (current, frontier') =>
      if decide (current = e_vid) then Ok came_from
      else match fuel with
           | O => Err OutOfFuel
           | S fuel' =>
               nbrs ← get_neighbors rn current;
               let '(frontier'', came_from') :=
                 foldl (fun st n => bfs_visit current n st)
                   (frontier', came_from) nbrs in
               bfs_loop fuel' rn e_vid frontier'' came_from'
           end
  end.

Definition bfs (fuel : nat) (rn : RoadNetwork) (s_vid e_vid : Z) : res Path :=
  came_from ← bfs_loop fuel rn e_vid (Queue_put [] s_vid) {[s_vid := None]};
  construct_path fuel rn s_vid e_vid came_from.

(** The state of the weighted searches: frontier, [came_from] and
    [cost_so_far]. *)
Definition search_state : Type :=
  list (Q * Z) * gmap Z (option Z) * gmap Z Q.

(** The body of [for neighbor in ...] shared by [dijkstra],
    [get_shortest_path] and [single_source_dijkstra]; they differ in the
    priority given to a relaxed neighbour. *)
Definition relax (rn : RoadNetwork) (priority_of : Z -> Q -> res Q)
  (current neighbor : Z) (st : search_state) : res search_state :=
  let '(frontier, came_from, cost_so_far) := st in
  c ← getitem cost_so_far current;
  w ← get_weight rn current neighbor;
  let new_cost := (c + w)%Q in
  if match cost_so_far !! neighbor with
     | None => true
     | Some old => Qltb new_cost old
     end
  then
    priority ← priority_of neighbor new_cost;
    Ok (pq_put frontier neighbor priority,
        <[neighbor := Some current]> came_from,
        <[neighbor := new_cost]> cost_so_far)
  else Ok st.

(** [while not frontier.empty()]; [e_vid] is [None] for the search
    without early exit. *)
Fixpoint search_loop (fuel : nat) (rn : RoadNetwork)
  (priority_of : Z -> Q -> res Q) (e_vid : option Z) (st : search_state)
  : res (gmap Z (option Z)) :=
  match pq_get st.1.1 with
  | None => Ok st.1.2
  | Some (current, frontier') =>
      if decide (Some current = e_vid) then Ok st.1.2
      else match fuel with
           | O => Err OutOfFuel
           | S fuel' =>
               nbrs ← get_neighbors rn current;
               st' ← foldM (relax rn priority_of current) nbrs
                           (frontier', st.1.2, st.2);
               search_loop fuel' rn priority_of e_vid st'
           end
  end.

Definition search_init (s_vid : Z) : search_state :=
  (pq_put [] s_vid 0%Q, {[s_vid := None]}, {[s_vid := 0%Q]}).

Definition dijkstra (fuel : nat) (rn : RoadNetwork) (s_vid e_vid : Z) : res Path :=
  came_from ← search_loop fuel rn (fun _ new_cost => Ok new_cost) (Some e_vid)
                 (search_init s_vid);
  construct_path fuel rn s_vid e_vid came_from.

Definition single_source_dijkstra (fuel : nat) (rn : RoadNetwork) (start : Z)
  : res (gmap Z (option Z)) :=
  search_loop fuel rn (fun _ new_cost => Ok new_cost) None (search_init start).

Section heuristic_search.
Context `{Geo}.

(** The body of [for neighbor in ...] in [greedy_bfs]. *)
Definition greedy_visit (rn : RoadNetwork) (e_vid current neighbor : Z)
(st : list (Q * Z) * gmap Z (option Z))
: res (list (Q * Z) * gmap Z (option Z)) :=
let '(frontier, came_from) := st in
match came_from !! neighbor with
| None =>
    priority ← get_straight_distance rn neighbor e_vid;
    Ok (pq_put frontier neighbor priority,
        <[neighbor := Some current]> came_from)
| Some _ => Ok st
end.

Fixpoint greedy_loop (fuel : nat) (rn : RoadNetwork) (e_vid : Z)
(st : list (Q * Z) * gmap Z (option Z)) : res (gmap Z (option Z)) :=
match pq_get st.1 with
| None => Ok st.2
| Some (current, frontier') =>
    if decide (current = e_vid) then Ok st.2
    else match fuel with
         | O => Err OutOfFuel
         | S fuel' =>
             nbrs ← get_neighbors rn current;
             st' ← foldM (greedy_visit rn e_vid current) nbrs
                         (frontier', st.2);
             greedy_loop fuel' rn e_vid st'
         end
end.

Definition greedy_bfs (fuel : nat) (rn : RoadNetwork) (s_vid e_vid : Z)
: res Path :=
came_from ← greedy_loop fuel rn e_vid (pq_put [] s_vid 0%Q, {[s_vid := None]});
construct_path fuel rn s_vid e_vid came_from.

(** The priority of [get_shortest_path]: cost so far plus straight-line
  distance to the goal. *)
Definition astar_priority (rn : RoadNetwork) (e_vid : Z)
(neighbor : Z) (new_cost : Q) : res Q :=
h ← get_straight_distance rn neighbor e_vid;
Ok (new_cost + h)%Q.

Definition get_shortest_path (fuel : nat) (rn : RoadNetwork) (s_vid e_vid : Z)
: res Path :=
came_from ← search_loop fuel rn (astar_priority rn e_vid) (Some e_vid)
               (search_init s_vid);
construct_path fuel rn s_vid e_vid came_from.
End heuristic_search.

(** ** geohash.py: decoding *)

Fixpoint list_index {A} `{EqDecision A} (x : A) (l : list A) : option Z :=
  match l with
  | [] => None
  | y :: l' => if decide (x = y) then Some 0 else Z.succ <$> list_index x l'
  end.

(** [for j in range(4, -1, -1)], one pass. *)
Definition geo_decode_bit (bits : Z) (j : Z) (st : bool * (Q * Q) * (Q * Q))
  : bool * (Q * Q) * (Q * Q) :=
  let '(odd, lat_iv, lon_iv) := st in
  let bit := Z.land (Z.shiftr bits j) 1 in
  if odd then
    let mid := Qhalf lon_iv.1 lon_iv.2 in
    (negb odd, lat_iv, if bit =? 1 then (mid, lon_iv.2) else (lon_iv.1, mid))
  else
    let mid := Qhalf lat_iv.1 lat_iv.2 in
    (negb odd, if bit =? 1 then (mid, lat_iv.2) else (lat_iv.1, mid), lon_iv).

Fixpoint geo_decode_loop (geohash : list Ascii.ascii)
  (st : bool * (Q * Q) * (Q * Q)) : res (bool * (Q * Q) * (Q * Q)) :=
  match geohash with
  | [] => Ok st
  | char :: rest =>
      match list_index char BASE32 with
      | None => Err ValueError
      | Some bits =>
          geo_decode_loop rest
            (foldl (fun st j => geo_decode_bit bits j st) st [4; 3; 2; 1; 0])
      end
  end.

Definition geo_decode (geohash : string) : res (Q * Q) :=
  '(_, lat_iv, lon_iv) ←
     geo_decode_loop (String.list_ascii_of_string geohash)
       (true, ((-90)%Q, 90%Q), ((-180)%Q, 180%Q));
  Ok (Qhalf lat_iv.1 lat_iv.2, Qhalf lon_iv.1 lon_iv.2).

(** ** spatio_temporal_index.py *)

Record GridCell : Type := mkGridCell {
  cell_geohash : string;
  center_location : Location;
  anchor : option Z;
  cell_vertex_list : gset Z;
  spatial_grid_list : list (string * Q);
  temporal_grid_list : list (string * Q);
  taxi_list : gmap Z Q            (* taxi id -> time of arrival in the cell *)
}.

Record MatrixCell : Type := mkMatrixCell {
  mc_d : Q;
  mc_t : Q
}.

Record SpatioTemporalDatabase : Type := mkDatabase {
  num_grid : Z;
  grid : gmap string GridCell;
  grid_distance_matrix : gmap string (gmap string MatrixCell)
}.

Definition GridCell_init (geohash : string) : res GridCell :=
  '(la, lo) ← geo_decode geohash;
  Ok (mkGridCell geohash (Location_init (Some la) (Some lo)) None ∅ [] [] ∅).

Definition Database_init : SpatioTemporalDatabase := mkDatabase 0 ∅ ∅.

Definition set_taxi_list (c : GridCell) (tl : gmap Z Q) : GridCell :=
  mkGridCell (cell_geohash c) (center_location c) (anchor c)
    (cell_vertex_list c) (spatial_grid_list c) (temporal_grid_list c) tl.

Definition set_vertex_list (c : GridCell) (vl : gset Z) : GridCell :=
  mkGridCell (cell_geohash c) (center_location c) (anchor c)
    vl (spatial_grid_list c) (temporal_grid_list c) (taxi_list c).

Definition set_anchor (c : GridCell) (a : option Z) : GridCell :=
  mkGridCell (cell_geohash c) (center_location c) a
    (cell_vertex_list c) (spatial_grid_list c) (temporal_grid_list c) (taxi_list c).

Definition set_static_lists (c : GridCell) (sl tl : list (string * Q)) : GridCell :=
  mkGridCell (cell_geohash c) (center_location c) (anchor c)
    (cell_vertex_list c) sl tl (taxi_list c).

Definition set_grid (db : SpatioTemporalDatabase) (g : gmap string GridCell)
  : SpatioTemporalDatabase :=
  mkDatabase (num_grid db) g (grid_distance_matrix db).

(** [GridCell.remove_taxi]: [self.taxi_list.pop(taxi_id)]. *)
Definition remove_taxi (c : GridCell) (taxi_id : Z) : res GridCell :=
  tl ← dict_pop (taxi_list c) taxi_id;
  Ok (set_taxi_list c tl).

Definition add_taxi (c : GridCell) (taxi_id : Z) (t_arrive : Q) : GridCell :=
  set_taxi_list c (<[taxi_id := t_arrive]> (taxi_list c)).

(** The body of [for v_id in road_network.vertex_set]. *)
Definition load_vertex (rn : RoadNetwork) (v_id : Z)
  (db : SpatioTemporalDatabase) : res SpatioTemporalDatabase :=
  vertex ← deref (get_vertex rn v_id);
  let geohash := loc_geohash (vertex_location vertex) in
  match grid db !! geohash with
  | None =>
      new_grid_cell ← GridCell_init geohash;
      let new_grid_cell :=
        set_vertex_list new_grid_cell ({[v_id]} ∪ cell_vertex_list new_grid_cell) in
      Ok (mkDatabase (num_grid db + 1) (<[geohash := new_grid_cell]> (grid db))
            (grid_distance_matrix db))
  | Some c =>
      Ok (set_grid db
            (<[geohash := set_vertex_list c ({[v_id]} ∪ cell_vertex_list c)]> (grid db)))
  end.

Definition load_road_network (db : SpatioTemporalDatabase) (rn : RoadNetwork)
  : res SpatioTemporalDatabase :=
  foldM (load_vertex rn) (map_to_list (vertex_set rn)).*1 db.

(** [sorted(items, lambda x, y: cmp(x[1], y[1]))]: a stable sort on the
    second component. *)
Fixpoint insert_by_value (x : string * Q) (l : list (string * Q))
  : list (string * Q) :=
  match l with
  | [] => [x]
  | y :: l' => if Qltb y.2 x.2 then y :: insert_by_value x l' else x :: l
  end.

Definition sorted_by_value (l : list (string * Q)) : list (string * Q) :=
  foldr insert_by_value [] l.

(** The body of [for i in self.grid] in [__construct_static_list]. *)
Definition construct_static_cell (db : SpatioTemporalDatabase) (i : string)
  (g : gmap string GridCell) : res (gmap string GridCell) :=
  row ← getitem (grid_distance_matrix db) i;
  let spatial_grid_list := sorted_by_value (map_to_list (mc_d <$> (row : gmap string MatrixCell))) in
  let temporal_grid_list := sorted_by_value (map_to_list (mc_t <$> (row : gmap string MatrixCell))) in
  c ← getitem g i;
  Ok (<[i := set_static_lists c spatial_grid_list temporal_grid_list]> g).

Definition construct_static_list (db : SpatioTemporalDatabase)
  : res SpatioTemporalDatabase :=
  g ← foldM (construct_static_cell db) (map_to_list (grid db)).*1 (grid db);
  Ok (set_grid db g).

Section index.
Context `{Geo}.

(** The scan [for v_id in ...vertex_list] of [__determine_anchor] and of
  [map_match]: the vertex closest to [target]; [min_dis] starts at
  [float('inf')], here [None]. *)
Definition closest_visit (rn : RoadNetwork) (target : Location) (v_id : Z)
(st : option Z * option Q) : res (option Z * option Q) :=
vertex ← deref (get_vertex rn v_id);
dis ← get_distance (vertex_location vertex) target;
if match st.2 with None => true | Some min_dis => Qltb dis min_dis end
then Ok (Some v_id, Some dis)
else Ok st.

Definition closest_vertex (rn : RoadNetwork) (target : Location)
(vs : gset Z) : res (option Z) :=
st ← foldM (closest_visit rn target) (elements vs) (None, None);
Ok st.1.

Definition determine_anchor_cell (rn : RoadNetwork) (geohash : string)
(g : gmap string GridCell) : res (gmap string GridCell) :=
c ← getitem g geohash;
a ← closest_vertex rn (center_location c) (cell_vertex_list c);
Ok (<[geohash := set_anchor c a]> g).

Definition determine_anchor (db : SpatioTemporalDatabase) (rn : RoadNetwork)
: res SpatioTemporalDatabase :=
g ← foldM (determine_anchor_cell rn) (map_to_list (grid db)).*1 (grid db);
Ok (set_grid db g).

(** [init_static_info]; the distance matrix is read from a pickled
  file, here the argument [matrix]. *)
Definition init_static_info (db : SpatioTemporalDatabase) (rn : RoadNetwork)
(matrix : gmap string (gmap string MatrixCell)) : res SpatioTemporalDatabase :=
db1 ← determine_anchor db rn;
construct_static_list (mkDatabase (num_grid db1) (grid db1) matrix).
End index.

(** ** routing.py *)

Record ScheduleNode : Type := mkScheduleNode {
  sn_query_id : Z;
  is_origin : bool;
  matched_vid : option Z
}.

Section routing.
Context `{Geo}.

Definition map_match (query_id : Z) (location : Location) (is_origin : bool)
(rn : RoadNetwork) (database : SpatioTemporalDatabase) : res ScheduleNode :=
let geohash := loc_geohash location in
c ← getitem (grid database) geohash;
matched_vid ← closest_vertex rn location (cell_vertex_list c);
Ok (mkScheduleNode query_id is_origin matched_vid).
End routing.

(** ** query.py *)

Record TimeWindow : Type := mkTimeWindow {
  early : Z;
  late : Z
}.

Record Query : Type := mkQuery {
  query_id : Z;
  q_timestamp : Z;
  origin : Location;
  destination : Location;
  o_geohash : string;
  d_geohash : string;
  o_schedule_node : option ScheduleNode;
  d_schedule_node : option ScheduleNode;
  pickup_window : TimeWindow;
  delivery_window : TimeWindow;
  matched_taxi : option Z;
  status : Status;
  waiting_time : Z
}.

Definition Query_init (identifier timestamp : Z) (origin destination : Location)
  : Query :=
  mkQuery identifier timestamp origin destination
    (geo_encode (lat origin) (lon origin) PRECISION)
    (geo_encode (lat destination) (lon destination) PRECISION)
    None None
    (mkTimeWindow timestamp (timestamp + PATIENCE))
    (mkTimeWindow timestamp (timestamp + MAX_INT))
    None WAITING 0.

Definition set_status (q : Query) (st : Status) : Query :=
  mkQuery (query_id q) (q_timestamp q) (origin q) (destination q)
    (o_geohash q) (d_geohash q) (o_schedule_node q) (d_schedule_node q)
    (pickup_window q) (delivery_window q) (matched_taxi q) st (waiting_time q).

Definition set_waiting_time (q : Query) (w : Z) : Query :=
  mkQuery (query_id q) (q_timestamp q) (origin q) (destination q)
    (o_geohash q) (d_geohash q) (o_schedule_node q) (d_schedule_node q)
    (pickup_window q) (delivery_window q) (matched_taxi q) (status q) w.

Definition set_matched_taxi (q : Query) (t : option Z) : Query :=
  mkQuery (query_id q) (q_timestamp q) (origin q) (destination q)
    (o_geohash q) (d_geohash q) (o_schedule_node q) (d_schedule_node q)
    (pickup_window q) (delivery_window q) t (status q) (waiting_time q).

Definition set_schedule_nodes (q : Query) (o d : option ScheduleNode) : Query :=
  mkQuery (query_id q) (q_timestamp q) (origin q) (destination q)
    (o_geohash q) (d_geohash q) o d
    (pickup_window q) (delivery_window q) (matched_taxi q) (status q)
    (waiting_time q).

Definition cancel (q : Query) : Query := set_status q CANCELLED.

Definition update_status (q : Query) (timestamp : Z) : Query :=
  if decide (status q = WAITING) then
    let q1 := set_waiting_time q (waiting_time q + 1) in
    if late (pickup_window q1) <? timestamp then cancel q1 else q1
  else q.

(** The query objects are shared by the query set, the queues, the
    dispatcher and the taxis: the query set is their store, and a
    reference to a query is its key there. *)
Definition getref (query_set : gmap Z Query) (ref : Z) : res Query :=
  match query_set !! ref with
  | Some q => Ok q
  | None => Err BadRef
  end.

Section query.
Context `{Geo}.

Definition Query_init_schedule_node (q : Query) (rn : RoadNetwork)
(database : SpatioTemporalDatabase) : res Query :=
o ← map_match (query_id q) (origin q) true rn database;
d ← map_match (query_id q) (destination q) false rn database;
Ok (set_schedule_nodes q (Some o) (Some d)).

(** [init_schedule_node(query_queue, ...)]: every entry of the queue. *)
Definition init_schedule_node (query_queue : list (Q * Z)) (rn : RoadNetwork)
(database : SpatioTemporalDatabase) (query_set : gmap Z Query)
: res (gmap Z Query) :=
foldM (fun (item : Q * Z) qs =>
         q ← getref qs item.2;
         q' ← Query_init_schedule_node q rn database;
         Ok (<[item.2 := q']> qs))
  query_queue query_set.
End query.

(** ** taxi.py: the record *)

Record Taxi : Type := mkTaxi {
  taxi_id : Z;
  speed : Q;
  capacity : Z;
  taxi_location : Location;
  taxi_geohash : string;
  num_riders : Z;
  schedule : list (option ScheduleNode);
  route : option Path;
  serving_queries : gmap Z Z;     (* query id -> reference to the query *)
  v_id : option Z;
  e_id : option Z;
  eid_index : option Z;
  driving_distance : Q
}.

Definition Taxi_init (identifier : Z) (location : Location) : Taxi :=
  mkTaxi identifier AVERAGE_SPEED TAXI_CAPACITY location
    (geo_encode (lat location) (lon location) PRECISION)
    0 [] None ∅ None None None 0%Q.

Definition set_v_id (t : Taxi) (v : option Z) : Taxi :=
  mkTaxi (taxi_id t) (speed t) (capacity t) (taxi_location t) (taxi_geohash t)
    (num_riders t) (schedule t) (route t) (serving_queries t)
    v (e_id t) (eid_index t) (driving_distance t).

Definition set_position (t : Taxi) (l : Location) (g : string) : Taxi :=
  mkTaxi (taxi_id t) (speed t) (capacity t) l g
    (num_riders t) (schedule t) (route t) (serving_queries t)
    (v_id t) (e_id t) (eid_index t) (driving_distance t).

Definition set_schedule (t : Taxi) (s : list (option ScheduleNode)) : Taxi :=
  mkTaxi (taxi_id t) (speed t) (capacity t) (taxi_location t) (taxi_geohash t)
    (num_riders t) s (route t) (serving_queries t)
    (v_id t) (e_id t) (eid_index t) (driving_distance t).

Definition set_route (t : Taxi) (r : option Path) : Taxi :=
  mkTaxi (taxi_id t) (speed t) (capacity t) (taxi_location t) (taxi_geohash t)
    (num_riders t) (schedule t) r (serving_queries t)
    (v_id t) (e_id t) (eid_index t) (driving_distance t).

Definition set_edge (t : Taxi) (e : option Z) (i : option Z) : Taxi :=
  mkTaxi (taxi_id t) (speed t) (capacity t) (taxi_location t) (taxi_geohash t)
    (num_riders t) (schedule t) (route t) (serving_queries t)
    (v_id t) e i (driving_distance t).

Definition set_riders (t : Taxi) (n : Z) (sq : gmap Z Z) : Taxi :=
  mkTaxi (taxi_id t) (speed t) (capacity t) (taxi_location t) (taxi_geohash t)
    n (schedule t) (route t) sq
    (v_id t) (e_id t) (eid_index t) (driving_distance t).

Definition set_driving_distance (t : Taxi) (d : Q) : Taxi :=
  mkTaxi (taxi_id t) (speed t) (capacity t) (taxi_location t) (taxi_geohash t)
    (num_riders t) (schedule t) (route t) (serving_queries t)
    (v_id t) (e_id t) (eid_index t) d.

Definition is_available (t : Taxi) : bool :=
  (num_riders t <? capacity t) && negb (Z.of_nat (length (schedule t)) =? 0).

(** [l[i]] on a list, with Python's negative indices. *)
Definition list_getitem {A} (l : list A) (i : Z) : res A :=
  let n := Z.of_nat (length l) in
  let j := if i <? 0 then i + n else i in
  if (0 <=? j) && (j <? n) then
    match l !! Z.to_nat j with
    | Some x => Ok x
    | None => Err IndexError
    end
  else Err IndexError.

(** [None] when the route is [None] or has no edge. *)
Definition route_edges (r : option Path) : option (Path * list (option Z)) :=
  match r with
  | None => None
  | Some p => match edge_list p with [] => None | _ => Some (p, edge_list p) end
  end.

Section taxi_route.
Context `{Geo}.

(** [Taxi.update_route]; [schedule_node] is the node the taxi stands
  on, [None] by default. *)
Definition update_route (fuel : nat) (t : Taxi) (rn : RoadNetwork)
(schedule_node : option ScheduleNode) : res Taxi :=
match schedule t with
| [] => Ok (set_route t None)
| head :: _ =>
    let from_vid :=
      match schedule_node with
      | None => v_id t
      | Some node => matched_vid node
      end in
    head ← deref head;
    let to_vid := matched_vid head in
    match from_vid, to_vid with
    | Some from_vid, Some to_vid =>
        r ← get_shortest_path fuel rn from_vid to_vid;
        let t1 := set_route t (Some r) in
        match edge_list r with
        | [] => Ok t1
        | e :: _ => Ok (set_edge t1 e (Some 0))
        end
    | _, _ => Err NoneVertex
    end
end.
End taxi_route.

(** ** spatio_temporal_index.py: the dynamic lists *)

(** The body of [for identifier in taxi_set] in [init_dynamic_info]. *)
Definition init_dynamic_taxi (start_time : Z) (entry : Z * Taxi)
  (g : gmap string GridCell) : res (gmap string GridCell) :=
  let '(identifier, taxi) := entry in
  c ← getitem g (taxi_geohash taxi);
  Ok (<[taxi_geohash taxi := add_taxi c identifier (inject_Z start_time)]> g).

Definition init_dynamic_info (db : SpatioTemporalDatabase)
  (taxi_set : gmap Z Taxi) (start_time : Z) : res SpatioTemporalDatabase :=
  g ← foldM (init_dynamic_taxi start_time) (map_to_list taxi_set) (grid db);
  Ok (set_grid db g).

(** The body of [for e_id in route.edge_list] in [update_taxi_list]; the
    state is the grid, [cur_geohash] and [dis]. *)
Definition update_taxi_list_edge (timestamp : Z) (taxi : Taxi)
  (rn : RoadNetwork) (e_id : option Z)
  (st : gmap string GridCell * string * Q)
  : res (gmap string GridCell * string * Q) :=
  let '(g, cur_geohash, dis) := st in
  next_edge ← deref (get_edge rn e_id);
  let end_vid := end_vid next_edge in
  v ← deref (get_vertex rn end_vid);
  let next_geohash := loc_geohash (vertex_location v) in
  let dis := (dis + weight next_edge)%Q in
  if decide (next_geohash <> cur_geohash) then
    c ← getitem g next_geohash;
    let g' :=
      <[next_geohash :=
          add_taxi c (taxi_id taxi) (inject_Z timestamp + dis / AVERAGE_SPEED)%Q]> g in
    Ok (g', next_geohash, dis)
  else Ok (g, cur_geohash, dis).

Definition update_taxi_list (db : SpatioTemporalDatabase) (timestamp : Z)
  (taxi : Taxi) (route : option Path) (rn : RoadNetwork)
  : res SpatioTemporalDatabase :=
  match route_edges route with
  | None => Ok db
  | Some (p, edges) =>
      cur_vid ← list_getitem (vertex_list p) 0;
      v ← deref (get_vertex rn cur_vid);
      let cur_geohash := loc_geohash (vertex_location v) in
      st ← foldM (update_taxi_list_edge timestamp taxi rn) edges
                 (grid db, cur_geohash, 0%Q);
      Ok (set_grid db st.1.1)
  end.

(** ** dispatcher.py *)

Record Dispatcher : Type := mkDispatcher {
  failed_queries : list Z;            (* a Queue of references *)
  waiting_queries : gmap Z Z;         (* query id -> reference *)
  completed_queries : list Z;
  cancelled_queries : list Z
}.

Definition Dispatcher_init : Dispatcher := mkDispatcher [] ∅ [] [].

Definition add_cancelled_query (d : Dispatcher) (q : Query) (ref : Z) : Dispatcher :=
  mkDispatcher (failed_queries d) (waiting_queries d) (completed_queries d)
    (cancelled_queries d ++ [ref]).

Definition add_waiting_query (d : Dispatcher) (q : Query) (ref : Z) : Dispatcher :=
  mkDispatcher (failed_queries d) (<[query_id q := ref]> (waiting_queries d))
    (completed_queries d) (cancelled_queries d).

Definition add_serving_query (d : Dispatcher) (q : Query) : res Dispatcher :=
  w ← dict_pop (waiting_queries d) (query_id q);
  Ok (mkDispatcher (failed_queries d) w (completed_queries d) (cancelled_queries d)).

Definition add_failed_query (d : Dispatcher) (q : Query) (ref : Z) : Dispatcher :=
  mkDispatcher (Queue_put (failed_queries d) ref) (waiting_queries d)
    (completed_queries d) (cancelled_queries d).

Definition add_completed_query (d : Dispatcher) (q : Query) (ref : Z) : Dispatcher :=
  mkDispatcher (failed_queries d) (waiting_queries d)
    (completed_queries d ++ [ref]) (cancelled_queries d).

(** The taxis of one cell that pass the test of [__single_side_search]:
    [for taxi_id in grid.taxi_list]. *)
Definition scan_taxi_list (t_ij : Q) (pickup_late : Z) (tl : gmap Z Q) : list Z :=
  (filter (fun e : Z * Q => negb (Qltb (inject_Z pickup_late) (t_ij + e.2)%Q))
          (map_to_list tl)).*1.

(** [for item in database.grid[o_grid].temporal_grid_list], with its
    [break]. *)
Fixpoint single_side_walk (timestamp : Z) (pickup_late : Z)
  (database : SpatioTemporalDatabase) (items : list (string * Q))
  (candi_taxi_list : list Z) : res (list Z) :=
  match items with
  | [] => Ok candi_taxi_list
  | item :: items' =>
      if Qltb (inject_Z pickup_late) (item.2 + inject_Z timestamp)%Q
      then Ok candi_taxi_list
      else
        let grid_id := item.1 in
        c ← getitem (grid database) grid_id;
        single_side_walk timestamp pickup_late database items'
          (candi_taxi_list ++ scan_taxi_list item.2 pickup_late (taxi_list c))
  end.

Definition single_side_search (timestamp : Z) (query : Query)
  (database : SpatioTemporalDatabase) : res (list Z) :=
  let o_grid := o_geohash query in
  c ← getitem (grid database) o_grid;
  single_side_walk timestamp (late (pickup_window query)) database
    (temporal_grid_list c) [].

Section dispatcher.
Context `{Geo}.

(** The body of [for taxi_id in candi_taxi_list] in [__schedule]; the
  state is [picked_taxi_id] and [min_dis]. *)
Definition schedule_visit (query : Query) (taxi_set : gmap Z Taxi)
(taxi_id : Z) (st : Z * Q) : res (Z * Q) :=
taxi ← getitem taxi_set taxi_id;
if negb (is_available taxi) then Ok st
else
  dis ← get_distance (taxi_location taxi) (origin query);
  if Qltb dis st.2 then Ok (taxi_id, dis) else Ok st.

(** [Dispatcher.__schedule]: the flag, the taxi set and the query set
  after the call. *)
Definition Dispatcher_schedule (fuel : nat) (ref : Z)
(candi_taxi_list : list Z) (taxi_set : gmap Z Taxi)
(query_set : gmap Z Query) (rn : RoadNetwork)
: res (bool * gmap Z Taxi * gmap Z Query) :=
match candi_taxi_list with
| [] => Ok (false, taxi_set, query_set)
| first :: _ =>
    query ← getref query_set ref;
    st ← foldM (schedule_visit query taxi_set) candi_taxi_list
               (first, inject_Z MAX_INT);
    let picked_taxi_id := st.1 in
    picked_taxi ← getitem taxi_set picked_taxi_id;
    let query_set' :=
      <[ref := set_matched_taxi query (Some picked_taxi_id)]> query_set in
    let t1 :=
      set_schedule picked_taxi
        ((schedule picked_taxi ++ [o_schedule_node query])
           ++ [d_schedule_node query]) in
    t2 ← update_route fuel t1 rn None;
    Ok (true, <[picked_taxi_id := t2]> taxi_set, query_set')
end.

Definition dispatch_taxi (fuel : nat) (d : Dispatcher) (timestamp : Z)
(ref : Z) (database : SpatioTemporalDatabase) (taxi_set : gmap Z Taxi)
(query_set : gmap Z Query) (rn : RoadNetwork)
: res (Dispatcher * gmap Z Taxi * gmap Z Query) :=
query ← getref query_set ref;
candi_taxi_list ← single_side_search timestamp query database;
'(ok, taxi_set', query_set') ←
  Dispatcher_schedule fuel ref candi_taxi_list taxi_set query_set rn;
if ok : bool
then Ok (add_waiting_query d query ref, taxi_set', query_set')
else Ok (add_failed_query d query ref, taxi_set', query_set').
End dispatcher.

(** ** taxi.py: motion *)

(** [Taxi.__update_pos]. *)
Definition update_pos (t : Taxi) (timestamp : Z) (new_pos : Location)
  (database : SpatioTemporalDatabase) : res (Taxi * SpatioTemporalDatabase) :=
  let next_geohash := geo_encode (lat new_pos) (lon new_pos) PRECISION in
  if decide (next_geohash <> taxi_geohash t) then
    old ← getitem (grid database) (taxi_geohash t);
    old' ← remove_taxi old (taxi_id t);
    let g1 := <[taxi_geohash t := old']> (grid database) in
    new ← getitem g1 next_geohash;
    let g2 := <[next_geohash := add_taxi new (taxi_id t) (inject_Z timestamp)]> g1 in
    Ok (set_position t new_pos next_geohash, set_grid database g2)
  else Ok (set_position t new_pos (taxi_geohash t), database).

(** [Taxi.__get_next_eid]: [Ok None] at the last edge of the route. *)
Definition get_next_eid (t : Taxi) : res (option Z) :=
  r ← deref (route t);
  match eid_index t with
  | None => Err TypeError
  | Some i =>
      if i =? Z.of_nat (length (edge_list r)) - 1 then Ok None
      else list_getitem (edge_list r) (i + 1)
  end.

(** [Taxi.serve_query]: the taxi and the query set after the call. *)
Definition serve_query (t : Taxi) (query_set : gmap Z Query) (ref : Z)
  : res (Taxi * gmap Z Query) :=
  query ← getref query_set ref;
  let query_set' := <[ref := set_status query RIDING]> query_set in
  Ok (set_riders t (num_riders t + 1)
        (<[query_id query := ref]> (serving_queries t)),
      query_set').

(** [Taxi.satisfy_query]. *)
Definition satisfy_query (t : Taxi) (query_set : gmap Z Query) (ref : Z)
  : res (Taxi * gmap Z Query) :=
  query ← getref query_set ref;
  let query_set' := <[ref := set_status query SATISFIED]> query_set in
  sq ← dict_pop (serving_queries t) (query_id query);
  Ok (set_riders t (num_riders t - 1) sq, query_set').

(** The loop of [drive] that deletes the destination node of a query
    that is not picked up: the first item of the schedule with the
    query's id. *)
Fixpoint remove_first_of_query (qid : Z) (sched : list (option ScheduleNode))
  : res (list (option ScheduleNode)) :=
  match sched with
  | [] => Ok []
  | item :: rest =>
      node ← deref item;
      if decide (sn_query_id node = qid) then Ok rest
      else rest' ← remove_first_of_query qid rest; Ok (item :: rest')
  end.

Record World : Type := mkWorld {
  w_taxi : Taxi;
  w_dispatcher : Dispatcher;
  w_query_set : gmap Z Query;
  w_database : SpatioTemporalDatabase
}.

Section taxi_drive.
Context `{Geo}.

(** The branch of [drive] taken at the end of the last edge of the
  route: the taxi stands on the first node of its schedule. *)
Definition arrive (fuel : nat) (timestamp : Z) (rn : RoadNetwork) (w : World)
: res World :=
let t := w_taxi w in
match schedule t with
| [] => Err IndexError
| schedule_node :: rest =>
    let t := set_schedule t rest in
    schedule_node ← deref schedule_node;
    ref ← (match w_query_set w !! sn_query_id schedule_node with
           | Some _ => Ok (sn_query_id schedule_node)
           | None => Err KeyError
           end);
    query ← getref (w_query_set w) ref;
    '(t, d, qs) ←
      (if is_origin schedule_node then
         if decide (status query = WAITING) then
           '(t', qs') ← serve_query t (w_query_set w) ref;
           d' ← add_serving_query (w_dispatcher w) query;
           Ok (t', d', qs')
         else
           sched' ← remove_first_of_query (query_id query) (schedule t);
           Ok (set_schedule t sched', w_dispatcher w, w_query_set w)
       else
         '(t', qs') ← satisfy_query t (w_query_set w) ref;
         Ok (t', add_completed_query (w_dispatcher w) query ref, qs'));
    t ← update_route fuel t rn (Some schedule_node);
    db ← update_taxi_list (w_database w) timestamp t (route t) rn;
    Ok (mkWorld t d qs db)
end.

(** [Taxi.drive]. *)
Definition drive (fuel : nat) (timestamp : Z) (rn : RoadNetwork) (w : World)
: res World :=
let t := w_taxi w in
match route_edges (route t) with
| None => Ok w
| Some _ =>
    let d := (speed t * TIME_STEP)%Q in
    let t := set_driving_distance t (driving_distance t + d)%Q in
    cur_edge ← deref (get_edge rn (e_id t));
    to_vertex ← deref (get_vertex rn (end_vid cur_edge));
    let to_location := vertex_location to_vertex in
    theta ← bearing (taxi_location t) to_location;
    next_pos ← end_pos (taxi_location t) theta d;
    e_start_vertex ← deref (get_vertex rn (start_vid cur_edge));
    edge_offset ← get_distance (vertex_location e_start_vertex) next_pos;
    if Qltb edge_offset (weight cur_edge) then
      '(t, db) ← update_pos t timestamp next_pos (w_database w);
      Ok (mkWorld t (w_dispatcher w) (w_query_set w) db)
    else
      '(t, db) ← update_pos t timestamp to_location (w_database w);
      e ← deref (get_edge rn (e_id t));
      let t := set_v_id t (Some (end_vid e)) in
      next_eid ← get_next_eid t;
      match next_eid with
      | Some _ =>
          i ← (match eid_index t with
               | Some i => Ok i
               | None => Err TypeError
               end);
          Ok (mkWorld (set_edge t next_eid (Some (i + 1)))
                (w_dispatcher w) (w_query_set w) db)
      | None =>
          arrive fuel timestamp rn
            (mkWorld t (w_dispatcher w) (w_query_set w) db)
      end
end.
End taxi_drive.

(** ** simulation.py *)

Record Simulation : Type := mkSimulation {
  road_network : RoadNetwork;
  db : SpatioTemporalDatabase;
  taxi_set : gmap Z Taxi;
  query_set : gmap Z Query;
  query_queue : list (Q * Z);
  dispatcher : Dispatcher
}.

(** [while not self.query_queue.empty()]: the queries of this
    timestamp move to the work queue.  Every pass removes an entry, so
    the length of the queue bounds the passes. *)
Fixpoint catch_new_queries (n : nat) (timestamp : Z) (query_set : gmap Z Query)
  (query_queue waiting : list (Q * Z)) : res (list (Q * Z) * list (Q * Z)) :=
  match pq_get query_queue with
  | None => Ok (query_queue, waiting)
  | Some (new_query, rest) =>
      q ← getref query_set new_query;
      if decide (q_timestamp q = timestamp) then
        match n with
        | O => Err OutOfFuel
        | S n' =>
            catch_new_queries n' timestamp query_set rest
              (pq_put waiting new_query (inject_Z (q_timestamp q)))
        end
      else Ok (pq_put rest new_query (inject_Z (q_timestamp q)), waiting)
  end.

(** [while not self.dispatcher.failed_queries.empty()]. *)
Fixpoint catch_failed_queries (query_set : gmap Z Query) (failed : list Z)
  (waiting : list (Q * Z)) : res (list (Q * Z)) :=
  match failed with
  | [] => Ok waiting
  | old_query :: failed' =>
      q ← getref query_set old_query;
      catch_failed_queries query_set failed'
        (pq_put waiting old_query (inject_Z (q_timestamp q)))
  end.

Definition set_failed_queries (d : Dispatcher) (f : list Z) : Dispatcher :=
  mkDispatcher f (waiting_queries d) (completed_queries d) (cancelled_queries d).

(** [for query in self.query_set.values()]. *)
Definition update_all_status (timestamp : Z) (query_set : gmap Z Query)
  : gmap Z Query :=
  (fun query =>
     if (q_timestamp query <=? timestamp) && bool_decide (status query = WAITING)
     then update_status query timestamp else query) <$> query_set.

Section simulation.
Context `{Geo}.

(** [while not waiting_queries.empty()]: dispatching puts nothing back
  into the work queue, whose length bounds the passes. *)
Fixpoint process_queries (n : nat) (fuel : nat) (timestamp : Z)
(rn : RoadNetwork) (database : SpatioTemporalDatabase)
(waiting : list (Q * Z))
(st : Dispatcher * gmap Z Taxi * gmap Z Query)
: res (Dispatcher * gmap Z Taxi * gmap Z Query) :=
match pq_get waiting with
| None => Ok st
| Some (ref, waiting') =>
    match n with
    | O => Err OutOfFuel
    | S n' =>
        let '(d, taxi_set, query_set) := st in
        query ← getref query_set ref;
        st' ← (if decide (status query = CANCELLED)
               then Ok (add_cancelled_query d query ref, taxi_set, query_set)
               else dispatch_taxi fuel d timestamp ref database taxi_set
                      query_set rn);
        process_queries n' fuel timestamp rn database waiting' st'
    end
end.

(** The body of [for taxi in self.taxi_set.values()]. *)
Definition drive_taxi (fuel : nat) (timestamp : Z) (rn : RoadNetwork)
(k : Z) (st : gmap Z Taxi * Dispatcher * gmap Z Query * SpatioTemporalDatabase)
: res (gmap Z Taxi * Dispatcher * gmap Z Query * SpatioTemporalDatabase) :=
let '(taxi_set, d, query_set, database) := st in
taxi ← getitem taxi_set k;
w ← drive fuel timestamp rn (mkWorld taxi d query_set database);
Ok (<[k := w_taxi w]> taxi_set, w_dispatcher w, w_query_set w, w_database w).

(** One pass of [for timestamp in range(SIM_START_TIME, SIM_END_TIME+1)]
  in [Simulation.run]. *)
Definition sim_step (fuel : nat) (timestamp : Z) (s : Simulation)
: res Simulation :=
'(query_queue', waiting) ←
  catch_new_queries (length (query_queue s)) timestamp (query_set s)
    (query_queue s) [];
waiting ← catch_failed_queries (query_set s)
            (failed_queries (dispatcher s)) waiting;
let d0 := set_failed_queries (dispatcher s) [] in
'(d1, taxi_set1, query_set1) ←
  process_queries (length waiting) fuel timestamp (road_network s) (db s)
    waiting (d0, taxi_set s, query_set s);
let query_set2 := update_all_status timestamp query_set1 in
'(taxi_set3, d3, query_set3, db3) ←
  foldM (drive_taxi fuel timestamp (road_network s))
    (map_to_list taxi_set1).*1 (taxi_set1, d1, query_set2, db s);
Ok (mkSimulation (road_network s) db3 taxi_set3 query_set3 query_queue' d3).

(** [for timestamp in range(start, start + n)]. *)
Fixpoint sim_run (fuel : nat) (n : nat) (timestamp : Z) (s : Simulation)
: res Simulation :=
match n with
| O => Ok s
| S n' =>
    s' ← sim_step fuel timestamp s;
    sim_run fuel n' (timestamp + 1) s'
end.
End simulation.

(** ** A concrete world

    Three vertices on the equator, where the great-circle distance of two
    points is the Earth's radius times the difference of their
    longitudes, 111195 metres per degree.  Vertices 1 and 2 lie 700 m
    apart in one geohash cell and vertex 3 lies in the next cell to the
    east; one taxi waits at vertex 2 and one query asks for a ride from
    vertex 1 to vertex 2. *)

Definition M_PER_DEG : Q := 111195.

Definition Qabs_diff (x y : Q) : Q :=
  if Qltb x y then (y - x)%Q else (x - y)%Q.

(** The interface [Geo] on the equator and on meridians: distances along
    a parallel or a meridian, the bearing of a point to the east (a
    positive angle, about pi/2) or to the west (its opposite), and the
    point reached along the equator. *)
Definition equator_geo : Geo := {|
  great_circle la1 lo1 la2 lo2 :=
    (M_PER_DEG * (Qabs_diff la1 la2 + Qabs_diff lo1 lo2))%Q;
  bearing_rad la1 lo1 la2 lo2 :=
    if Qltb lo1 lo2 then (11 # 7)%Q
    else if Qltb lo2 lo1 then (- (11 # 7))%Q else 0%Q;
  end_point la lo theta d :=
    (la, if Qltb 0 theta then Qred (lo + d / M_PER_DEG)%Q
         else if Qltb theta 0 then Qred (lo - d / M_PER_DEG)%Q else lo)
|}.

Definition from_res {A} (default : A) (r : res A) : A :=
  match r with
  | Ok a => a
  | Err _ => default
  end.

Definition ex_lon1 : Q := (1 # 1000)%Q.
Definition ex_lon2 : Q := Qred (ex_lon1 + 700 / M_PER_DEG)%Q.
Definition ex_lon3 : Q := (50 # 1000)%Q.

Definition ex_rn_build : res RoadNetwork :=
  let rn := add_vertex RoadNetwork_init 1 (Some 0%Q) (Some ex_lon1) in
  let rn := add_vertex rn 2 (Some 0%Q) (Some ex_lon2) in
  let rn := add_vertex rn 3 (Some 0%Q) (Some ex_lon3) in
  rn ← add_edge rn 1 1 2 700%Q;
  rn ← add_edge rn 2 2 1 700%Q;
  add_edge rn 3 2 3 (Qred (M_PER_DEG * (ex_lon3 - ex_lon2)))%Q.

Definition ex_rn : RoadNetwork := from_res RoadNetwork_init ex_rn_build.

(** The content of the pickled distance matrix. *)
Definition ex_matrix : gmap string (gmap string MatrixCell) :=
  {[ "kpbpb" := {[ "kpbpb" := mkMatrixCell 0 0;
                   "kpbpc" := mkMatrixCell 5226 800 ]};
     "kpbpc" := {[ "kpbpb" := mkMatrixCell 5226 746;
                   "kpbpc" := mkMatrixCell 0 0 ]} ]}.

Definition ex_start : Z := 32401.    (* sim_time_convert("09:00:00") *)

Definition ex_taxi : Taxi :=
  set_v_id (Taxi_init 1 (Location_init (Some 0%Q) (Some ex_lon2))) (Some 2).

Definition ex_taxi_set : gmap Z Taxi := {[ 1 := ex_taxi ]}.

Definition ex_loaded_build : res SpatioTemporalDatabase :=
  load_road_network Database_init ex_rn.

Definition ex_loaded : SpatioTemporalDatabase :=
  from_res Database_init ex_loaded_build.

Definition ex_db_build : res SpatioTemporalDatabase :=
  database ← init_static_info (H := equator_geo) ex_loaded ex_rn ex_matrix;
  init_dynamic_info database ex_taxi_set ex_start.

Definition ex_db : SpatioTemporalDatabase := from_res Database_init ex_db_build.

Definition ex_query : Query :=
  Query_init 0 ex_start (Location_init (Some 0%Q) (Some ex_lon1))
    (Location_init (Some 0%Q) (Some ex_lon2)).

Definition ex_query_queue : list (Q * Z) := pq_put [] 0 (inject_Z ex_start).

Definition ex_query_set_build : res (gmap Z Query) :=
  init_schedule_node (H := equator_geo) ex_query_queue ex_rn ex_db
    {[ 0 := ex_query ]}.

Definition ex_query_set : gmap Z Query := from_res ∅ ex_query_set_build.

Definition ex_sim : Simulation :=
  mkSimulation ex_rn ex_db ex_taxi_set ex_query_set ex_query_queue
    Dispatcher_init.

(** A point whose geohash cell holds no vertex of [ex_rn]. *)
Definition ex_nowhere : Location := Location_init (Some 10%Q) (Some 10%Q).

(** A taxi that stands at vertex 2, the end of the one edge of its
    route, with the destination node of query 0 at the head of its
    schedule and the query among its [serving_queries], while the status
    of the query in [ex_query_set] is still [WAITING]. *)
Definition ex_taxi_arriving : Taxi :=
  mkTaxi 1 AVERAGE_SPEED TAXI_CAPACITY
    (Location_init (Some 0%Q) (Some ex_lon2))
    (geo_encode (Some 0%Q) (Some ex_lon2) PRECISION)
    1 [Some (mkScheduleNode 0 false (Some 2))]
    (Some (mkPath [1; 2] [Some 1] 700%Q)) {[ 0 := 0 ]}
    (Some 1) (Some 1) (Some 0) 0%Q.

Definition ex_world_arriving : World :=
  mkWorld ex_taxi_arriving Dispatcher_init ex_query_set ex_db.

(** ** Vocabulary of the statements on paths *)

(** [v] is a neighbour of [u] in the adjacency maps. *)
Definition road_edge (rn : RoadNetwork) (u v : Z) : Prop :=
  exists vx, vertex_set rn !! u = Some vx /\ is_Some (connected_to vx !! v).

Definition reachable (rn : RoadNetwork) (s_vid e_vid : Z) : Prop :=
  rtc (road_edge rn) s_vid e_vid.

Definition empty_path : Path := mkPath [] [] 0%Q.

(** A walk along edges of the network, with the sum of their weights
    (up to equality of rationals). *)
Inductive walk (rn : RoadNetwork) : Z -> Z -> Q -> Prop :=
| walk_nil u c : (c == 0)%Q -> walk rn u u c
| walk_step u m v c w c' :
    walk rn u m c -> get_weight rn m v = Ok w -> (c' == c + w)%Q ->
    walk rn u v c'.

(** Every edge of the network has a non-negative weight. *)
Definition nonneg_weights (rn : RoadNetwork) : Prop :=
  forall e_id e, edge_set rn !! e_id = Some e -> (0 <= weight e)%Q.

(** The sum of the weights of the edges of an edge list. *)
Fixpoint edge_weight_sum (rn : RoadNetwork) (e_list : list (option Z)) (acc : Q)
  : option Q :=
  match e_list with
  | [] => Some acc
  | e_id :: rest =>
      match get_edge rn e_id with
      | Some e => edge_weight_sum rn rest (acc + weight e)%Q
      | None => None
      end
  end.

(** Consecutive vertices of the list are linked by [came_from]. *)
Fixpoint linked (came_from : gmap Z (option Z)) (l : list Z) : Prop :=
  match l with
  | u :: (v :: _) as rest => came_from !! v = Some (Some u) /\ linked came_from rest
  | _ => True
  end.

(** The heuristic never exceeds the weight of a walk to the target, and
    is not negative. *)
Definition admissible (rn : RoadNetwork) (e_vid : Z) (hf : Z -> Q) : Prop :=
  forall u, (0 <= hf u)%Q /\ forall r, walk rn u e_vid r -> (hf u <= r)%Q.

Section heuristic.
Context `{Geo}.

(** The heuristic of [get_shortest_path]: the straight-line distance of
  a vertex to the target (0 where it is not defined). *)
Definition straight_line (rn : RoadNetwork) (e_vid : Z) (n : Z) : Q :=
from_res 0%Q (get_straight_distance rn n e_vid).
End heuristic.

(** A network whose edge weights are shorter than the straight lines:
    vertices 1 and 2 are neighbours on the equator, vertex 3 lies one
    degree of longitude (about 111 km) to the east; the edge from 1 to 2
    weighs 10, the edges from 1 to 3 and from 3 to 2 weigh 1 each. *)
Definition short_rn_build : res RoadNetwork :=
  let rn := add_vertex RoadNetwork_init 1 (Some 0%Q) (Some (1 # 1000)%Q) in
  let rn := add_vertex rn 2 (Some 0%Q) (Some (2 # 1000)%Q) in
  let rn := add_vertex rn 3 (Some 0%Q) (Some (1001 # 1000)%Q) in
  rn ← add_edge rn 1 1 2 10%Q;
  rn ← add_edge rn 2 1 3 1%Q;
  add_edge rn 3 3 2 1%Q.

Definition short_rn : RoadNetwork := from_res RoadNetwork_init short_rn_build.

(** ** Vocabulary of the statements on a simulation run *)

(** What a taxi carries: capacity, riders, schedule and the queries it
    serves.  Moving and routing leave it alone. *)
Definition cargo (t : Taxi)
  : Z * Z * list (option ScheduleNode) * gmap Z Z :=
  (capacity t, num_riders t, schedule t, serving_queries t).

(** A schedule made of the two nodes of one query after the other,
    origin first. *)
Inductive paired : list (option ScheduleNode) -> Prop :=
| paired_nil : paired []
| paired_cons q vo vd rest :
    paired rest ->
    paired (Some (mkScheduleNode q true vo)
              :: Some (mkScheduleNode q false vd) :: rest).

(** The query whose destination node heads the schedule. *)
Definition riding_head (t : Taxi) : option Z :=
  match schedule t with
  | Some node :: _ => if is_origin node then None else Some (sn_query_id node)
  | _ => None
  end.

(** A query object as [load_query] and [init_schedule_node] leave it:
    stored under its id, with its two schedule nodes. *)
Definition well_formed_query (k : Z) (q : Query) : Prop :=
  query_id q = k
  /\ (exists vo, o_schedule_node q = Some (mkScheduleNode k true vo))
  /\ (exists vd, d_schedule_node q = Some (mkScheduleNode k false vd)).

Definition well_formed_queries (qs : gmap Z Query) : Prop :=
  forall k q, qs !! k = Some q -> well_formed_query k q.

(** A taxi between two rides, or on a ride with query [q]. *)
Definition taxi_state_ok (qs : gmap Z Query) (t : Taxi) : Prop :=
  match riding_head t with
  | None =>
      paired (schedule t) /\ serving_queries t = ∅ /\ num_riders t = 0
  | Some q =>
      paired (tail (schedule t))
      /\ serving_queries t = {[q := q]} /\ num_riders t = 1
      /\ status <$> qs !! q = Some RIDING
  end.

Definition fleet_inv (ts : gmap Z Taxi) (qs : gmap Z Query) : Prop :=
  well_formed_queries qs
  /\ (forall k t, ts !! k = Some t -> 1 <= capacity t /\ taxi_state_ok qs t)
  /\ (forall k1 k2 t1 t2 q,
        ts !! k1 = Some t1 -> ts !! k2 = Some t2 ->
        riding_head t1 = Some q -> riding_head t2 = Some q -> k1 = k2).

(** A taxi as [gen_taxi] makes it. *)
Definition fresh_taxi (t : Taxi) : Prop :=
  cargo t = (TAXI_CAPACITY, 0, [], ∅).

(** The state in which [Simulation.__init__] leaves the taxis and the
    queries. *)
Definition sim_initial (s : Simulation) : Prop :=
  (forall k t, taxi_set s !! k = Some t -> fresh_taxi t)
  /\ well_formed_queries (query_set s).

(** The moves of the status of a query. *)
Inductive lifecycle : Status -> Status -> Prop :=
| life_ride : lifecycle WAITING RIDING
| life_cancel : lifecycle WAITING CANCELLED
| life_satisfy : lifecycle RIDING SATISFIED.

(** The statuses of [qs'] are those of [qs], or one move further. *)
Definition statuses_advance (qs qs' : gmap Z Query) : Prop :=
  forall k q, qs !! k = Some q ->
    exists q', qs' !! k = Some q'
               /\ (status q' = status q \/ lifecycle (status q) (status q')).

Section run.
Context `{Geo}.

(** The states of a run of [Simulation.run]. *)
Inductive sim_reachable (fuel : nat) : Simulation -> Prop :=
| reach_initial s : sim_initial s -> sim_reachable fuel s
| reach_step s timestamp s' :
  sim_reachable fuel s -> sim_step fuel timestamp s = Ok s' ->
  sim_reachable fuel s'.
End run.

(** What one call of [Taxi.drive] does to the cargo of the taxi and to
    the query set: nothing, a pick-up, the removal of the destination
    node of a query that is not picked up, or a drop-off. *)
Inductive drive_outcome (t : Taxi) (qs : gmap Z Query) (t' : Taxi)
  (qs' : gmap Z Query) : Prop :=
| drive_moves :
    cargo t' = cargo t -> qs' = qs -> drive_outcome t qs t' qs'
| drive_picks_up node rest query :
    schedule t = Some node :: rest -> is_origin node = true ->
    qs !! sn_query_id node = Some query -> status query = WAITING ->
    cargo t' = (capacity t, num_riders t + 1, rest,
                <[query_id query := sn_query_id node]> (serving_queries t)) ->
    qs' = <[sn_query_id node := set_status query RIDING]> qs ->
    drive_outcome t qs t' qs'
| drive_skips node rest query sched' :
    schedule t = Some node :: rest -> is_origin node = true ->
    qs !! sn_query_id node = Some query -> status query <> WAITING ->
    remove_first_of_query (query_id query) rest = Ok sched' ->
    cargo t' = (capacity t, num_riders t, sched', serving_queries t) ->
    qs' = qs ->
    drive_outcome t qs t' qs'
| drive_drops_off node rest query :
    schedule t = Some node :: rest -> is_origin node = false ->
    qs !! sn_query_id node = Some query ->
    is_Some (serving_queries t !! query_id query) ->
    cargo t' = (capacity t, num_riders t - 1, rest,
                delete (query_id query) (serving_queries t)) ->
    qs' = <[sn_query_id node := set_status query SATISFIED]> qs ->
    drive_outcome t qs t' qs'.

(** The position of a status in the life of a query. *)
Definition stage (st : Status) : nat :=
  match st with
  | WAITING => 0
  | RIDING => 1
  | CANCELLED => 2
  | SATISFIED => 2
  end.

(** The queries have the same statuses in both query sets. *)
Definition same_status (qs qs' : gmap Z Query) : Prop :=
  forall k, status <$> qs' !! k = status <$> qs !! k.

(** While the taxis drive one after the other: the invariant holds, the
    statuses are those of the start of the timestep or one move further,
    and a query whose status has moved does not head the schedule of a
    taxi that has still to drive. *)
Definition driving_inv (qs0 : gmap Z Query) (processed : list Z)
  (st : gmap Z Taxi * Dispatcher * gmap Z Query * SpatioTemporalDatabase)
  : Prop :=
  fleet_inv st.1.1.1 st.1.2
  /\ statuses_advance qs0 st.1.2
  /\ forall j q0 q, qs0 !! j = Some q0 -> st.1.2 !! j = Some q ->
       status q <> status q0 ->
       forall k t, k ∉ processed -> st.1.1.1 !! k = Some t ->
                   riding_head t <> Some j.

(** The concrete world after [n] timesteps from [ex_start]. *)
Definition ex_sim_after (n : nat) : Simulation :=
  from_res ex_sim (sim_run (H := equator_geo) 10 n ex_start ex_sim).

(** ** road_network.py: [is_reachable] *)

(** [while not frontier.empty()] of [is_reachable]: the loop of [bfs],
    which returns [True] where [bfs] breaks and [False] when the
    frontier runs empty. *)
Fixpoint is_reachable_loop (fuel : nat) (rn : RoadNetwork) (e_vid : Z)
  (frontier : list Z) (came_from : gmap Z (option Z)) : res bool :=
  match Queue_get frontier with
  | None => Ok false
  | Some (current, frontier') =>
      if decide (current = e_vid) then Ok true
      else match fuel with
           | O => Err OutOfFuel
           | S fuel' =>
               nbrs ← get_neighbors rn current;
               let '(frontier'', came_from') :=
                 foldl (fun st n => bfs_visit current n st)
                   (frontier', came_from) nbrs in
               is_reachable_loop fuel' rn e_vid frontier'' came_from'
           end
  end.

Definition is_reachable (fuel : nat) (rn : RoadNetwork) (s_vid e_vid : Z)
  : res bool :=
  is_reachable_loop fuel rn e_vid (Queue_put [] s_vid) {[s_vid := None]}.

(** Every neighbour recorded at a vertex is a vertex of the network, as
    in every network built by [add_vertex] and [add_edge]. *)
Definition neighbors_are_vertices (rn : RoadNetwork) : Prop :=
  forall u v, road_edge rn u v -> is_Some (vertex_set rn !! v).
(** The networks that [RoadNetwork()], [add_vertex] and [add_edge]
    build. *)
Inductive built : RoadNetwork -> Prop :=
| built_init : built RoadNetwork_init
| built_add_vertex rn v_id lat lon :
    built rn -> built (add_vertex rn v_id lat lon)
| built_add_edge rn e_id start_vid end_vid weight rn' :
    built rn -> add_edge rn e_id start_vid end_vid weight = Ok rn' ->
    built rn'.

(** The counter and the keys of the vertex set agree with its content,
    and every adjacency entry names a vertex and an edge. *)
Definition vertex_set_ok (rn : RoadNetwork) : Prop :=
  num_vertex rn = Z.of_nat (size (vertex_set rn))
  /\ (forall k vx, vertex_set rn !! k = Some vx -> vertex_id vx = k)
  /\ (forall u vx v e,
        vertex_set rn !! u = Some vx -> connected_to vx !! v = Some e ->
        is_Some (vertex_set rn !! v) /\ is_Some (edge_set rn !! e)).

Definition edge_set_ok (rn : RoadNetwork) : Prop :=
  num_edge rn = Z.of_nat (size (edge_set rn))
  /\ (forall k e, edge_set rn !! k = Some e -> edge_id e = k).

(** ** Vocabulary of the statements on the index *)

(** What [load_road_network] leaves in every cell besides its vertices. *)
Definition fresh_cells (database : SpatioTemporalDatabase) : Prop :=
  num_grid database = Z.of_nat (size (grid database))
  /\ forall g c, grid database !! g = Some c ->
       cell_geohash c = g /\ anchor c = None /\ taxi_list c = ∅
       /\ spatial_grid_list c = [] /\ temporal_grid_list c = [].

Section closest.
Context `{Geo}.

(** The distance from the vertex [v_id] to [target] is [d]. *)
Definition distance_to (rn : RoadNetwork) (target : Location) (v_id : Z) (d : Q)
: Prop :=
exists vx, vertex_set rn !! v_id = Some vx
           /\ get_distance (vertex_location vx) target = Ok d.

(** [r] is a vertex of [vs] that no vertex of [vs] is closer to [target]
  than, or [None] when [vs] is empty. *)
Definition closest_in (rn : RoadNetwork) (target : Location) (vs : gset Z)
(r : option Z) : Prop :=
match r with
| Some v =>
    v ∈ vs
    /\ exists d, distance_to rn target v d
                 /\ forall u du, u ∈ vs -> distance_to rn target u du -> (d <= du)%Q
| None => vs = ∅
end.
End closest.

(* ================================================================== *)
(** * Properties *)

(** ** road_network.py *)

(** C9: [add_vertex] on an id that is already present stores a fresh
    vertex with an empty adjacency map in its place, keeps every edge
    object of [edge_set] and every other vertex, and leaves both counters
    unchanged. *)
Theorem add_vertex_existing_resets_adjacency
  (rn : RoadNetwork) (v_id : Z) (la lo : option Q) (old : Vertex) :
  vertex_set rn !! v_id = Some old ->
  let rn' := add_vertex rn v_id la lo in
  vertex_set rn' !! v_id = Some (mkVertex v_id (Location_init la lo) ∅)
  /\ (forall nbr, connected_to old !! nbr <> None ->
        exists v', vertex_set rn' !! v_id = Some v' /\ connected_to v' !! nbr = None)
  /\ edge_set rn' = edge_set rn
  /\ num_vertex rn' = num_vertex rn
  /\ num_edge rn' = num_edge rn
  /\ (forall u, u <> v_id -> vertex_set rn' !! u = vertex_set rn !! u).
Proof.
  intros Hold rn'. subst rn'. unfold add_vertex, Vertex_init. simpl.
  rewrite lookup_insert_eq.
  split; [done|]. split.
  { intros nbr _. eexists. split; [done|]. simpl. apply lookup_empty. }
  split; [done|]. split.
  { destruct (decide (is_Some (vertex_set rn !! v_id))) as [|n]; [done|].
    exfalso. apply n. by eexists. }
  split; [done|].
  intros u Hu. by rewrite lookup_insert_ne.
Qed.

(** ** Rational comparison and the outcome monad *)

Lemma Qltb_lt (a b : Q) : Qltb a b = true <-> (a < b)%Q.
Proof. unfold Qltb, Qlt. apply Z.ltb_lt. Qed.

Lemma Qltb_ge (a b : Q) : Qltb a b = false <-> (b <= a)%Q.
Proof. unfold Qltb, Qle. rewrite Z.ltb_ge. reflexivity. Qed.

Lemma bind_Ok {A B} (m : res A) (f : A -> res B) (b : B) :
  m ≫= f = Ok b -> exists a, m = Ok a /\ f a = Ok b.
Proof. destruct m as [a|e]; simpl; [eauto | discriminate]. Qed.

(** Inverts a hypothesis [x ← m; k = Ok r]. *)
Tactic Notation "inv_bind" hyp(H) :=
  let a := fresh "a" in
  let Ha := fresh "Ha" in
  apply bind_Ok in H; destruct H as (a & Ha & H).

Tactic Notation "inv_bind" hyp(H) "as" ident(a) ident(Ha) :=
  apply bind_Ok in H; destruct H as (a & Ha & H).

Lemma getitem_Ok `{Countable K} {V} (d : gmap K V) k v :
  getitem d k = Ok v <-> d !! k = Some v.
Proof. unfold getitem. destruct (d !! k); split; congruence. Qed.

Lemma deref_Ok {A} (o : option A) a : deref o = Ok a <-> o = Some a.
Proof. destruct o; simpl; split; congruence. Qed.

Lemma getref_Ok qs ref q : getref qs ref = Ok q <-> qs !! ref = Some q.
Proof. unfold getref. destruct (qs !! ref); split; congruence. Qed.

Lemma dict_pop_Ok `{Countable K} {V} (d d' : gmap K V) k :
  dict_pop d k = Ok d' <-> is_Some (d !! k) /\ d' = delete k d.
Proof.
  unfold dict_pop. destruct (d !! k) eqn:E; split.
  - intros [= <-]. eauto.
  - intros [_ ->]. done.
  - discriminate.
  - intros [[? ?] _]. discriminate.
Qed.

(** ** dispatcher.py: the candidate search *)

Lemma elem_of_scan_taxi_list (t_ij : Q) (pickup_late : Z) (tl : gmap Z Q) taxi_id :
  taxi_id ∈ scan_taxi_list t_ij pickup_late tl <->
  exists eta, tl !! taxi_id = Some eta /\ (t_ij + eta <= inject_Z pickup_late)%Q.
Proof.
  unfold scan_taxi_list. rewrite list_elem_of_fmap. split.
  - intros ([k eta] & -> & Hin). apply list_elem_of_filter in Hin as [Hp Hin].
    apply elem_of_map_to_list in Hin. exists eta. split; [done|].
    apply Qltb_ge. simpl in Hp. by destruct (Qltb _ _).
  - intros (eta & Hl & Hle). exists (taxi_id, eta). split; [done|].
    apply list_elem_of_filter. split; [|by apply elem_of_map_to_list].
    simpl. apply Qltb_ge in Hle. by rewrite Hle.
Qed.

(** The candidates gathered from the cells of [items], each with the
    taxis of its cell that pass the time test. *)
Definition gathered (pickup_late : Z) (items : list (string * Q))
  (cells : list GridCell) : list Z :=
  concat (zip_with (fun item c => scan_taxi_list item.2 pickup_late (taxi_list c))
            items cells).

Lemma single_side_walk_spec timestamp pickup_late database items acc l :
  single_side_walk timestamp pickup_late database items acc = Ok l ->
  exists walked rest cells,
    items = walked ++ rest
    /\ Forall (fun item => (item.2 + inject_Z timestamp <= inject_Z pickup_late)%Q) walked
    /\ match rest with
       | [] => True
       | item :: _ => (inject_Z pickup_late < item.2 + inject_Z timestamp)%Q
       end
    /\ Forall2 (fun item c => grid database !! item.1 = Some c) walked cells
    /\ l = acc ++ gathered pickup_late walked cells.
Proof.
  revert acc. induction items as [|item items IH]; intros acc Hw; simpl in Hw.
  - injection Hw as <-. exists [], [], [].
    split; [done|]. split; [by apply Forall_nil|]. split; [done|].
    split; [by apply Forall2_nil|]. unfold gathered. simpl. by rewrite app_nil_r.
  - destruct (Qltb _ _) eqn:Hlt.
    + injection Hw as <-. exists [], (item :: items), [].
      apply Qltb_lt in Hlt.
      split; [done|]. split; [by apply Forall_nil|]. split; [done|].
      split; [by apply Forall2_nil|]. unfold gathered. simpl. by rewrite app_nil_r.
    + inv_bind Hw. apply getitem_Ok in Ha.
      apply IH in Hw as (walked & rest & cells & -> & Hall & Hrest & Hcells & ->).
      exists (item :: walked), rest, (a :: cells). apply Qltb_ge in Hlt.
      split; [done|]. split; [by apply Forall_cons|]. split; [done|].
      split; [by apply Forall2_cons|].
      unfold gathered. simpl. by rewrite app_assoc.
Qed.

Lemma elem_of_gathered pickup_late items cells database taxi_id :
  Forall2 (fun item c => grid database !! item.1 = Some c) items cells ->
  taxi_id ∈ gathered pickup_late items cells <->
  exists item c eta,
    item ∈ items /\ grid database !! item.1 = Some c
    /\ taxi_list c !! taxi_id = Some eta
    /\ (item.2 + eta <= inject_Z pickup_late)%Q.
Proof.
  unfold gathered. induction 1 as [|item c items cells Hc _ IH]; simpl.
  - split; [by intros ?%elem_of_nil | by intros (? & ? & ? & ?%elem_of_nil & _)].
  - rewrite elem_of_app, IH, elem_of_scan_taxi_list. split.
    + intros [(eta & ? & ?) | (item' & c' & eta & ? & ? & ? & ?)].
      * exists item, c, eta. rewrite elem_of_cons. auto.
      * exists item', c', eta. rewrite elem_of_cons. auto.
    + intros (item' & c' & eta & Hin & Hg & Hl & Hle).
      apply elem_of_cons in Hin as [-> | Hin].
      * left. exists eta. split; [congruence | done].
      * right. exists item', c', eta. auto.
Qed.

(** Temporal distances in ascending order. *)
Definition ascending (items : list (string * Q)) : Prop :=
  StronglySorted (fun a b : string * Q => (a.2 <= b.2)%Q) items.

Lemma ascending_suffix (walked rest : list (string * Q)) :
  ascending (walked ++ rest) -> ascending rest.
Proof.
  unfold ascending. induction walked as [|x walked IH]; simpl; [done|].
  intros Hs. apply StronglySorted_inv in Hs as [Hs _]. auto.
Qed.

(** C3: the single-side search walks the origin cell's
    [temporal_grid_list] in list order, stops at the first entry with
    [t_ij + timestamp > pickup_window.late], and returns, for the entries
    before it, exactly the taxi ids registered in the entry's cell with
    [t_ij + eta <= pickup_window.late].  When the list is in ascending
    order of temporal distance, every entry from the stopping point on
    exceeds the window as well. *)
Theorem single_side_search_walks_prefix
  (timestamp : Z) (query : Query) (database : SpatioTemporalDatabase)
  (candidates : list Z) :
  single_side_search timestamp query database = Ok candidates ->
  let pickup_late := inject_Z (late (pickup_window query)) in
  exists origin_cell walked rest,
    grid database !! o_geohash query = Some origin_cell
    /\ temporal_grid_list origin_cell = walked ++ rest
    /\ Forall (fun item => (item.2 + inject_Z timestamp <= pickup_late)%Q) walked
    /\ match rest with
       | [] => True
       | item :: _ => (pickup_late < item.2 + inject_Z timestamp)%Q
       end
    /\ (forall taxi_id,
          taxi_id ∈ candidates <->
          exists item c eta,
            item ∈ walked /\ grid database !! item.1 = Some c
            /\ taxi_list c !! taxi_id = Some eta
            /\ (item.2 + eta <= pickup_late)%Q)
    /\ (ascending (temporal_grid_list origin_cell) ->
        Forall (fun item => (pickup_late < item.2 + inject_Z timestamp)%Q) rest).
Proof.
  intros Hs pickup_late. unfold single_side_search in Hs.
  inv_bind Hs. apply getitem_Ok in Ha.
  apply single_side_walk_spec in Hs
    as (walked & rest & cells & Hsplit & Hall & Hrest & Hcells & ->).
  exists a, walked, rest. repeat split; try done.
  - intros Hin. simpl in Hin. by apply (elem_of_gathered _ _ _ database) in Hin.
  - intros Hex. simpl. by apply (elem_of_gathered _ _ _ database).
  - rewrite Hsplit. intros Hsorted. destruct rest as [|item rest]; [constructor|].
    apply ascending_suffix in Hsorted.
    apply StronglySorted_inv in Hsorted as [_ Hle].
    constructor; [done|].
    eapply Forall_impl; [exact Hle|]. simpl. intros b Hb.
    subst pickup_late. lra.
Qed.

(** ** Loops in the outcome monad *)

(** A property of the processed prefix and the state is carried through
    a [foldM]. *)
Lemma foldM_invariant {A S} (f : A -> S -> res S) (P : list A -> S -> Prop)
  (l : list A) (s s' : S) :
  P [] s ->
  (forall processed x s1 s2,
      P processed s1 -> x ∈ l -> f x s1 = Ok s2 -> P (processed ++ [x]) s2) ->
  foldM f l s = Ok s' ->
  P l s'.
Proof.
  intros Hinit Hstep.
  assert (Hgen : forall todo processed s1,
             (forall x, x ∈ todo -> x ∈ l) -> P processed s1 ->
             foldM f todo s1 = Ok s' -> P (processed ++ todo) s').
  { induction todo as [|x todo IH]; intros processed s1 Hsub HP Hf; simpl in Hf.
    - injection Hf as <-. by rewrite app_nil_r.
    - inv_bind Hf.
      replace (processed ++ x :: todo) with ((processed ++ [x]) ++ todo)
        by (by rewrite <- app_assoc).
      apply (IH _ a); [| |done].
      + intros y Hy. apply Hsub. by apply elem_of_cons; right.
      + eapply Hstep; [done| |done]. apply Hsub. by apply elem_of_cons; left. }
  intros Hf. apply (Hgen l [] s); [done|done|done].
Qed.

(** ** spatio_temporal_index.py: the cells of a loaded road network *)

Definition vertex_geohash (rn : RoadNetwork) (v_id : Z) : option string :=
  (fun v => loc_geohash (vertex_location v)) <$> vertex_set rn !! v_id.

(** The cells are those of the vertices seen so far, each holding exactly
    its vertices. *)
Definition cells_cover (rn : RoadNetwork) (seen : list Z)
  (database : SpatioTemporalDatabase) : Prop :=
  forall g,
    match grid database !! g with
    | Some c =>
        (exists v, v ∈ cell_vertex_list c)
        /\ forall v, v ∈ cell_vertex_list c <-> v ∈ seen /\ vertex_geohash rn v = Some g
    | None => forall v, v ∈ seen -> vertex_geohash rn v <> Some g
    end.

Lemma load_vertex_cover rn seen v_id database database' :
  cells_cover rn seen database ->
  load_vertex rn v_id database = Ok database' ->
  cells_cover rn (seen ++ [v_id]) database'.
Proof.
  intros Hcov Hload. unfold load_vertex in Hload.
  inv_bind Hload. apply deref_Ok in Ha. unfold get_vertex in Ha.
  assert (Hgeo : vertex_geohash rn v_id = Some (loc_geohash (vertex_location a)))
    by (unfold vertex_geohash; by rewrite Ha).
  set (gh := loc_geohash (vertex_location a)) in *.
  destruct (grid database !! gh) as [c|] eqn:Hc.
  - injection Hload as <-. intros g. simpl.
    destruct (decide (gh = g)) as [<-|Hne].
    + rewrite lookup_insert_eq. simpl. pose proof (Hcov gh) as Hg.
      rewrite Hc in Hg. destruct Hg as [_ Hg]. split.
      * exists v_id. apply elem_of_union. left. by apply elem_of_singleton.
      * intros v. rewrite elem_of_union, elem_of_singleton, Hg, elem_of_app,
          list_elem_of_singleton.
        split; [intros [->|[? ?]]; auto | intros [[?| ->] ?]; auto].
    + rewrite lookup_insert_ne by done. pose proof (Hcov g) as Hg.
      destruct (grid database !! g) as [c'|].
      * destruct Hg as [Hne' Hg]. split; [done|]. intros v.
        rewrite Hg, elem_of_app, list_elem_of_singleton.
        split; [intros [? ?]; auto | intros [[?| ->] ?]; [auto | congruence]].
      * intros v Hv. apply elem_of_app in Hv as [Hv| ->%list_elem_of_singleton].
        -- by apply Hg.
        -- congruence.
  - inv_bind Hload. injection Hload as <-. intros g. simpl.
    unfold GridCell_init in Ha0. inv_bind Ha0. destruct a1 as [la lo].
    injection Ha0 as <-. simpl.
    destruct (decide (gh = g)) as [<-|Hne].
    + rewrite lookup_insert_eq. simpl. pose proof (Hcov gh) as Hg.
      rewrite Hc in Hg. split.
      * exists v_id. apply elem_of_union. left. by apply elem_of_singleton.
      * intros v. rewrite elem_of_union, elem_of_singleton, elem_of_app,
          list_elem_of_singleton.
        split.
        -- intros [->|Hin]; [auto | set_solver].
        -- intros [[Hin| ->] Hv]; [by apply Hg in Hin | auto].
    + rewrite lookup_insert_ne by done. pose proof (Hcov g) as Hg.
      destruct (grid database !! g) as [c'|].
      * destruct Hg as [Hne' Hg]. split; [done|]. intros v.
        rewrite Hg, elem_of_app, list_elem_of_singleton.
        split; [intros [? ?]; auto | intros [[?| ->] ?]; [auto | congruence]].
      * intros v Hv. apply elem_of_app in Hv as [Hv| ->%list_elem_of_singleton].
        -- by apply Hg.
        -- congruence.
Qed.

Lemma load_road_network_cover rn database :
  load_road_network Database_init rn = Ok database ->
  cells_cover rn (map_to_list (vertex_set rn)).*1 database.
Proof.
  unfold load_road_network.
  apply (foldM_invariant _ (cells_cover rn)).
  - intros g. simpl. rewrite lookup_empty. by intros v ?%elem_of_nil.
  - intros processed x s1 s2 Hcov _ Hload. by eapply load_vertex_cover.
Qed.

(** The keys of the grid of a freshly loaded road network are the
    geohashes of its vertices. *)
Lemma load_road_network_keys rn database g :
  load_road_network Database_init rn = Ok database ->
  is_Some (grid database !! g) <->
  exists v_id v, vertex_set rn !! v_id = Some v
                 /\ loc_geohash (vertex_location v) = g.
Proof.
  intros Hload. apply load_road_network_cover in Hload. specialize (Hload g).
  assert (Hseen : forall v_id, v_id ∈ (map_to_list (vertex_set rn)).*1 <->
                               is_Some (vertex_set rn !! v_id)).
  { intros v_id. rewrite list_elem_of_fmap. split.
    - intros ([k v] & -> & Hin). apply elem_of_map_to_list in Hin. by eexists.
    - intros [v Hv]. exists (v_id, v). split; [done|].
      by apply elem_of_map_to_list. }
  destruct (grid database !! g) as [c|]; split.
  - intros _. destruct Hload as [[v Hv] Hc]. apply Hc in Hv as [_ Hv].
    unfold vertex_geohash in Hv. destruct (vertex_set rn !! v) as [vx|] eqn:E;
      [|discriminate].
    injection Hv as <-. eauto.
  - by eauto.
  - by intros [? ?].
  - intros (v_id & v & Hv & <-). exfalso. apply (Hload v_id).
    + apply Hseen. by eexists.
    + unfold vertex_geohash. by rewrite Hv.
Qed.

(** ** taxi.py: crossing a cell boundary *)


(** ** The concrete world is well built *)

Lemma ex_rn_built : ex_rn_build = Ok ex_rn.
Proof. vm_compute. reflexivity. Qed.

Lemma ex_loaded_built : load_road_network Database_init ex_rn = Ok ex_loaded.
Proof. vm_compute. reflexivity. Qed.

Lemma ex_db_built : ex_db_build = Ok ex_db.
Proof. vm_compute. reflexivity. Qed.

Lemma ex_query_set_built : ex_query_set_build = Ok ex_query_set.
Proof. vm_compute. reflexivity. Qed.

(** ** routing.py: map matching *)

Section map_match_facts.
Context `{Geo}.

(** C5, as amended.  When the endpoint's geohash is a key of
  [database.grid] and the cell's [vertex_list] is empty, [map_match]
  returns a node whose matched vertex id is none.  When the geohash
  is not a key, the lookup raises [KeyError]; this is the case of
  every endpoint whose cell holds no vertex when the grid was built
  by [load_road_network], and the query's schedule nodes are then
  not built either. *)
Theorem map_match_vertex_free_cell
(query_id : Z) (location : Location) (is_origin : bool)
(rn : RoadNetwork) (database : SpatioTemporalDatabase) :
(forall c, grid database !! loc_geohash location = Some c ->
           cell_vertex_list c = ∅ ->
           map_match query_id location is_origin rn database
           = Ok (mkScheduleNode query_id is_origin None))
/\ (grid database !! loc_geohash location = None ->
    map_match query_id location is_origin rn database = Err KeyError)
/\ (load_road_network Database_init rn = Ok database ->
    (forall v_id v, vertex_set rn !! v_id = Some v ->
                    loc_geohash (vertex_location v) <> loc_geohash location) ->
    map_match query_id location is_origin rn database = Err KeyError
    /\ forall q, origin q = location ->
                 Query_init_schedule_node q rn database = Err KeyError).
Proof.
assert (Habsent : grid database !! loc_geohash location = None ->
                  map_match query_id location is_origin rn database = Err KeyError).
{ intros Hnone. unfold map_match, getitem. by rewrite Hnone. }
split; [|split].
- intros c Hc Hempty. unfold map_match, getitem. rewrite Hc. simpl.
  unfold closest_vertex. rewrite Hempty, elements_empty. done.
- exact Habsent.
- intros Hload Hfree.
  assert (Hnone : grid database !! loc_geohash location = None).
  { destruct (grid database !! loc_geohash location) as [c|] eqn:Hc; [|done].
    exfalso.
    assert (Hsome : is_Some (grid database !! loc_geohash location)) by eauto.
    apply (load_road_network_keys rn database _ Hload) in Hsome
      as (v_id & v & Hv & Hgeo).
    by apply (Hfree v_id v). }
  split; [by apply Habsent|].
  intros q <-. unfold Query_init_schedule_node, map_match, getitem.
  by rewrite Hnone.
Qed.
End map_match_facts.

(** No vertex of the concrete network lies in the cell of [ex_nowhere]. *)
Lemma ex_nowhere_vertex_free v_id v :
  vertex_set ex_rn !! v_id = Some v ->
  loc_geohash (vertex_location v) <> loc_geohash ex_nowhere.
Proof.
  intros Hv Hgeo.
  assert (Hsome : is_Some (grid ex_loaded !! loc_geohash ex_nowhere)).
  { apply (load_road_network_keys ex_rn ex_loaded _ ex_loaded_built). eauto. }
  revert Hsome. vm_compute. by intros [? ?].
Qed.

(** The claim C5 fails on the grid of a loaded road network: the cell of
    the endpoint holds no vertex, and [map_match] returns no node. *)
Lemma map_match_raises_where_no_vertex :
  load_road_network Database_init ex_rn = Ok ex_loaded
  /\ (forall v_id v, vertex_set ex_rn !! v_id = Some v ->
                     loc_geohash (vertex_location v) <> loc_geohash ex_nowhere)
  /\ ~ (exists node,
          map_match (H := equator_geo) 0 ex_nowhere true ex_rn ex_loaded = Ok node
          /\ matched_vid node = None).
Proof.
  split; [exact ex_loaded_built|]. split; [exact ex_nowhere_vertex_free|].
  intros (node & Hm & _). revert Hm. vm_compute. discriminate.
Qed.

Lemma map_match_vertex_free_cell_witness :
  map_match (H := equator_geo) 0 ex_nowhere true ex_rn ex_loaded = Err KeyError.
Proof.
  apply (map_match_vertex_free_cell (H := equator_geo) 0 ex_nowhere true
           ex_rn ex_loaded).
  - exact ex_loaded_built.
  - exact ex_nowhere_vertex_free.
Defined.

(** ** Instances on the concrete world *)

Lemma single_side_search_walks_prefix_witness :
  single_side_search ex_start ex_query ex_db = Ok [1]
  /\ exists origin_cell walked rest,
       grid ex_db !! o_geohash ex_query = Some origin_cell
       /\ temporal_grid_list origin_cell = walked ++ rest
       /\ (forall taxi_id,
             taxi_id ∈ [1] <->
             exists item c eta,
               item ∈ walked /\ grid ex_db !! item.1 = Some c
               /\ taxi_list c !! taxi_id = Some eta
               /\ (item.2 + eta <= inject_Z (late (pickup_window ex_query)))%Q).
Proof.
  split; [vm_compute; reflexivity|].
  destruct (single_side_search_walks_prefix ex_start ex_query ex_db [1])
    as (c & walked & rest & Hc & Hsplit & _ & _ & Hin & _);
    [vm_compute; reflexivity|].
  exists c, walked, rest. split; [exact Hc|]. split; [exact Hsplit|exact Hin].
Defined.


Lemma add_vertex_existing_resets_adjacency_witness :
  exists old,
    vertex_set ex_rn !! 2 = Some old
    /\ connected_to old !! 3 = Some 3
    /\ vertex_set (add_vertex ex_rn 2 None None) !! 2
       = Some (mkVertex 2 (Location_init None None) ∅)
    /\ edge_set (add_vertex ex_rn 2 None None) = edge_set ex_rn
    /\ num_vertex (add_vertex ex_rn 2 None None) = num_vertex ex_rn.
Proof.
  destruct (vertex_set ex_rn !! 2) as [old|] eqn:Hold;
    [|revert Hold; vm_compute; discriminate].
  exists old. split; [reflexivity|].
  split; [revert Hold; vm_compute; by intros [= <-]|].
  destruct (add_vertex_existing_resets_adjacency ex_rn 2 None None old Hold)
    as (Hv & _ & He & Hn & _).
  split; [exact Hv|]. split; [exact He|exact Hn].
Defined.

(** ** dispatcher.py: scheduling *)

Section schedule_facts.
Context `{Geo}.

Lemma schedule_visit_all_unavailable query taxi_set candidates st :
(forall taxi_id, taxi_id ∈ candidates ->
   exists t, taxi_set !! taxi_id = Some t /\ is_available t = false) ->
foldM (schedule_visit query taxi_set) candidates st = Ok st.
Proof.
induction candidates as [|taxi_id candidates IH]; intros Hun; simpl; [done|].
destruct (Hun taxi_id) as (t & Ht & Hav); [by apply elem_of_cons; left|].
assert (Hvisit : schedule_visit query taxi_set taxi_id st = Ok st).
{ unfold schedule_visit, getitem. rewrite Ht. simpl. by rewrite Hav. }
rewrite Hvisit. simpl.
apply IH. intros k Hk. apply Hun. by apply elem_of_cons; right.
Qed.

(** With candidates none of which is available, [__schedule] falls
  back on the first candidate and returns [True]. *)
Lemma Dispatcher_schedule_none_available
fuel ref first others taxi_set query_set rn query picked t2 :
query_set !! ref = Some query ->
(forall taxi_id, taxi_id ∈ first :: others ->
   exists t, taxi_set !! taxi_id = Some t /\ is_available t = false) ->
taxi_set !! first = Some picked ->
update_route fuel
  (set_schedule picked
     ((schedule picked ++ [o_schedule_node query]) ++ [d_schedule_node query]))
  rn None = Ok t2 ->
Dispatcher_schedule fuel ref (first :: others) taxi_set query_set rn
= Ok (true, <[first := t2]> taxi_set,
      <[ref := set_matched_taxi query (Some first)]> query_set).
Proof.
intros Hq Hun Hp Hroute. unfold Dispatcher_schedule.
pose proof (schedule_visit_all_unavailable query taxi_set (first :: others)
              (first, inject_Z MAX_INT) Hun) as Hloop.
apply getref_Ok in Hq. rewrite Hq. cbn [mbind res_bind].
rewrite Hloop. cbn [mbind res_bind fst].
apply getitem_Ok in Hp. rewrite Hp. cbn [mbind res_bind].
by rewrite Hroute.
Qed.

(** With no candidate, [dispatch_taxi] enqueues the query into
  [failed_queries] and touches neither a taxi nor the query. *)
Lemma dispatch_taxi_no_candidate fuel d timestamp ref database taxi_set
query_set rn query :
query_set !! ref = Some query ->
single_side_search timestamp query database = Ok [] ->
dispatch_taxi fuel d timestamp ref database taxi_set query_set rn
= Ok (add_failed_query d query ref, taxi_set, query_set).
Proof.
intros Hq Hs. unfold dispatch_taxi, getref. rewrite Hq. simpl.
by rewrite Hs.
Qed.
End schedule_facts.

(** C1, on the first dispatch of the concrete world: the candidate list
    is [[1]] and taxi 1, idle with an empty schedule, is not available;
    [dispatch_taxi] does not put the query into [failed_queries] but
    records it as waiting, appends its two nodes to the schedule of
    taxi 1 and sets its [matched_taxi]. *)
Theorem dispatch_taxi_picks_unavailable_taxi :
  single_side_search ex_start ex_query ex_db = Ok [1]
  /\ ex_taxi_set !! 1 = Some ex_taxi
  /\ is_available ex_taxi = false
  /\ exists d' taxi_set' query_set',
       dispatch_taxi (H := equator_geo) 10 Dispatcher_init ex_start 0 ex_db
         ex_taxi_set ex_query_set ex_rn
       = Ok (d', taxi_set', query_set')
       /\ failed_queries d' = []
       /\ waiting_queries d' !! 0 = Some 0
       /\ schedule <$> taxi_set' !! 1
          = Some [Some (mkScheduleNode 0 true (Some 1));
                  Some (mkScheduleNode 0 false (Some 2))]
       /\ matched_taxi <$> query_set' !! 0 = Some (Some 1).
Proof.
  split; [vm_compute; reflexivity|].
  split; [vm_compute; reflexivity|].
  split; [vm_compute; reflexivity|].
  eexists _, _, _. split; [vm_compute; reflexivity|].
  repeat split; vm_compute; reflexivity.
Qed.

(** ** taxi.py: reaching a destination node *)

Section arrive_facts.
Context `{Geo}.

(** C4, as amended.  When the node popped from the head of the
  schedule is a destination node, [drive] calls [satisfy_query]
  without looking at the status of the query: if the query's id is
  not a key of the taxi's [serving_queries] the call raises
  [KeyError]; otherwise, whatever the status was, the query is marked
  [SATISFIED], leaves [serving_queries], [num_riders] is decremented
  and the query joins [completed_queries]. *)
Theorem arrive_destination_ignores_status
(fuel : nat) (timestamp : Z) (rn : RoadNetwork) (w : World)
(node : ScheduleNode) (rest : list (option ScheduleNode)) (q : Query) :
schedule (w_taxi w) = Some node :: rest ->
is_origin node = false ->
w_query_set w !! sn_query_id node = Some q ->
(serving_queries (w_taxi w) !! query_id q = None ->
 arrive fuel timestamp rn w = Err KeyError)
/\ (forall w', arrive fuel timestamp rn w = Ok w' ->
      is_Some (serving_queries (w_taxi w) !! query_id q)
      /\ w_query_set w' = <[sn_query_id node := set_status q SATISFIED]> (w_query_set w)
      /\ serving_queries (w_taxi w') = delete (query_id q) (serving_queries (w_taxi w))
      /\ num_riders (w_taxi w') = num_riders (w_taxi w) - 1
      /\ completed_queries (w_dispatcher w')
         = completed_queries (w_dispatcher w) ++ [sn_query_id node]).
Proof.
intros Hs Ho Hq. unfold arrive. rewrite Hs. simpl. rewrite Hq. simpl.
unfold getref. rewrite Hq. simpl. rewrite Ho.
unfold satisfy_query, getref. simpl. rewrite Hq. simpl.
unfold dict_pop. split.
- intros Hnone. by rewrite Hnone.
- intros w' Ha. destruct (serving_queries (w_taxi w) !! query_id q) eqn:Hsq;
    [|discriminate].
  simpl in Ha. inv_bind Ha. inv_bind Ha. injection Ha as <-. simpl.
  unfold update_route in Ha0. simpl in Ha0.
  split; [by eauto|]. split; [done|].
  destruct rest as [|head rest'].
  + injection Ha0 as <-. done.
  + inv_bind Ha0.
    destruct (matched_vid node), (matched_vid a1); try discriminate.
    inv_bind Ha0. destruct (edge_list a2); injection Ha0 as <-; done.
Qed.
End arrive_facts.

(** The claim C4 fails: the head of the schedule is the destination node
    of a query whose status is [WAITING], and [drive] returns normally,
    with the query marked [SATISFIED] and one rider less. *)
Lemma drive_satisfies_query_not_riding :
  schedule ex_taxi_arriving = [Some (mkScheduleNode 0 false (Some 2))]
  /\ status <$> ex_query_set !! 0 = Some WAITING
  /\ num_riders ex_taxi_arriving = 1
  /\ exists w',
       drive (H := equator_geo) 10 ex_start ex_rn ex_world_arriving = Ok w'
       /\ status <$> w_query_set w' !! 0 = Some SATISFIED
       /\ num_riders (w_taxi w') = 0
       /\ completed_queries (w_dispatcher w') = [0].
Proof.
  split; [reflexivity|]. split; [vm_compute; reflexivity|].
  split; [reflexivity|].
  eexists. split; [vm_compute; reflexivity|].
  repeat split; vm_compute; reflexivity.
Qed.

Lemma arrive_destination_ignores_status_witness :
  exists q,
    ex_query_set !! 0 = Some q
    /\ status q = WAITING
    /\ forall w',
         arrive (H := equator_geo) 10 ex_start ex_rn ex_world_arriving = Ok w' ->
         w_query_set w' = <[0 := set_status q SATISFIED]> ex_query_set
         /\ num_riders (w_taxi w') = 0.
Proof.
  destruct (ex_query_set !! 0) as [q|] eqn:Hq;
    [|revert Hq; vm_compute; discriminate].
  exists q. split; [reflexivity|].
  split; [revert Hq; vm_compute; by intros [= <-]|].
  intros w' Hw.
  destruct (arrive_destination_ignores_status (H := equator_geo) 10 ex_start
              ex_rn ex_world_arriving (mkScheduleNode 0 false (Some 2)) [] q
              eq_refl eq_refl Hq) as [_ Heff].
  destruct (Heff w' Hw) as (_ & Hqs & _ & Hn & _).
  split; [exact Hqs|]. rewrite Hn. reflexivity.
Defined.

(** ** container.py: the priority queue *)

Lemma entry_le_priority a b : entry_le a b = true -> (a.1 <= b.1)%Q.
Proof.
  unfold entry_le. intros Hle. apply orb_true_iff in Hle as [Hlt|Hle].
  - apply Qltb_lt in Hlt. lra.
  - apply andb_true_iff in Hle as [Hge _]. apply negb_true_iff in Hge.
    by apply Qltb_ge in Hge.
Qed.

Lemma entry_le_total a b : entry_le a b = false -> (b.1 <= a.1)%Q.
Proof.
  unfold entry_le. intros Hle. apply orb_false_iff in Hle as [Hlt _].
  by apply Qltb_ge in Hlt.
Qed.

Lemma pq_extract_spec x l m r :
  pq_extract x l = (m, r) ->
  m :: r ≡ₚ x :: l /\ Forall (fun y => (m.1 <= y.1)%Q) (x :: l).
Proof.
  revert x m r. induction l as [|y l IH]; intros x m r Hex; simpl in Hex.
  - injection Hex as <- <-. split; [done|].
    apply Forall_cons. split; [lra | by apply Forall_nil].
  - destruct (entry_le x y) eqn:Hle.
    + destruct (pq_extract x l) as [m' r'] eqn:Hrec. injection Hex as <- <-.
      apply IH in Hrec as [Hperm Hmin]. split.
      * etrans; [apply Permutation_swap|]. etrans; [|apply Permutation_swap].
        by apply Permutation_skip.
      * apply Forall_cons in Hmin as [Hx Hl]. apply entry_le_priority in Hle.
        apply Forall_cons. split; [done|]. apply Forall_cons. split; [lra|done].
    + destruct (pq_extract y l) as [m' r'] eqn:Hrec. injection Hex as <- <-.
      apply IH in Hrec as [Hperm Hmin]. split.
      * etrans; [apply Permutation_swap|]. by apply Permutation_skip.
      * apply Forall_cons in Hmin as [Hy Hl]. apply entry_le_total in Hle.
        apply Forall_cons. split; [lra|]. apply Forall_cons. split; [done|done].
Qed.

(** [get] returns the item of an entry of least priority and leaves the
    other entries. *)
Lemma pq_get_spec pq item rest :
  pq_get pq = Some (item, rest) ->
  exists priority,
    (priority, item) :: rest ≡ₚ pq
    /\ Forall (fun y => (priority <= y.1)%Q) pq.
Proof.
  unfold pq_get. destruct pq as [|x l]; [discriminate|].
  destruct (pq_extract x l) as [m r] eqn:Hex. intros [= <- <-].
  apply pq_extract_spec in Hex as [Hperm Hmin].
  exists m.1. by destruct m.
Qed.

Lemma pq_get_None pq : pq_get pq = None -> pq = [].
Proof.
  unfold pq_get. destruct pq as [|x l]; [done|].
  by destruct (pq_extract x l).
Qed.

Lemma pq_get_elem_of pq item rest y :
  pq_get pq = Some (item, rest) -> y ∈ rest -> y ∈ pq.
Proof.
  intros (priority & Hperm & _)%pq_get_spec Hy.
  rewrite <- Hperm. by apply elem_of_cons; right.
Qed.

(** ** Loops, continued *)

Lemma foldM_preserves {A S} (f : A -> S -> res S) (P : S -> Prop)
  (l : list A) (s s' : S) :
  P s ->
  (forall x s1 s2, x ∈ l -> P s1 -> f x s1 = Ok s2 -> P s2) ->
  foldM f l s = Ok s' ->
  P s'.
Proof.
  intros Hs Hstep. apply (foldM_invariant f (fun _ => P)); [done|].
  intros _ x s1 s2 HP Hx Hf. by eapply Hstep.
Qed.

Lemma foldl_preserves {A S} (f : S -> A -> S) (P : S -> Prop) (l : list A) (s : S) :
  P s ->
  (forall x s1, x ∈ l -> P s1 -> P (f s1 x)) ->
  P (foldl f s l).
Proof.
  revert s. induction l as [|x l IH]; intros s Hs Hstep; simpl; [done|].
  apply IH.
  - apply Hstep; [by apply elem_of_cons; left|done].
  - intros y s1 Hy. apply Hstep. by apply elem_of_cons; right.
Qed.

(** ** road_network.py: what the searches reach *)

Lemma get_neighbors_edge rn u nbrs v :
  get_neighbors rn u = Ok nbrs -> v ∈ nbrs -> road_edge rn u v.
Proof.
  unfold get_neighbors. intros Hn Hv. inv_bind Hn. apply getitem_Ok in Ha.
  injection Hn as <-. apply list_elem_of_fmap in Hv as ([k e] & -> & Hin).
  apply elem_of_map_to_list in Hin. exists a. split; [done|]. by eexists.
Qed.

Lemma reachable_step rn s u v :
  reachable rn s u -> road_edge rn u v -> reachable rn s v.
Proof. intros Hr He. eapply rtc_r; eauto. Qed.

(** When the end vertex is not a key of [came_from] and differs from the
    start, [construct_path] returns the empty path. *)
Lemma construct_path_unreached fuel rn s_vid e_vid came_from p :
  e_vid <> s_vid ->
  came_from !! e_vid = None ->
  construct_path fuel rn s_vid e_vid came_from = Ok p ->
  p = empty_path.
Proof.
  intros Hne Hnone. unfold construct_path.
  destruct fuel; simpl;
    (destruct (decide (e_vid = s_vid)); [done|]); rewrite Hnone; simpl;
    by intros [= <-].
Qed.

Section reach.
Context (rn : RoadNetwork) (s_vid : Z).

(** Every key of [came_from] is reachable from the start vertex. *)
Definition keys_reachable (came_from : gmap Z (option Z)) : Prop :=
forall k, is_Some (came_from !! k) -> reachable rn s_vid k.

Lemma keys_reachable_init : keys_reachable {[s_vid := None]}.
Proof.
intros k [x Hk]. apply lookup_singleton_Some in Hk as [<- _].
apply rtc_refl.
Qed.

Lemma keys_reachable_insert came_from k v :
keys_reachable came_from -> reachable rn s_vid k ->
keys_reachable (<[k := v]> came_from).
Proof.
intros Hk Hr j Hj. destruct (decide (k = j)) as [<-|Hne]; [done|].
rewrite lookup_insert_ne in Hj by done. by apply Hk.
Qed.

Lemma keys_reachable_unreached e_vid came_from :
keys_reachable came_from -> ~ reachable rn s_vid e_vid ->
e_vid <> s_vid /\ came_from !! e_vid = None.
Proof.
intros Hk Hun. split.
- intros ->. apply Hun. apply rtc_refl.
- destruct (came_from !! e_vid) eqn:E; [|done].
  exfalso. apply Hun, Hk. by eexists.
Qed.

(** *** Breadth-first search *)

Definition bfs_reach (st : list Z * gmap Z (option Z)) : Prop :=
(forall x, x ∈ st.1 -> reachable rn s_vid x) /\ keys_reachable st.2.

Lemma bfs_visit_reach current neighbor st :
reachable rn s_vid current -> road_edge rn current neighbor ->
bfs_reach st -> bfs_reach (bfs_visit current neighbor st).
Proof.
intros Hc He [Hf Hk]. destruct st as [frontier came_from].
unfold bfs_visit. simpl in *.
destruct (came_from !! neighbor); [by split|].
assert (reachable rn s_vid neighbor) by by eapply reachable_step.
split; simpl.
- unfold Queue_put. intros x [Hx| ->%list_elem_of_singleton]%elem_of_app; auto.
- by apply keys_reachable_insert.
Qed.

Lemma bfs_loop_reach fuel e_vid frontier came_from came_from' :
bfs_reach (frontier, came_from) ->
bfs_loop fuel rn e_vid frontier came_from = Ok came_from' ->
keys_reachable came_from'.
Proof.
revert frontier came_from.
induction fuel as [|fuel IH]; intros frontier came_from [Hf Hk] Hloop;
  simpl in Hloop; destruct frontier as [|current frontier']; simpl in Hloop;
  try (injection Hloop as <-; done);
  destruct (decide (current = e_vid)); try (injection Hloop as <-; done);
  try discriminate.
inv_bind Hloop. rename a into nbrs.
destruct (foldl _ _ nbrs) as [frontier'' came_from''] eqn:Hfold.
apply IH in Hloop; [done|]. rewrite <- Hfold.
assert (Hc : reachable rn s_vid current) by (apply Hf; by apply elem_of_cons; left).
apply foldl_preserves.
- split; [|done]. intros x Hx. apply Hf. by apply elem_of_cons; right.
- intros x st Hx Hst. apply bfs_visit_reach; [done| |done].
  by eapply get_neighbors_edge.
Qed.

(** *** The weighted searches *)

Definition search_reach (st : search_state) : Prop :=
(forall y, y ∈ st.1.1 -> reachable rn s_vid y.2) /\ keys_reachable st.1.2.

Lemma relax_reach priority_of current neighbor st st' :
reachable rn s_vid current -> road_edge rn current neighbor ->
search_reach st -> relax rn priority_of current neighbor st = Ok st' ->
search_reach st'.
Proof.
intros Hc He [Hf Hk] Hr. destruct st as [[frontier came_from] cost_so_far].
unfold relax in Hr. inv_bind Hr. inv_bind Hr. simpl in *.
assert (reachable rn s_vid neighbor) by by eapply reachable_step.
destruct (match cost_so_far !! neighbor with
          | Some old => Qltb (a + a0) old | None => true end).
- inv_bind Hr. injection Hr as <-. split; simpl.
  + unfold pq_put. intros y [->|Hy]%elem_of_cons; [done|by apply Hf].
  + by apply keys_reachable_insert.
- injection Hr as <-. by split.
Qed.

Lemma search_loop_reach fuel priority_of e_vid st came_from' :
search_reach st ->
search_loop fuel rn priority_of e_vid st = Ok came_from' ->
keys_reachable came_from'.
Proof.
revert st. induction fuel as [|fuel IH]; intros st [Hf Hk] Hloop;
  simpl in Hloop; destruct (pq_get st.1.1) as [[current frontier']|] eqn:Hget;
  try (injection Hloop as <-; done);
  destruct (decide (Some current = e_vid)); try (injection Hloop as <-; done);
  try discriminate.
inv_bind Hloop. rename a into nbrs. inv_bind Hloop.
apply IH in Hloop; [done|].
pose proof Hget as (priority & Hperm & _)%pq_get_spec.
assert (Hc : reachable rn s_vid current).
{ apply (Hf (priority, current)). rewrite <- Hperm. by apply elem_of_cons; left. }
eapply (foldM_preserves _ search_reach); [| |exact Ha0].
- split; [|done]. simpl. intros y Hy. apply Hf. by eapply pq_get_elem_of.
- intros x s1 s2 Hx Hs1 Hrel. eapply relax_reach; [done| |done|done].
  by eapply get_neighbors_edge.
Qed.

Lemma search_reach_init : search_reach (search_init s_vid).
Proof.
split; simpl.
- unfold pq_put. intros y ->%list_elem_of_singleton. apply rtc_refl.
- apply keys_reachable_init.
Qed.
End reach.

Section greedy_reach.
Context `{Geo} (rn : RoadNetwork) (s_vid : Z).

Definition greedy_reach (st : list (Q * Z) * gmap Z (option Z)) : Prop :=
(forall y, y ∈ st.1 -> reachable rn s_vid y.2) /\ keys_reachable rn s_vid st.2.

Lemma greedy_visit_reach e_vid current neighbor st st' :
reachable rn s_vid current -> road_edge rn current neighbor ->
greedy_reach st -> greedy_visit rn e_vid current neighbor st = Ok st' ->
greedy_reach st'.
Proof.
intros Hc He [Hf Hk] Hv. destruct st as [frontier came_from].
unfold greedy_visit in Hv. simpl in *.
destruct (came_from !! neighbor).
- injection Hv as <-. by split.
- inv_bind Hv. injection Hv as <-.
  assert (reachable rn s_vid neighbor) by by eapply reachable_step.
  split; simpl.
  + unfold pq_put. intros y [->|Hy]%elem_of_cons; [done|by apply Hf].
  + by apply keys_reachable_insert.
Qed.

Lemma greedy_loop_reach fuel e_vid st came_from' :
greedy_reach st ->
greedy_loop fuel rn e_vid st = Ok came_from' ->
keys_reachable rn s_vid came_from'.
Proof.
revert st. induction fuel as [|fuel IH]; intros st [Hf Hk] Hloop;
  simpl in Hloop; destruct (pq_get st.1) as [[current frontier']|] eqn:Hget;
  try (injection Hloop as <-; done);
  destruct (decide (current = e_vid)); try (injection Hloop as <-; done);
  try discriminate.
inv_bind Hloop. rename a into nbrs. inv_bind Hloop.
apply IH in Hloop; [done|].
pose proof Hget as (priority & Hperm & _)%pq_get_spec.
assert (Hc : reachable rn s_vid current).
{ apply (Hf (priority, current)). rewrite <- Hperm. by apply elem_of_cons; left. }
eapply (foldM_preserves _ greedy_reach); [| |exact Ha0].
- split; [|done]. simpl. intros y Hy. apply Hf. by eapply pq_get_elem_of.
- intros x s1 s2 Hx Hs1 Hrel. eapply greedy_visit_reach; [done| |done|done].
  by eapply get_neighbors_edge.
Qed.

End greedy_reach.

(** ** road_network.py: the weighted searches relax every edge *)

Lemma get_weight_nonneg rn u v w :
  nonneg_weights rn -> get_weight rn u v = Ok w -> (0 <= w)%Q.
Proof.
  intros Hnn Hw. unfold get_weight in Hw. inv_bind Hw.
  destruct (connected_to a !! v) as [e_id|]; [|discriminate].
  inv_bind Hw. apply getitem_Ok in Ha0. injection Hw as <-. by eapply Hnn.
Qed.

Lemma get_weight_neighbor rn u v w nbrs :
  get_weight rn u v = Ok w -> get_neighbors rn u = Ok nbrs -> v ∈ nbrs.
Proof.
  unfold get_weight, get_neighbors. intros Hw Hn.
  inv_bind Hw. inv_bind Hn. rewrite Ha in Ha0. injection Ha0 as <-.
  injection Hn as <-.
  destruct (connected_to a !! v) as [e_id|] eqn:He; [|discriminate].
  apply list_elem_of_fmap. exists (v, e_id). split; [done|].
  by apply elem_of_map_to_list.
Qed.

Lemma walk_proper rn u v c c' : walk rn u v c -> (c == c')%Q -> walk rn u v c'.
Proof.
  intros Hw Heq. destruct Hw as [u c0 H0|u m v c0 w c1 Hw Hg H1].
  - apply walk_nil. lra.
  - eapply walk_step; [done|done|lra].
Qed.

Lemma walk_nonneg rn u v c : nonneg_weights rn -> walk rn u v c -> (0 <= c)%Q.
Proof.
  intros Hnn. induction 1 as [u c H0|u m v c w c' Hw IH Hg H1]; [lra|].
  apply (get_weight_nonneg _ _ _ _ Hnn) in Hg. lra.
Qed.

(** A walk extended at its front. *)
Lemma walk_cons rn u v z w r :
  get_weight rn u v = Ok w -> walk rn v z r -> walk rn u z (w + r).
Proof.
  intros Hg Hw. induction Hw as [v c H0|v m z c w' c' Hw IH Hg' H1].
  - eapply walk_step; [apply (walk_nil _ u 0%Q); lra|done|lra].
  - eapply walk_step; [apply IH; done|done|lra].
Qed.

Section relaxation.
Context (rn : RoadNetwork) (s_vid : Z).
Context (priority_of : Z -> Q -> res Q) (hf : Z -> Q).
Hypothesis Hnonneg : nonneg_weights rn.
Hypothesis Hpriority :
forall n c p, priority_of n c = Ok p -> (p == c + hf n)%Q.
Hypothesis Hhf_nonneg : forall n, (0 <= hf n)%Q.

(** The edge [(u, v)] is relaxed: the cost of [v] is at most the cost of
  [u] plus the weight; or [u] waits in the frontier with a priority of
  at most its cost plus the heuristic. *)
Definition edge_settled (st : search_state) (u v : Z) : Prop :=
forall c w,
  st.2 !! u = Some c -> get_weight rn u v = Ok w ->
  (exists c', st.2 !! v = Some c' /\ (c' <= c + w)%Q)
  \/ (exists p, (p, u) ∈ st.1.1 /\ (p <= c + hf u)%Q).

(** What holds of frontier, [came_from] and [cost_so_far] throughout a
  search; [pending u v] exempts the edges being relaxed. *)
Record search_inv (pending : Z -> Z -> Prop) (st : search_state) : Prop := {
inv_start : st.2 !! s_vid = Some 0%Q /\ st.1.2 !! s_vid = Some None;
inv_nonneg : forall n c, st.2 !! n = Some c -> (0 <= c)%Q;
inv_chain : forall n prev,
  st.1.2 !! n = Some (Some prev) ->
  exists c cp w, st.2 !! n = Some c /\ st.2 !! prev = Some cp
                 /\ get_weight rn prev n = Ok w /\ (cp + w <= c)%Q;
inv_root : forall n, st.1.2 !! n = Some None -> n = s_vid;
inv_keys : forall n, is_Some (st.2 !! n) -> is_Some (st.1.2 !! n);
inv_entries : forall p x,
  (p, x) ∈ st.1.1 ->
  x = s_vid \/ exists c, st.2 !! x = Some c /\ (c + hf x <= p)%Q;
inv_edges : forall u v, ~ pending u v -> edge_settled st u v
}.

Lemma search_inv_init : search_inv (fun _ _ => False) (search_init s_vid).
Proof.
unfold search_init, pq_put. split; simpl.
- by rewrite !lookup_singleton_eq.
- intros n c [<- <-]%lookup_singleton_Some. lra.
- intros n prev [_ ?]%lookup_singleton_Some. discriminate.
- by intros n [<- _]%lookup_singleton_Some.
- intros n [c [<- _]%lookup_singleton_Some]. rewrite lookup_singleton_eq. eauto.
- intros p x [= -> ->]%list_elem_of_singleton. by left.
- intros u v _. unfold edge_settled. simpl.
  intros c w [<- <-]%lookup_singleton_Some Hw. right.
  exists 0%Q. split; [by apply list_elem_of_singleton|].
  pose proof (Hhf_nonneg s_vid). lra.
Qed.

(** One pass of the relaxation loop over the neighbours of [current]
  settles the edge to that neighbour. *)
Lemma relax_inv pending current neighbor st st' c_cur :
search_inv pending st ->
st.2 !! current = Some c_cur ->
relax rn priority_of current neighbor st = Ok st' ->
search_inv (fun u v => pending u v /\ ~ (u = current /\ v = neighbor)) st'
/\ st'.2 !! current = Some c_cur.
Proof.
intros Hinv Hcur Hrel. destruct st as [[frontier came_from] cost_so_far].
destruct Hinv as [[Hs0 Hs1] Hnn Hchain Hroot Hkeys Hent Hedges]. simpl in *.
unfold relax in Hrel. inv_bind Hrel. apply getitem_Ok in Ha.
assert (a = c_cur) as -> by congruence. clear Ha.
inv_bind Hrel. rename a into w, Ha into Hw.
pose proof (get_weight_nonneg _ _ _ _ Hnonneg Hw) as Hw0.
pose proof (Hnn _ _ Hcur) as Hc0.
assert (Hsettle_same :
  forall old, cost_so_far !! neighbor = Some old -> (old <= c_cur + w)%Q ->
  forall u v, ~ (pending u v /\ ~ (u = current /\ v = neighbor)) ->
              edge_settled (frontier, came_from, cost_so_far) u v).
{ intros old Hold Hle u v Hpend.
  destruct (decide (u = current /\ v = neighbor)) as [[-> ->]|Hne].
  - intros c w' Hc Hw'. simpl in *. left. exists old.
    split; [done|]. assert (c = c_cur) as -> by congruence.
    assert (w' = w) as -> by congruence. done.
  - apply Hedges. tauto. }
destruct (cost_so_far !! neighbor) as [old|] eqn:Hold.
- destruct (Qltb (c_cur + w) old) eqn:Hlt.
  + (* the neighbour gets a lower cost *)
    apply Qltb_lt in Hlt. inv_bind Hrel. rename a into p, Ha into Hp.
    apply Hpriority in Hp. injection Hrel as <-. simpl.
    assert (Hns : neighbor <> s_vid).
    { intros ->. rewrite Hs0 in Hold. injection Hold as <-. lra. }
    assert (Hnc : neighbor <> current).
    { intros ->. rewrite Hcur in Hold. injection Hold as <-. lra. }
    split; [|by rewrite lookup_insert_ne].
    split; simpl.
    * by rewrite !lookup_insert_ne.
    * intros n c. destruct (decide (neighbor = n)) as [<-|Hn].
      -- rewrite lookup_insert_eq. intros [= <-]. lra.
      -- rewrite lookup_insert_ne by done. apply Hnn.
    * intros n prev. destruct (decide (neighbor = n)) as [<-|Hn].
      -- rewrite lookup_insert_eq. intros [= <-].
         exists (c_cur + w)%Q, c_cur, w. rewrite lookup_insert_eq.
         rewrite lookup_insert_ne by done. repeat split; try done. lra.
      -- rewrite !lookup_insert_ne by done. intros Hcf.
         destruct (Hchain _ _ Hcf) as (c & cp & w' & Hc & Hcp & Hw' & Hle).
         destruct (decide (neighbor = prev)) as [<-|Hp'].
         ++ exists c, (c_cur + w)%Q, w'. rewrite lookup_insert_eq.
            repeat split; try done. rewrite Hold in Hcp. injection Hcp as <-. lra.
         ++ exists c, cp, w'. rewrite lookup_insert_ne by done. done.
    * intros n. destruct (decide (neighbor = n)) as [<-|Hn].
      -- rewrite lookup_insert_eq. discriminate.
      -- rewrite lookup_insert_ne by done. apply Hroot.
    * intros n. destruct (decide (neighbor = n)) as [<-|Hn].
      -- rewrite !lookup_insert_eq. eauto.
      -- rewrite !lookup_insert_ne by done. apply Hkeys.
    * unfold pq_put. intros p' x [[= -> ->]|Hin]%elem_of_cons.
      -- right. exists (c_cur + w)%Q. rewrite lookup_insert_eq. split; [done|lra].
      -- destruct (Hent _ _ Hin) as [->|(c & Hc & Hle)]; [by left|]. right.
         destruct (decide (neighbor = x)) as [<-|Hn].
         ++ exists (c_cur + w)%Q. rewrite lookup_insert_eq. split; [done|].
            rewrite Hold in Hc. injection Hc as <-. lra.
         ++ exists c. rewrite lookup_insert_ne by done. done.
    * intros u v Hpend c w' Hc Hw'. simpl in *. unfold pq_put.
      destruct (decide (neighbor = u)) as [<-|Hu].
      -- rewrite lookup_insert_eq in Hc. injection Hc as <-. right.
         exists p. split; [by apply elem_of_cons; left|lra].
      -- rewrite lookup_insert_ne in Hc by done.
         destruct (decide (u = current /\ v = neighbor)) as [[-> ->]|Hne].
         ++ left. exists (c_cur + w)%Q. rewrite lookup_insert_eq.
            split; [done|]. assert (c = c_cur) as -> by congruence.
            assert (w' = w) as -> by congruence. lra.
         ++ destruct (Hedges u v) with (c := c) (w := w')
              as [(c' & Hc' & Hle)|(p' & Hin & Hle)]; try done; [tauto| |].
            ** left. simpl in Hc'. destruct (decide (neighbor = v)) as [<-|Hv].
               --- exists (c_cur + w)%Q. rewrite lookup_insert_eq. split; [done|].
                   rewrite Hold in Hc'. injection Hc' as <-. lra.
               --- exists c'. rewrite lookup_insert_ne by done. done.
            ** right. exists p'. split; [by apply elem_of_cons; right|done].
  + (* the cost of the neighbour is not improved *)
    apply Qltb_ge in Hlt. injection Hrel as <-. simpl. split; [|done].
    split; simpl; try done.
    by apply (Hsettle_same old).
- (* the neighbour is seen for the first time *)
  inv_bind Hrel. rename a into p, Ha into Hp.
  apply Hpriority in Hp. injection Hrel as <-. simpl.
  assert (Hns : neighbor <> s_vid) by (intros ->; congruence).
  assert (Hnc : neighbor <> current) by (intros ->; congruence).
  split; [|by rewrite lookup_insert_ne].
  split; simpl.
  * by rewrite !lookup_insert_ne.
  * intros n c. destruct (decide (neighbor = n)) as [<-|Hn].
    -- rewrite lookup_insert_eq. intros [= <-]. lra.
    -- rewrite lookup_insert_ne by done. apply Hnn.
  * intros n prev. destruct (decide (neighbor = n)) as [<-|Hn].
    -- rewrite lookup_insert_eq. intros [= <-].
       exists (c_cur + w)%Q, c_cur, w. rewrite lookup_insert_eq.
       rewrite lookup_insert_ne by done. repeat split; try done. lra.
    -- rewrite !lookup_insert_ne by done. intros Hcf.
       destruct (Hchain _ _ Hcf) as (c & cp & w' & Hc & Hcp & Hw' & Hle).
       destruct (decide (neighbor = prev)) as [<-|Hp']; [congruence|].
       exists c, cp, w'. rewrite lookup_insert_ne by done. done.
  * intros n. destruct (decide (neighbor = n)) as [<-|Hn].
    -- rewrite lookup_insert_eq. discriminate.
    -- rewrite lookup_insert_ne by done. apply Hroot.
  * intros n. destruct (decide (neighbor = n)) as [<-|Hn].
    -- rewrite !lookup_insert_eq. eauto.
    -- rewrite !lookup_insert_ne by done. apply Hkeys.
  * unfold pq_put. intros p' x [[= -> ->]|Hin]%elem_of_cons.
    -- right. exists (c_cur + w)%Q. rewrite lookup_insert_eq. split; [done|lra].
    -- destruct (Hent _ _ Hin) as [->|(c & Hc & Hle)]; [by left|]. right.
       destruct (decide (neighbor = x)) as [<-|Hn]; [congruence|].
       exists c. rewrite lookup_insert_ne by done. done.
  * intros u v Hpend c w' Hc Hw'. simpl in *. unfold pq_put.
    destruct (decide (neighbor = u)) as [<-|Hu].
    -- rewrite lookup_insert_eq in Hc. injection Hc as <-. right.
       exists p. split; [by apply elem_of_cons; left|lra].
    -- rewrite lookup_insert_ne in Hc by done.
       destruct (decide (u = current /\ v = neighbor)) as [[-> ->]|Hne].
       ++ left. exists (c_cur + w)%Q. rewrite lookup_insert_eq.
          split; [done|]. assert (c = c_cur) as -> by congruence.
          assert (w' = w) as -> by congruence. lra.
       ++ destruct (Hedges u v) with (c := c) (w := w')
            as [(c' & Hc' & Hle)|(p' & Hin & Hle)]; try done; [tauto| |].
          ** left. simpl in Hc'. destruct (decide (neighbor = v)) as [<-|Hv];
               [congruence|].
             exists c'. rewrite lookup_insert_ne by done. done.
          ** right. exists p'. split; [by apply elem_of_cons; right|done].
Qed.
Lemma search_inv_mono (pending pending' : Z -> Z -> Prop) st :
(forall u v, ~ pending' u v ->
             ~ pending u v \/ forall w, get_weight rn u v <> Ok w) ->
search_inv pending st -> search_inv pending' st.
Proof.
intros Hsub [H1 H2 H3 H4 H5 H6 H7]. split; try done.
intros u v Hnp. destruct (Hsub _ _ Hnp) as [Hp|Hnw].
- by apply H7.
- intros c w _ Hw. by destruct (Hnw w).
Qed.

(** The vertex taken from the frontier has a cost. *)
Lemma popped_has_cost pending st current frontier' :
search_inv pending st ->
pq_get st.1.1 = Some (current, frontier') ->
exists c, st.2 !! current = Some c.
Proof.
intros Hinv (p & Hperm & _)%pq_get_spec.
assert (Hin : (p, current) ∈ st.1.1)
  by (rewrite <- Hperm; by apply elem_of_cons; left).
destruct (inv_entries _ _ Hinv p current Hin) as [->|(c & Hc & _)]; [|eauto].
destruct (inv_start _ _ Hinv). eauto.
Qed.

(** A whole pass of [while not frontier.empty()]: the vertex is taken
  from the frontier and all its edges are relaxed. *)
Lemma expand_inv st current frontier' nbrs st' :
search_inv (fun _ _ => False) st ->
pq_get st.1.1 = Some (current, frontier') ->
get_neighbors rn current = Ok nbrs ->
foldM (relax rn priority_of current) nbrs (frontier', st.1.2, st.2) = Ok st' ->
search_inv (fun _ _ => False) st'.
Proof.
intros Hinv Hget Hn Hfold.
destruct (popped_has_cost _ _ _ _ Hinv Hget) as [c_cur Hcur].
pose proof Hget as (p_cur & Hperm & _)%pq_get_spec.
assert (Hpop : search_inv (fun u v => u = current /\ v ∉ [])
                 (frontier', st.1.2, st.2)).
{ destruct Hinv as [H1 H2 H3 H4 H5 H6 H7]. split; simpl; try done.
  - intros p x Hin. apply H6. rewrite <- Hperm. by apply elem_of_cons; right.
  - intros u v Hnp c w Hc Hw. simpl in *.
    destruct (H7 u v (fun F => F) c w Hc Hw) as [?|(p & Hin & Hle)]; [by left|].
    right. exists p. split; [|done].
    rewrite <- Hperm in Hin. apply elem_of_cons in Hin as [[= -> ->]|Hin]; [|done].
    exfalso. apply Hnp. split; [done|]. by intros ?%elem_of_nil. }
assert (Hloop : search_inv (fun u v => u = current /\ v ∉ nbrs) st'
                /\ st'.2 !! current = Some c_cur).
{ revert Hfold.
  apply (foldM_invariant _
           (fun processed st1 =>
              search_inv (fun u v => u = current /\ v ∉ processed) st1
              /\ st1.2 !! current = Some c_cur)); [by split|].
  intros processed x s1 s2 [Hs1 Hc1] Hx Hrel.
  destruct (relax_inv _ _ _ _ _ _ Hs1 Hc1 Hrel) as [Hs2 Hc2]. split; [|done].
  eapply search_inv_mono; [|exact Hs2]. simpl.
  intros u v Hnp. left. intros [[-> Hv] Hne]. apply Hnp. split; [done|].
  intros [?| ->%list_elem_of_singleton]%elem_of_app; [done|]. by apply Hne. }
destruct Hloop as [Hloop _].
eapply search_inv_mono; [|exact Hloop]. simpl.
intros u v _. destruct (decide (u = current)) as [->|Hu]; [|left; tauto].
destruct (decide (v ∈ nbrs)) as [Hv|Hv]; [left; tauto|].
right. intros w Hw. apply Hv. by eapply get_weight_neighbor.
Qed.

(** The state in which a search leaves its loop: the frontier is empty
  or the target is the next vertex taken from it. *)
Lemma search_loop_exit fuel e_vid st came_from :
search_inv (fun _ _ => False) st ->
search_loop fuel rn priority_of e_vid st = Ok came_from ->
exists st',
  search_inv (fun _ _ => False) st'
  /\ came_from = st'.1.2
  /\ (st'.1.1 = []
      \/ exists current frontier',
           pq_get st'.1.1 = Some (current, frontier') /\ Some current = e_vid).
Proof.
revert st. induction fuel as [|fuel IH]; intros st Hinv Hloop;
  simpl in Hloop; destruct (pq_get st.1.1) as [[current frontier']|] eqn:Hget.
- destruct (decide (Some current = e_vid)); [|discriminate].
  injection Hloop as <-. exists st. eauto 10.
- injection Hloop as <-. exists st. apply pq_get_None in Hget. eauto.
- destruct (decide (Some current = e_vid)).
  + injection Hloop as <-. exists st. eauto 10.
  + inv_bind Hloop. inv_bind Hloop. eapply IH; [|exact Hloop].
    by eapply expand_inv.
- injection Hloop as <-. exists st. apply pq_get_None in Hget. eauto.
Qed.

(** Along a walk from the start, either the end has a cost of at most
  the weight of the walk, or a vertex of the walk waits in the
  frontier. *)
Lemma walk_bound st v g :
search_inv (fun _ _ => False) st ->
walk rn s_vid v g ->
(exists c, st.2 !! v = Some c /\ (c <= g)%Q)
\/ (exists u c r p,
      st.2 !! u = Some c /\ walk rn u v r /\ (c + r <= g)%Q
      /\ (p, u) ∈ st.1.1 /\ (p <= c + hf u)%Q).
Proof.
intros Hinv Hw. remember s_vid as s0 eqn:Hs0.
induction Hw as [u c H0|u m v c w c' Hw IH Hg H1]; subst.
- left. exists 0%Q. split; [apply Hinv|lra].
- destruct IH as [(cm & Hcm & Hle)|(u & cu & r & p & Hcu & Hwr & Hle & Hin & Hp)];
    [done| |].
  + destruct (inv_edges _ _ Hinv m v (fun F => F) cm w Hcm Hg)
      as [(c1 & Hc1 & Hle1)|(p & Hin & Hp)].
    * left. exists c1. split; [done|lra].
    * right. exists m, cm, w, p. repeat split; try done; [|lra].
      eapply walk_step; [apply (walk_nil _ m 0%Q); lra|done|lra].
  + right. exists u, cu, (r + w)%Q, p. repeat split; try done; [|lra].
    eapply walk_step; [done|done|lra].
Qed.

(** With an admissible heuristic, the cost of the target when the search
  leaves its loop is at most the weight of any walk to it. *)
Lemma exit_bound st e_vid g :
admissible rn e_vid hf ->
search_inv (fun _ _ => False) st ->
st.1.1 = []
\/ (exists current frontier',
      pq_get st.1.1 = Some (current, frontier') /\ Some current = Some e_vid) ->
walk rn s_vid e_vid g ->
exists c, st.2 !! e_vid = Some c /\ (c <= g)%Q.
Proof.
intros Hadm Hinv Hexit Hw.
destruct (walk_bound _ _ _ Hinv Hw)
  as [?|(u & cu & r & p & Hcu & Hwr & Hle & Hin & Hp)]; [done|].
destruct Hexit as [Hnil|(current & frontier' & Hget & [= ->])].
- rewrite Hnil in Hin. by apply elem_of_nil in Hin.
- apply pq_get_spec in Hget as (pe & Hperm & Hmin).
  rewrite Forall_forall in Hmin. pose proof (Hmin _ Hin) as Hpe. simpl in Hpe.
  destruct (Hadm u) as [_ Hu]. pose proof (Hu _ Hwr) as Hur.
  destruct (Hadm e_vid) as [He0 _].
  destruct (inv_entries _ _ Hinv pe e_vid) as [->|(ce & Hce & Hle')].
  + rewrite <- Hperm. by apply elem_of_cons; left.
  + exists 0%Q. split; [apply Hinv|].
    pose proof (walk_nonneg _ _ _ _ Hnonneg Hw). lra.
  + exists ce. split; [done|lra].
Qed.

(** *** The path rebuilt from [came_from] *)

Lemma cost_of_came_from pending st n :
search_inv pending st -> is_Some (st.1.2 !! n) -> is_Some (st.2 !! n).
Proof.
intros Hinv [[prev|] Hn].
- destruct (inv_chain _ _ Hinv _ _ Hn) as (c & _ & _ & Hc & _). eauto.
- apply (inv_root _ _ Hinv) in Hn as ->. destruct (inv_start _ _ Hinv). eauto.
Qed.

Lemma construct_vertex_list_linked pending st fuel current rest l :
search_inv pending st ->
is_Some (st.2 !! current) ->
linked st.1.2 (current :: rest) ->
construct_vertex_list fuel st.1.2 s_vid current (current :: rest) = Ok l ->
exists l', l = s_vid :: l' /\ linked st.1.2 l
           /\ last l = last (current :: rest).
Proof.
intros Hinv. revert current rest.
induction fuel as [|fuel IH]; intros current rest Hcost Hlink Hc; simpl in Hc;
  (destruct (decide (current = s_vid)) as [->|Hne];
   [injection Hc as <-; by eauto|]);
  pose proof (inv_keys _ _ Hinv _ Hcost) as [[prev|] Hcf]; rewrite Hcf in Hc;
  try discriminate;
  try (by apply (inv_root _ _ Hinv) in Hcf).
apply IH in Hc.
- destruct Hc as (l' & -> & Hl & Hlast). exists l'. split; [done|].
  split; [done|]. rewrite Hlast. done.
- destruct (inv_chain _ _ Hinv _ _ Hcf) as (c & cp & w & _ & Hcp & _). eauto.
- simpl. split; [done|]. exact Hlink.
Qed.

Lemma construct_edge_list_walk pending st u l e_list d e_list' d' cu :
search_inv pending st ->
linked st.1.2 (u :: l) ->
st.2 !! u = Some cu ->
construct_edge_list rn (u :: l) e_list d = Ok (e_list', d') ->
exists z cz,
  last (u :: l) = Some z /\ st.2 !! z = Some cz
  /\ walk rn u z (d' - d) /\ (cu + (d' - d) <= cz)%Q.
Proof.
intros Hinv. revert u e_list d cu.
induction l as [|v l IH]; intros u e_list d cu Hlink Hcu Hc.
- simpl in Hc. injection Hc as <- <-. exists u, cu.
  repeat split; try done; [apply walk_nil|]; lra.
- destruct Hlink as [Hcf Hlink]. cbn [construct_edge_list] in Hc.
  inv_bind Hc. inv_bind Hc. rename a0 into w.
  destruct (inv_chain _ _ Hinv _ _ Hcf) as (c & cp & w' & Hcv & Hcp & Hw & Hle).
  assert (cp = cu) as -> by congruence. assert (w' = w) as -> by congruence.
  destruct (IH _ _ _ _ Hlink Hcv Hc) as (z & cz & Hlast & Hcz & Hwalk & Hle').
  exists z, cz. split; [done|]. split; [done|]. split; [|lra].
  eapply walk_proper; [by eapply walk_cons|]. lra.
Qed.
(** With an admissible heuristic, the path a search returns is a walk of
  least weight, or the empty path when there is no walk. *)
Lemma search_result fuel fuel' e_vid came_from p :
admissible rn e_vid hf ->
search_loop fuel rn priority_of (Some e_vid) (search_init s_vid) = Ok came_from ->
construct_path fuel' rn s_vid e_vid came_from = Ok p ->
(p = empty_path /\ forall g, ~ walk rn s_vid e_vid g)
\/ (walk rn s_vid e_vid (distance p)
    /\ forall g, walk rn s_vid e_vid g -> (distance p <= g)%Q).
Proof.
intros Hadm Hloop Hpath.
destruct (search_loop_exit _ _ _ _ search_inv_init Hloop)
  as (st & Hinv & -> & Hexit).
destruct (st.2 !! e_vid) as [ce|] eqn:Hce.
- right. unfold construct_path in Hpath. inv_bind Hpath. rename a into l.
  destruct (construct_vertex_list_linked _ st fuel' e_vid [] l Hinv)
    as (l' & -> & Hlink & Hlast); [by eauto|done|done|].
  inv_bind Hpath. destruct a as [e_list d]. injection Hpath as <-. simpl.
  destruct (inv_start _ _ Hinv) as [Hs0 _].
  destruct (construct_edge_list_walk _ st _ _ _ _ _ _ _ Hinv Hlink Hs0 Ha0)
    as (z & cz & Hz & Hcz & Hwalk & Hle).
  rewrite Hlast in Hz. injection Hz as <-.
  assert (cz = ce) as -> by congruence.
  split; [eapply walk_proper; [done|lra]|].
  intros g Hg.
  destruct (exit_bound st e_vid g Hadm Hinv) as (c & Hc & Hcg); [|done|].
  + destruct Hexit as [?|(current & frontier' & ? & ?)]; [by left|].
    right. eauto.
  + assert (c = ce) as -> by congruence. lra.
- left. split.
  + eapply construct_path_unreached; [| |done].
    * intros ->. destruct (inv_start _ _ Hinv). congruence.
    * destruct (st.1.2 !! e_vid) eqn:Hcf; [|done].
      destruct (cost_of_came_from _ st e_vid Hinv) as [c Hc]; [by eauto|].
      congruence.
  + intros g Hg.
    destruct (exit_bound st e_vid g Hadm Hinv) as (c & Hc & _); [|done|congruence].
    destruct Hexit as [?|(current & frontier' & ? & ?)]; [by left|].
    right. eauto.
Qed.
End relaxation.

(** The distance of a rebuilt path is the sum of the weights of the
    edges of its edge list, added in the same order. *)
Lemma construct_edge_list_sum rn v_list e_list d e_list' d' :
  construct_edge_list rn v_list e_list d = Ok (e_list', d') ->
  exists es, e_list' = e_list ++ es /\ edge_weight_sum rn es d = Some d'.
Proof.
  revert e_list d. induction v_list as [|u l IH]; intros e_list d Hc.
  - injection Hc as <- <-. exists []. by rewrite app_nil_r.
  - destruct l as [|v l].
    + injection Hc as <- <-. exists []. by rewrite app_nil_r.
    + cbn [construct_edge_list] in Hc.
      inv_bind Hc as eid Heid. inv_bind Hc as w Hw.
      apply IH in Hc as (es & -> & Hsum).
      unfold get_eid in Heid. inv_bind Heid as vx Hvx. injection Heid as <-.
      unfold get_weight in Hw. inv_bind Hw as vx' Hvx'.
      assert (vx' = vx) as -> by congruence.
      destruct (connected_to vx !! v) as [e_id|] eqn:He; [|discriminate].
      inv_bind Hw as e Hedge. apply getitem_Ok in Hedge. injection Hw as <-.
      exists (Some e_id :: es). split; [by rewrite <- app_assoc|].
      simpl. by rewrite Hedge.
Qed.

Lemma construct_path_sum fuel rn s_vid e_vid came_from p :
  construct_path fuel rn s_vid e_vid came_from = Ok p ->
  edge_weight_sum rn (edge_list p) 0 = Some (distance p).
Proof.
  unfold construct_path. intros Hp. inv_bind Hp. inv_bind Hp.
  destruct a0 as [e_list d]. injection Hp as <-. simpl.
  by apply construct_edge_list_sum in Ha0 as (es & -> & Hsum).
Qed.

(** ** road_network.py: A* against Dijkstra *)

Section astar_facts.
Context `{Geo}.

Lemma astar_priority_spec rn e_vid n c p :
astar_priority rn e_vid n c = Ok p -> (p == c + straight_line rn e_vid n)%Q.
Proof.
unfold astar_priority, straight_line. intros Hp. inv_bind Hp.
injection Hp as <-. rewrite Ha. simpl. lra.
Qed.

Lemma no_heuristic_admissible rn e_vid :
nonneg_weights rn -> admissible rn e_vid (fun _ => 0%Q).
Proof.
intros Hnn u. split; [lra|]. intros r Hr. by eapply walk_nonneg.
Qed.

End astar_facts.

Lemma nonneg_weights_list rn :
  Forall (fun ke : Z * Edge => (0 <= weight ke.2)%Q) (map_to_list (edge_set rn)) ->
  nonneg_weights rn.
Proof.
  intros Hall e_id e He. apply elem_of_map_to_list in He.
  rewrite Forall_forall in Hall. by apply (Hall (e_id, e)).
Qed.


(** ** The searches on the concrete world *)

Lemma ex_rn_no_edge_from_3 v : ~ road_edge ex_rn 3 v.
Proof.
  intros (vx & Hvx & Hv). vm_compute in Hvx. injection Hvx as <-.
  simpl in Hv. change (is_Some ((∅ : gmap Z Z) !! v)) in Hv.
  rewrite lookup_empty in Hv. by destruct Hv.
Qed.

Lemma ex_rn_3_reaches v : reachable ex_rn 3 v -> v = 3.
Proof.
  intros Hr. apply rtc_inv in Hr as [->|(y & He & _)]; [done|].
  by apply ex_rn_no_edge_from_3 in He.
Qed.


Lemma ex_rn_vertices u vx :
  vertex_set ex_rn !! u = Some vx -> u = 1 \/ u = 2 \/ u = 3.
Proof.
  intros Hu. apply elem_of_map_to_list in Hu.
  set (l := map_to_list (vertex_set ex_rn)) in Hu. vm_compute in l. subst l.
  rewrite !elem_of_cons in Hu.
  destruct Hu as [Hu|[Hu|[Hu|Hu%elem_of_nil]]]; try done; injection Hu; auto.
Qed.

Lemma ex_rn_weight m v w :
  get_weight ex_rn m v = Ok w ->
  (m = 1 /\ v = 2 /\ w = 700%Q) \/ (m = 2 /\ v <> 2 /\ (0 <= w)%Q).
Proof.
  unfold get_weight. intros Hw. inv_bind Hw as vx Hvx. apply getitem_Ok in Hvx.
  destruct (connected_to vx !! v) as [e_id|] eqn:He; [|discriminate].
  apply elem_of_map_to_list in He.
  destruct (ex_rn_vertices _ _ Hvx) as [->|[->| ->]];
    vm_compute in Hvx; injection Hvx as <-;
    match type of He with _ ∈ ?m => set (l := m) in He; vm_compute in l; subst l end;
    rewrite ?elem_of_cons in He.
  - destruct He as [He|[]%elem_of_nil].
    injection He as Hv He'. subst v e_id.
    vm_compute in Hw. injection Hw as <-. left. repeat split.
  - destruct He as [He|[He|[]%elem_of_nil]];
      injection He as Hv He'; subst v e_id;
      vm_compute in Hw; injection Hw as <-; right; (split; [reflexivity|]);
      (split; [lia|]); vm_compute; discriminate.
  - destruct (proj1 (elem_of_nil _) He).
Qed.

Lemma ex_rn_straight_line u :
  (0 <= straight_line (H := equator_geo) ex_rn 2 u)%Q
  /\ (u <> 3 -> (straight_line (H := equator_geo) ex_rn 2 u <= 700)%Q).
Proof.
  unfold straight_line, get_straight_distance, get_vertex.
  destruct (vertex_set ex_rn !! u) as [vx|] eqn:Hu;
    [|clear Hu; simpl; split; [|intros _]; vm_compute; discriminate].
  destruct (ex_rn_vertices _ _ Hu) as [->|[->| ->]];
    vm_compute in Hu; injection Hu as <-;
    (split; [vm_compute; discriminate|]);
    intros Hne; try lia; vm_compute; discriminate.
Qed.

Lemma ex_rn_walk_from_3 v c : walk ex_rn 3 v c -> v = 3.
Proof.
  intros Hw. remember 3 as a eqn:Ha.
  induction Hw as [a c1 H0|a m v c1 w c2 Hw IH Hg H1]; [done|].
  specialize (IH Ha). subst.
  apply ex_rn_weight in Hg as [(Hm & _)|(Hm & _)]; discriminate Hm.
Qed.

Lemma ex_rn_walk_to_2 u r :
  walk ex_rn u 2 r ->
  (u = 2 /\ (0 <= r)%Q) \/ (u <> 3 /\ (700 <= r)%Q).
Proof.
  intros Hw. inversion Hw as [u' c Hc|u' m v c w c' Hwm Hg Hc']; subst.
  - left. split; [done|lra].
  - apply ex_rn_weight in Hg as [(-> & _ & ->)|(_ & Hne & _)]; [|done].
    right. split.
    + intros ->. apply ex_rn_walk_from_3 in Hwm. discriminate Hwm.
    + assert (0 <= c)%Q; [|lra].
      clear Hw Hc'. induction Hwm as [a c0 H0|a m v c0 w c1 Hw IH Hg H1]; [lra|].
      apply ex_rn_weight in Hg as [(_ & _ & ->)|(_ & _ & ?)]; lra.
Qed.

Lemma ex_rn_admissible :
  admissible ex_rn 2 (straight_line (H := equator_geo) ex_rn 2).
Proof.
  intros u. destruct (ex_rn_straight_line u) as [H0 H700]. split; [done|].
  intros r Hw. apply ex_rn_walk_to_2 in Hw as [[-> Hr]|[Hne Hr]].
  - assert (straight_line (H := equator_geo) ex_rn 2 2 == 0)%Q as ->
      by (vm_compute; reflexivity).
    done.
  - specialize (H700 Hne). lra.
Qed.

Lemma ex_rn_nonneg : nonneg_weights ex_rn.
Proof.
  apply nonneg_weights_list.
  set (l := map_to_list (edge_set ex_rn)). vm_compute in l. subst l.
  repeat (apply Forall_cons_2; [vm_compute; discriminate|]). apply Forall_nil_2.
Qed.


(** ** taxi.py: what a drive step changes *)

Section cargo_facts.
Context `{Geo}.

Lemma update_route_cargo fuel t rn node t' :
update_route fuel t rn node = Ok t' -> cargo t' = cargo t.
Proof.
unfold update_route. destruct (schedule t) as [|head rest] eqn:Hs.
- by intros [= <-].
- intros Hu. inv_bind Hu as hd Hhd.
  destruct (match node with Some n => matched_vid n | None => v_id t end);
    [|discriminate].
  destruct (matched_vid hd); [|discriminate].
  inv_bind Hu as r Hr. destruct (edge_list r); by injection Hu as <-.
Qed.

Lemma update_pos_cargo t timestamp new_pos database t' database' :
update_pos t timestamp new_pos database = Ok (t', database') ->
cargo t' = cargo t.
Proof.
unfold update_pos. destruct (decide _).
- intros Hu. inv_bind Hu as old Hold. inv_bind Hu as old' Hold'.
  inv_bind Hu as new Hnew. by injection Hu as <- <-.
- by intros [= <- <-].
Qed.
End cargo_facts.

Section drive_facts.
Context `{Geo}.

Lemma arrive_outcome fuel timestamp rn w w' :
arrive fuel timestamp rn w = Ok w' ->
drive_outcome (w_taxi w) (w_query_set w) (w_taxi w') (w_query_set w').
Proof.
unfold arrive. destruct (schedule (w_taxi w)) as [|head rest] eqn:Hs;
  [discriminate|].
intros Ha. inv_bind Ha as node Hnode. apply deref_Ok in Hnode. subst head.
destruct (w_query_set w !! sn_query_id node) as [query|] eqn:Hq;
  [|discriminate].
simpl in Ha. unfold getref in Ha. rewrite Hq in Ha. simpl in Ha.
inv_bind Ha as r Hr. destruct r as [[t1 d1] qs1].
inv_bind Ha as t2 Ht2. inv_bind Ha as db2 Hdb2. injection Ha as <-. simpl.
apply update_route_cargo in Ht2.
destruct (is_origin node) eqn:Ho.
- destruct (decide (status query = WAITING)) as [Hst|Hst].
  + inv_bind Hr as r1 Hr1. destruct r1 as [t1' qs1'].
    inv_bind Hr as d1' Hd1. injection Hr as <- <- <-.
    unfold serve_query, getref in Hr1. simpl in Hr1. rewrite Hq in Hr1.
    simpl in Hr1. injection Hr1 as <- <-.
    eapply drive_picks_up; eauto.
  + inv_bind Hr as sched' Hsched. injection Hr as <- <- <-.
    eapply drive_skips; eauto.
- inv_bind Hr as r1 Hr1. destruct r1 as [t1' qs1']. injection Hr as <- <- <-.
  unfold satisfy_query, getref in Hr1. simpl in Hr1. rewrite Hq in Hr1.
  simpl in Hr1. inv_bind Hr1 as sq Hsq. injection Hr1 as <- <-.
  apply dict_pop_Ok in Hsq as [Hsome ->].
  eapply drive_drops_off; eauto.
Qed.

Lemma drive_outcome_same_cargo t0 t qs t' qs' :
cargo t = cargo t0 -> drive_outcome t qs t' qs' -> drive_outcome t0 qs t' qs'.
Proof.
unfold cargo. intros [= Hcap Hnum Hsch Hsq] Hd.
destruct Hd as [Hc Hq|node rest query Hs Ho Hq Hst Hc Hqs
               |node rest query sched' Hs Ho Hq Hst Hrm Hc Hqs
               |node rest query Hs Ho Hq Hsome Hc Hqs].
- apply drive_moves; [|done]. unfold cargo in *. congruence.
- rewrite Hcap, Hnum, Hsq in Hc. rewrite Hsch in Hs.
  by eapply drive_picks_up.
- rewrite Hcap, Hnum, Hsq in Hc. rewrite Hsch in Hs.
  by eapply drive_skips.
- rewrite Hcap, Hnum, Hsq in Hc. rewrite Hsch in Hs. rewrite Hsq in Hsome.
  by eapply drive_drops_off.
Qed.

Lemma drive_drive_outcome fuel timestamp rn w w' :
drive fuel timestamp rn w = Ok w' ->
drive_outcome (w_taxi w) (w_query_set w) (w_taxi w') (w_query_set w').
Proof.
unfold drive. destruct (route_edges (route (w_taxi w))) as [re|].
2:{ intros [= <-]. by apply drive_moves. }
intros Hd. inv_bind Hd as cur_edge Hce. inv_bind Hd as to_vertex Htv.
inv_bind Hd as theta Hth. inv_bind Hd as next_pos Hnp.
inv_bind Hd as sv Hsv. inv_bind Hd as edge_offset Heo.
destruct (Qltb edge_offset (weight cur_edge)).
- inv_bind Hd as r Hr. destruct r as [t1 db1]. injection Hd as <-.
  apply update_pos_cargo in Hr. by apply drive_moves.
- inv_bind Hd as r Hr. destruct r as [t1 db1].
  apply update_pos_cargo in Hr.
  inv_bind Hd as e He. inv_bind Hd as next_eid Hne.
  destruct next_eid as [next|].
  + inv_bind Hd as i Hi. injection Hd as <-. by apply drive_moves.
  + apply arrive_outcome in Hd. simpl in Hd.
    eapply drive_outcome_same_cargo; [|exact Hd]. exact Hr.
Qed.
End drive_facts.

(** ** The fleet invariant *)

Lemma paired_origin_head node rest :
  paired (Some node :: rest) ->
  exists vo vd rest',
    node = mkScheduleNode (sn_query_id node) true vo
    /\ rest = Some (mkScheduleNode (sn_query_id node) false vd) :: rest'
    /\ paired rest'.
Proof. inversion 1; subst. simpl. eauto 10. Qed.

Lemma paired_no_riding_head t : paired (schedule t) -> riding_head t = None.
Proof. unfold riding_head. by inversion 1. Qed.

Lemma paired_append l q vo vd :
  paired l ->
  paired ((l ++ [Some (mkScheduleNode q true vo)])
            ++ [Some (mkScheduleNode q false vd)]).
Proof.
  induction 1 as [|q' vo' vd' rest Hp IH]; simpl.
  - apply paired_cons, paired_nil.
  - by apply paired_cons.
Qed.

Lemma riding_head_cargo t t' : cargo t' = cargo t -> riding_head t' = riding_head t.
Proof. unfold cargo, riding_head. by intros [= _ _ -> _]. Qed.

Lemma taxi_state_ok_cargo qs t t' :
  cargo t' = cargo t -> taxi_state_ok qs t -> taxi_state_ok qs t'.
Proof.
  intros Hc. unfold taxi_state_ok. rewrite (riding_head_cargo _ _ Hc).
  unfold cargo in Hc. injection Hc as _ -> -> ->. done.
Qed.

(** The state of a taxi only depends on the status of the query it
    rides with. *)
Lemma taxi_state_ok_status qs qs' t :
  (forall q, riding_head t = Some q -> status <$> qs !! q = Some RIDING ->
             status <$> qs' !! q = Some RIDING) ->
  taxi_state_ok qs t -> taxi_state_ok qs' t.
Proof.
  unfold taxi_state_ok. intros Hq. destruct (riding_head t) as [q|]; [|done].
  intros (? & ? & ? & ?). repeat split; try done. by apply Hq.
Qed.

Lemma well_formed_set_status qs k q st :
  well_formed_queries qs -> qs !! k = Some q ->
  well_formed_queries (<[k := set_status q st]> qs).
Proof.
  intros Hwf Hq j q'. destruct (decide (k = j)) as [<-|Hne].
  - rewrite lookup_insert_eq. intros [= <-]. by apply Hwf in Hq.
  - rewrite lookup_insert_ne by done. apply Hwf.
Qed.

(** One call of [drive] keeps the fleet invariant.  A status that it
    changes moves from [WAITING] to [RIDING], and the driven taxi is then
    the only one whose schedule is headed by the destination of the
    query; or it moves from [RIDING] to [SATISFIED], and the schedule of
    the driven taxi was headed by the destination of the query. *)
Lemma fleet_drive_step ts qs x t t' qs' :
  fleet_inv ts qs -> ts !! x = Some t -> drive_outcome t qs t' qs' ->
  fleet_inv (<[x := t']> ts) qs'
  /\ forall j q, qs !! j = Some q ->
       exists q', qs' !! j = Some q'
         /\ (status q' = status q
             \/ (status q = WAITING /\ status q' = RIDING
                 /\ forall k t2, <[x := t']> ts !! k = Some t2 ->
                                 riding_head t2 = Some j -> k = x)
             \/ (status q = RIDING /\ status q' = SATISFIED
                 /\ riding_head t = Some j)).
Proof.
  intros (Hwf & Hok & Huniq) Hx Hd.
  destruct (Hok _ _ Hx) as [Hcap Hst].
  destruct Hd as [Hc ->|node rest query Hs Ho Hq Hstat Hc ->
                 |node rest query sched' Hs Ho Hq Hstat Hrm Hc ->
                 |node rest query Hs Ho Hq Hsome Hc ->].
  - (* the cargo is untouched *)
    split; [|by eauto].
    pose proof (riding_head_cargo _ _ Hc) as Hh.
    split; [done|]. split.
    + intros k t2. destruct (decide (x = k)) as [<-|Hne].
      * rewrite lookup_insert_eq. intros [= <-]. split.
        -- unfold cargo in Hc. injection Hc as -> _ _ _. done.
        -- by eapply taxi_state_ok_cargo.
      * rewrite lookup_insert_ne by done. apply Hok.
    + intros k1 k2 t1 t2 q H1 H2 Hh1 Hh2.
      assert (Hold : forall k t0, <[x := t']> ts !! k = Some t0 ->
                       exists t1, ts !! k = Some t1 /\ riding_head t1 = riding_head t0).
      { intros k t0. destruct (decide (x = k)) as [<-|Hne].
        - rewrite lookup_insert_eq. intros [= <-]. eauto.
        - rewrite lookup_insert_ne by done. eauto. }
      destruct (Hold _ _ H1) as (u1 & Hu1 & E1), (Hold _ _ H2) as (u2 & Hu2 & E2).
      apply (Huniq k1 k2 u1 u2 q Hu1 Hu2); congruence.
  - (* a pick-up *)
    assert (Hnone : riding_head t = None)
      by (unfold riding_head; by rewrite Hs, Ho).
    unfold taxi_state_ok in Hst. rewrite Hnone, Hs in Hst.
    destruct Hst as (Hp & Hsq & Hnum).
    apply paired_origin_head in Hp as (vo & vd & rest' & Hnode & -> & Hp').
    set (q := sn_query_id node) in *.
    destruct (Hwf _ _ Hq) as (Hid & _). rewrite Hid, Hsq, Hnum in Hc.
    assert (Hh' : riding_head t' = Some q).
    { unfold riding_head. unfold cargo in Hc. injection Hc as _ _ -> _. done. }
    assert (Hother : forall k t2, k <> x -> ts !! k = Some t2 ->
                                  riding_head t2 <> Some q).
    { intros k t2 Hne Hk Hh. destruct (Hok _ _ Hk) as [_ Hst2].
      unfold taxi_state_ok in Hst2. rewrite Hh in Hst2.
      destruct Hst2 as (_ & _ & _ & Hr). rewrite Hq in Hr. simpl in Hr.
      congruence. }
    split.
    + split; [by apply well_formed_set_status|]. split.
      * intros k t2. destruct (decide (x = k)) as [<-|Hne].
        -- rewrite lookup_insert_eq. intros [= <-]. split.
           ++ unfold cargo in Hc. injection Hc as -> _ _ _. done.
           ++ unfold taxi_state_ok. rewrite Hh'. unfold cargo in Hc.
              injection Hc as _ -> -> ->. simpl.
              repeat split; try done. by rewrite lookup_insert_eq.
        -- rewrite lookup_insert_ne by done. intros Hk.
           destruct (Hok _ _ Hk) as [Hcap2 Hst2]. split; [done|].
           eapply taxi_state_ok_status; [|exact Hst2].
           intros q2 Hh2 Hr2. rewrite lookup_insert_ne; [done|].
           intros <-. by apply (Hother k t2).
      * intros k1 k2 t1 t2 j H1 H2 Hh1 Hh2.
        destruct (decide (x = k1)) as [<-|Hne1], (decide (x = k2)) as [<-|Hne2];
          try done.
        -- rewrite lookup_insert_eq in H1. injection H1 as <-.
           rewrite lookup_insert_ne in H2 by done.
           exfalso. apply (Hother k2 t2); [done|done|congruence].
        -- rewrite lookup_insert_eq in H2. injection H2 as <-.
           rewrite lookup_insert_ne in H1 by done.
           exfalso. apply (Hother k1 t1); [done|done|congruence].
        -- rewrite lookup_insert_ne in H1, H2 by done. by eapply Huniq.
    + intros j qj Hj. destruct (decide (q = j)) as [<-|Hne].
      * rewrite lookup_insert_eq. eexists. split; [done|]. right. left.
        assert (qj = query) as -> by congruence. simpl.
        split; [done|]. split; [done|].
        intros k t2 Hk Hh2. destruct (decide (k = x)) as [|Hkx]; [done|].
        rewrite lookup_insert_ne in Hk by done. by destruct (Hother k t2).
      * rewrite lookup_insert_ne by done. eauto.
  - (* the destination node of a query that is not picked up goes *)
    assert (Hnone : riding_head t = None)
      by (unfold riding_head; by rewrite Hs, Ho).
    unfold taxi_state_ok in Hst. rewrite Hnone, Hs in Hst.
    destruct Hst as (Hp & Hsq & Hnum).
    apply paired_origin_head in Hp as (vo & vd & rest' & Hnode & -> & Hp').
    destruct (Hwf _ _ Hq) as (Hid & _). rewrite Hid in Hrm. simpl in Hrm.
    destruct (decide (sn_query_id node = sn_query_id node)); [|done].
    injection Hrm as <-.
    assert (Hh' : riding_head t' = None).
    { apply paired_no_riding_head. unfold cargo in Hc.
      injection Hc as _ _ -> _. done. }
    split; [|by eauto].
    split; [done|]. split.
    + intros k t2. destruct (decide (x = k)) as [<-|Hne].
      * rewrite lookup_insert_eq. intros [= <-]. split.
        -- unfold cargo in Hc. injection Hc as -> _ _ _. done.
        -- unfold taxi_state_ok. rewrite Hh'. unfold cargo in Hc.
           injection Hc as _ -> -> ->. done.
      * rewrite lookup_insert_ne by done. apply Hok.
    + intros k1 k2 t1 t2 j H1 H2 Hh1 Hh2.
      destruct (decide (x = k1)) as [<-|Hne1].
      { rewrite lookup_insert_eq in H1. injection H1 as <-. congruence. }
      destruct (decide (x = k2)) as [<-|Hne2].
      { rewrite lookup_insert_eq in H2. injection H2 as <-. congruence. }
      rewrite lookup_insert_ne in H1, H2 by done. by eapply Huniq.
  - (* a drop-off *)
    assert (Hh : riding_head t = Some (sn_query_id node))
      by (unfold riding_head; by rewrite Hs, Ho).
    set (q := sn_query_id node) in *.
    unfold taxi_state_ok in Hst. rewrite Hh, Hs in Hst. simpl in Hst.
    destruct Hst as (Hp & Hsq & Hnum & Hr).
    destruct (Hwf _ _ Hq) as (Hid & _). rewrite Hid, Hsq, Hnum in Hc.
    rewrite delete_singleton_eq in Hc.
    assert (Hh' : riding_head t' = None).
    { apply paired_no_riding_head. unfold cargo in Hc.
      injection Hc as _ _ -> _. done. }
    assert (Hother : forall k t2, k <> x -> ts !! k = Some t2 ->
                                  riding_head t2 <> Some q).
    { intros k t2 Hne Hk Hh2. apply Hne. by eapply Huniq. }
    split.
    + split; [by apply well_formed_set_status|]. split.
      * intros k t2. destruct (decide (x = k)) as [<-|Hne].
        -- rewrite lookup_insert_eq. intros [= <-]. split.
           ++ unfold cargo in Hc. injection Hc as -> _ _ _. done.
           ++ unfold taxi_state_ok. rewrite Hh'. unfold cargo in Hc.
              injection Hc as _ -> -> ->. done.
        -- rewrite lookup_insert_ne by done. intros Hk.
           destruct (Hok _ _ Hk) as [Hcap2 Hst2]. split; [done|].
           eapply taxi_state_ok_status; [|exact Hst2].
           intros q2 Hh2 Hr2. rewrite lookup_insert_ne; [done|].
           intros <-. by apply (Hother k t2).
      * intros k1 k2 t1 t2 j H1 H2 Hh1 Hh2.
        destruct (decide (x = k1)) as [<-|Hne1].
        { rewrite lookup_insert_eq in H1. injection H1 as <-. congruence. }
        destruct (decide (x = k2)) as [<-|Hne2].
        { rewrite lookup_insert_eq in H2. injection H2 as <-. congruence. }
        rewrite lookup_insert_ne in H1, H2 by done. by eapply Huniq.
    + intros j qj Hj. destruct (decide (q = j)) as [<-|Hne].
      * rewrite lookup_insert_eq. eexists. split; [done|]. right. right.
        assert (qj = query) as -> by congruence. simpl.
        rewrite Hq in Hr. simpl in Hr. injection Hr as Hr. done.
      * rewrite lookup_insert_ne by done. eauto.
Qed.

Lemma foldM_invariant_split {A S} (f : A -> S -> res S)
  (P : list A -> S -> Prop) (l : list A) (s s' : S) :
  P [] s ->
  (forall processed x todo s1 s2,
      l = processed ++ x :: todo -> P processed s1 -> f x s1 = Ok s2 ->
      P (processed ++ [x]) s2) ->
  foldM f l s = Ok s' ->
  P l s'.
Proof.
  intros Hinit Hstep.
  assert (Hgen : forall todo processed s1,
             l = processed ++ todo -> P processed s1 ->
             foldM f todo s1 = Ok s' -> P (processed ++ todo) s').
  { induction todo as [|x todo IH]; intros processed s1 Hl HP Hf; simpl in Hf.
    - injection Hf as <-. by rewrite app_nil_r.
    - inv_bind Hf as s2 Hs2.
      replace (processed ++ x :: todo) with ((processed ++ [x]) ++ todo)
        by (by rewrite <- app_assoc).
      apply (IH _ s2); [by rewrite <- app_assoc| |done].
      by eapply Hstep. }
  intros Hf. by apply (Hgen l [] s).
Qed.

(** The invariant carries over to a fleet whose taxis kept their
    capacity and the head of their schedule, and to a query set in which
    the riding queries still ride. *)
Lemma fleet_inv_replace ts qs ts' qs' :
  fleet_inv ts qs ->
  well_formed_queries qs' ->
  (forall q, status <$> qs !! q = Some RIDING -> status <$> qs' !! q = Some RIDING) ->
  (forall k t', ts' !! k = Some t' ->
     exists t, ts !! k = Some t /\ riding_head t' = riding_head t
               /\ capacity t' = capacity t
               /\ (taxi_state_ok qs t -> taxi_state_ok qs t')) ->
  fleet_inv ts' qs'.
Proof.
  intros (Hwf & Hok & Huniq) Hwf' Hride Hts. split; [done|]. split.
  - intros k t' Hk. destruct (Hts _ _ Hk) as (t & Ht & Hh & Hcap & Hst).
    destruct (Hok _ _ Ht) as [Hc Hs]. split; [by rewrite Hcap|].
    eapply taxi_state_ok_status; [|by apply Hst]. intros q _. apply Hride.
  - intros k1 k2 t1 t2 q H1 H2 Hh1 Hh2.
    destruct (Hts _ _ H1) as (u1 & Hu1 & E1 & _).
    destruct (Hts _ _ H2) as (u2 & Hu2 & E2 & _).
    apply (Huniq k1 k2 u1 u2 q Hu1 Hu2); congruence.
Qed.

(** ** dispatcher.py keeps the fleet invariant *)

Lemma same_status_refl qs : same_status qs qs.
Proof. by intros k. Qed.

Lemma same_status_trans qs1 qs2 qs3 :
  same_status qs1 qs2 -> same_status qs2 qs3 -> same_status qs1 qs3.
Proof. intros H1 H2 k. by rewrite H2, H1. Qed.

Section dispatch_inv.
Context `{Geo}.

Lemma Dispatcher_schedule_fleet fuel ref candidates ts qs rn ok ts' qs' :
fleet_inv ts qs ->
Dispatcher_schedule fuel ref candidates ts qs rn = Ok (ok, ts', qs') ->
fleet_inv ts' qs' /\ same_status qs qs'.
Proof.
intros Hinv Hs. unfold Dispatcher_schedule in Hs.
destruct candidates as [|first others].
{ injection Hs as <- <- <-. split; [done|apply same_status_refl]. }
inv_bind Hs as query Hq. apply getref_Ok in Hq.
inv_bind Hs as st Hst. inv_bind Hs as picked Hp. apply getitem_Ok in Hp.
inv_bind Hs as t2 Ht2. injection Hs as <- <- <-.
apply update_route_cargo in Ht2.
assert (Hsame : same_status qs (<[ref := set_matched_taxi query (Some st.1)]> qs)).
{ intros k. destruct (decide (ref = k)) as [<-|Hne].
  - rewrite lookup_insert_eq, Hq. done.
  - by rewrite lookup_insert_ne. }
split; [|done].
pose proof Hinv as (Hwf & Hok & Huniq).
destruct (Hwf _ _ Hq) as (Hid & [vo Ho] & [vd Hd]).
eapply fleet_inv_replace; [exact Hinv| | |].
- intros k q. destruct (decide (ref = k)) as [<-|Hne].
  + rewrite lookup_insert_eq. intros [= <-]. repeat split; simpl; eauto.
  + rewrite lookup_insert_ne by done. apply Hwf.
- intros q Hr. by rewrite Hsame.
- intros k t'. destruct (decide (st.1 = k)) as [<-|Hne].
  + rewrite lookup_insert_eq. intros [= <-]. exists picked.
    split; [done|].
    unfold cargo in Ht2. simpl in Ht2. injection Ht2 as Hcap Hnum Hsch Hsq.
    assert (Hhead : riding_head t2 = riding_head picked).
    { unfold riding_head. rewrite Hsch, Ho.
      by destruct (schedule picked) as [|[hd|] tl]. }
    split; [done|]. split; [done|].
    unfold taxi_state_ok. rewrite Hhead, Hsch, Hnum, Hsq, Ho, Hd.
    destruct (riding_head picked) as [q|] eqn:Hh.
    * intros (Hpair & ? & ? & ?). repeat split; try done.
      unfold riding_head in Hh.
      destruct (schedule picked) as [|hd tl]; [done|]. simpl in *.
      by apply paired_append.
    * intros (Hpair & ? & ?). repeat split; try done.
      by apply paired_append.
  + rewrite lookup_insert_ne by done. intros Hk. exists t'. eauto.
Qed.

Lemma dispatch_taxi_fleet fuel d timestamp ref database ts qs rn d' ts' qs' :
fleet_inv ts qs ->
dispatch_taxi fuel d timestamp ref database ts qs rn = Ok (d', ts', qs') ->
fleet_inv ts' qs' /\ same_status qs qs'.
Proof.
intros Hinv Hd. unfold dispatch_taxi in Hd.
inv_bind Hd as query Hq. inv_bind Hd as candidates Hc.
inv_bind Hd as r Hr. destruct r as [[ok ts1] qs1].
apply (Dispatcher_schedule_fleet _ _ _ _ _ _ _ _ _ Hinv) in Hr.
destruct ok; by injection Hd as <- <- <-.
Qed.

Lemma process_queries_fleet n fuel timestamp rn database waiting d ts qs d' ts' qs' :
fleet_inv ts qs ->
process_queries n fuel timestamp rn database waiting (d, ts, qs)
= Ok (d', ts', qs') ->
fleet_inv ts' qs' /\ same_status qs qs'.
Proof.
revert waiting d ts qs.
induction n as [|n IH]; intros waiting d ts qs Hinv Hp; simpl in Hp;
  destruct (pq_get waiting) as [[ref waiting']|];
  try discriminate;
  try (injection Hp as <- <- <-; split; [done|apply same_status_refl]).
inv_bind Hp as query Hq. inv_bind Hp as st1 Hst1.
destruct st1 as [[d1 ts1] qs1].
assert (H1 : fleet_inv ts1 qs1 /\ same_status qs qs1).
{ destruct (decide (status query = CANCELLED)).
  - injection Hst1 as <- <- <-. split; [done|apply same_status_refl].
  - by eapply dispatch_taxi_fleet. }
destruct H1 as [Hinv1 Hsame1].
destruct (IH _ _ _ _ Hinv1 Hp) as [Hinv' Hsame']. split; [done|].
by eapply same_status_trans.
Qed.
End dispatch_inv.

(** ** query.py: the status update *)

Lemma update_status_status q timestamp :
  status (update_status q timestamp) = status q
  \/ (status q = WAITING /\ status (update_status q timestamp) = CANCELLED).
Proof.
  unfold update_status. destruct (decide (status q = WAITING)); [|by left].
  simpl. destruct (_ <? _); simpl; auto.
Qed.

Lemma update_status_well_formed k q timestamp :
  well_formed_query k q -> well_formed_query k (update_status q timestamp).
Proof.
  unfold update_status. destruct (decide (status q = WAITING)); [|done].
  simpl. by destruct (_ <? _).
Qed.

Lemma update_all_status_lookup timestamp qs k :
  update_all_status timestamp qs !! k
  = (fun q => if (q_timestamp q <=? timestamp) && bool_decide (status q = WAITING)
              then update_status q timestamp else q) <$> qs !! k.
Proof. unfold update_all_status. by rewrite lookup_fmap. Qed.

(** A pass of status updates cancels waiting queries and touches no
    other status. *)
Lemma update_all_status_status timestamp qs k q :
  qs !! k = Some q ->
  exists q', update_all_status timestamp qs !! k = Some q'
             /\ (status q' = status q
                 \/ (status q = WAITING /\ status q' = CANCELLED)).
Proof.
  intros Hq. rewrite update_all_status_lookup, Hq. simpl. eexists.
  split; [done|]. destruct (_ && _); [apply update_status_status|by left].
Qed.

Lemma update_all_status_fleet timestamp ts qs :
  fleet_inv ts qs -> fleet_inv ts (update_all_status timestamp qs).
Proof.
  intros Hinv. eapply fleet_inv_replace; [exact Hinv| | |].
  - intros k q'. rewrite update_all_status_lookup.
    destruct (qs !! k) as [q|] eqn:Hq; [|done]. simpl. intros [= <-].
    destruct Hinv as (Hwf & _). apply Hwf in Hq.
    destruct (_ && _); [by apply update_status_well_formed|done].
  - intros q. destruct (qs !! q) as [qu|] eqn:Hq; [|done]. simpl.
    intros [= Hr].
    destruct (update_all_status_status timestamp _ _ _ Hq) as (q' & -> & Hst).
    simpl. destruct Hst as [->|[? _]]; congruence.
  - intros k t' Hk. exists t'. eauto.
Qed.

(** ** simulation.py: a whole timestep *)

Lemma lifecycle_from_waiting a :
  WAITING = a \/ lifecycle a WAITING -> a = WAITING.
Proof. intros [?|Hl]; [done|inversion Hl]. Qed.

Section step_inv.
Context `{Geo}.

Lemma drive_taxi_inv fuel timestamp rn qs0 processed x todo l st st' :
NoDup l -> l = processed ++ x :: todo ->
driving_inv qs0 processed st ->
drive_taxi fuel timestamp rn x st = Ok st' ->
driving_inv qs0 (processed ++ [x]) st'.
Proof.
intros Hnd Hl (Hinv & Hadv & Hmoved) Hd.
destruct st as [[[ts d] qs] database]. unfold drive_taxi in Hd.
inv_bind Hd as t Ht. apply getitem_Ok in Ht. inv_bind Hd as w Hw.
injection Hd as <-. simpl in *.
apply drive_drive_outcome in Hw. simpl in Hw.
destruct (fleet_drive_step _ _ _ _ _ _ Hinv Ht Hw) as [Hinv' Hstep].
assert (Hx : x ∉ processed).
{ rewrite Hl in Hnd. apply NoDup_app in Hnd as (_ & Hdis & _).
  intros Hin. apply (Hdis _ Hin). by apply elem_of_cons; left. }
split; [done|]. split.
- simpl. intros j q0 Hq0. destruct (Hadv _ _ Hq0) as (q & Hq & Hst).
  destruct (Hstep _ _ Hq) as (q' & Hq' & Hst').
  exists q'. split; [done|].
  destruct Hst' as [->|[(Hw1 & Hr1 & _)|(Hr1 & Hs1 & Hh)]]; [done| |].
  + right. rewrite Hw1 in Hst. apply lifecycle_from_waiting in Hst.
    rewrite Hst, Hr1. constructor.
  + right. destruct (decide (status q = status q0)) as [E|E].
    * rewrite <- E, Hr1, Hs1. constructor.
    * by destruct (Hmoved _ _ _ Hq0 Hq E x t Hx Ht).
- simpl. intros j q0 q' Hq0 Hq' Hne k t2 Hk Hk2.
  assert (Hkx : k <> x).
  { intros ->. apply Hk. apply elem_of_app. right. by apply list_elem_of_singleton. }
  assert (Hkp : k ∉ processed).
  { intros Hin. apply Hk. apply elem_of_app. by left. }
  pose proof Hk2 as Hk2'. rewrite lookup_insert_ne in Hk2' by done.
  destruct (Hadv _ _ Hq0) as (q & Hq & Hst).
  destruct (Hstep _ _ Hq) as (q1 & Hq1 & Hst1).
  assert (q1 = q') as -> by congruence.
  destruct Hst1 as [E|[(_ & _ & Honly)|(_ & _ & Hh)]].
  + apply (Hmoved _ _ _ Hq0 Hq) with (k := k); [congruence|done|done].
  + intros Hh2. by apply Hkx, (Honly k t2).
  + intros Hh2. apply Hkx. destruct Hinv as (_ & _ & Huniq).
    by apply (Huniq k x t2 t j).
Qed.

(** A timestep of [Simulation.run] keeps the fleet invariant and moves
  every status by at most one step of its lifecycle. *)
Lemma sim_step_inv fuel timestamp s s' :
fleet_inv (taxi_set s) (query_set s) ->
sim_step fuel timestamp s = Ok s' ->
fleet_inv (taxi_set s') (query_set s')
/\ statuses_advance (query_set s) (query_set s').
Proof.
intros Hinv Hs. unfold sim_step in Hs.
inv_bind Hs as r1 Hr1. destruct r1 as [qq waiting0].
inv_bind Hs as waiting Hwait.
inv_bind Hs as r2 Hr2. destruct r2 as [[d1 ts1] qs1].
inv_bind Hs as r3 Hr3. destruct r3 as [[[ts3 d3] qs3] db3].
injection Hs as <-. simpl.
destruct (process_queries_fleet _ _ _ _ _ _ _ _ _ _ _ _ Hinv Hr2)
  as [Hinv1 Hsame].
pose proof (update_all_status_fleet timestamp _ _ Hinv1) as Hinv2.
assert (Hdrive : driving_inv (query_set s) (map_to_list ts1).*1
                   (ts3, d3, qs3, db3)).
{ revert Hr3. apply foldM_invariant_split.
  - split; [done|]. simpl. split.
    + intros j q0 Hq0. pose proof (Hsame j) as Hj. rewrite Hq0 in Hj.
      destruct (qs1 !! j) as [q1|] eqn:Hq1; [|done].
      injection Hj as Hj.
      destruct (update_all_status_status timestamp _ _ _ Hq1)
        as (q2 & Hq2 & Hst).
      exists q2. split; [done|].
      destruct Hst as [->|[Hw ->]]; [by left|].
      right. rewrite <- Hj, Hw. constructor.
    + intros j q0 q Hq0 Hq Hne k t _ Hk Hh.
      destruct Hinv2 as (_ & Hok & _). destruct (Hok _ _ Hk) as [_ Hst].
      unfold taxi_state_ok in Hst. rewrite Hh in Hst.
      destruct Hst as (_ & _ & _ & Hr). rewrite Hq in Hr. injection Hr as Hr.
      pose proof (Hsame j) as Hj. rewrite Hq0 in Hj.
      destruct (qs1 !! j) as [q1|] eqn:Hq1; [|done]. injection Hj as Hj.
      destruct (update_all_status_status timestamp _ _ _ Hq1)
        as (q2 & Hq2 & Hst).
      assert (q2 = q) as -> by congruence.
      destruct Hst as [E|[_ E]]; congruence.
  - intros processed x todo st1 st2 Hl HJ Hd.
    eapply drive_taxi_inv; [|exact Hl|exact HJ|exact Hd].
    apply NoDup_fst_map_to_list. }
destruct Hdrive as (Hinv3 & Hadv & _). by split.
Qed.

Lemma sim_reachable_inv fuel s :
sim_reachable fuel s -> fleet_inv (taxi_set s) (query_set s).
Proof.
induction 1 as [s [Hfresh Hwf]|s timestamp s' Hr IH Hs].
- split; [done|]. split.
  + intros k t Hk. apply Hfresh in Hk. unfold fresh_taxi, cargo in Hk.
    injection Hk as Hcap Hnum Hsch Hsq. split; [by rewrite Hcap|].
    unfold taxi_state_ok, riding_head. rewrite Hsch. repeat split; try done.
    apply paired_nil.
  + intros k1 k2 t1 t2 q H1 _ Hh. apply Hfresh in H1.
    unfold fresh_taxi, cargo in H1. injection H1 as _ _ Hsch _.
    unfold riding_head in Hh. by rewrite Hsch in Hh.
- by destruct (sim_step_inv _ _ _ _ IH Hs).
Qed.

Lemma sim_run_reachable fuel n timestamp s s' :
sim_reachable fuel s -> sim_run fuel n timestamp s = Ok s' ->
sim_reachable fuel s'.
Proof.
revert timestamp s. induction n as [|n IH]; intros timestamp s Hr Hrun;
  simpl in Hrun.
- by injection Hrun as <-.
- inv_bind Hrun as s1 Hs1. eapply IH; [|exact Hrun]. by eapply reach_step.
Qed.

Lemma lifecycle_stage a b : lifecycle a b -> (stage a < stage b)%nat.
Proof. destruct 1; simpl; lia. Qed.

(** Over a run the stage of a status never decreases. *)
Lemma sim_run_stage fuel n timestamp s s' k q :
sim_reachable fuel s -> sim_run fuel n timestamp s = Ok s' ->
query_set s !! k = Some q ->
exists q', query_set s' !! k = Some q'
           /\ (stage (status q) <= stage (status q'))%nat.
Proof.
revert timestamp s q. induction n as [|n IH]; intros timestamp s q Hr Hrun Hq;
  simpl in Hrun.
- injection Hrun as <-. eauto.
- inv_bind Hrun as s1 Hs1.
  destruct (sim_step_inv _ _ _ _ (sim_reachable_inv _ _ Hr) Hs1) as [_ Hadv].
  destruct (Hadv _ _ Hq) as (q1 & Hq1 & Hst).
  destruct (IH _ _ _ (reach_step _ _ _ _ Hr Hs1) Hrun Hq1) as (q' & Hq' & Hle).
  exists q'. split; [done|].
  destruct Hst as [E|Hl]; [by rewrite <- E|].
  apply lifecycle_stage in Hl. lia.
Qed.

(** C2: after every timestep of a run, every taxi of the taxi set holds
  between 0 and [capacity] riders, as many as the entries of its
  [serving_queries]. *)
Theorem riders_within_capacity
(fuel : nat) (s : Simulation) (timestamp : Z) (s' : Simulation) :
sim_reachable fuel s ->
sim_step fuel timestamp s = Ok s' ->
forall k t, taxi_set s' !! k = Some t ->
  0 <= num_riders t <= capacity t
  /\ num_riders t = Z.of_nat (size (serving_queries t)).
Proof.
intros Hr Hs k t Hk.
destruct (sim_step_inv _ _ _ _ (sim_reachable_inv _ _ Hr) Hs)
  as [(_ & Hok & _) _].
destruct (Hok _ _ Hk) as [Hcap Hst]. unfold taxi_state_ok in Hst.
destruct (riding_head t) as [q|].
- destruct Hst as (_ & -> & -> & _). rewrite map_size_singleton. lia.
- destruct Hst as (_ & -> & ->). rewrite map_size_empty. lia.
Qed.

(** C8: in a timestep of a run the status of a query stays as it is or
  moves from [WAITING] to [RIDING], from [WAITING] to [CANCELLED] or
  from [RIDING] to [SATISFIED]; and a status that a query has left in
  the timestep is not taken again in the rest of the run. *)
Theorem status_follows_lifecycle
(fuel : nat) (s : Simulation) (timestamp : Z) (s' : Simulation) :
sim_reachable fuel s ->
sim_step fuel timestamp s = Ok s' ->
forall k q, query_set s !! k = Some q ->
  exists q', query_set s' !! k = Some q'
    /\ (status q' = status q \/ lifecycle (status q) (status q'))
    /\ forall n timestamp' s'' q'',
         sim_run fuel n timestamp' s' = Ok s'' ->
         query_set s'' !! k = Some q'' ->
         status q' <> status q -> status q'' <> status q.
Proof.
intros Hr Hs k q Hq.
destruct (sim_step_inv _ _ _ _ (sim_reachable_inv _ _ Hr) Hs) as [_ Hadv].
destruct (Hadv _ _ Hq) as (q' & Hq' & Hst). exists q'.
split; [done|]. split; [done|].
intros n timestamp' s'' q'' Hrun Hq'' Hne.
destruct Hst as [E|Hl]; [done|]. apply lifecycle_stage in Hl.
destruct (sim_run_stage _ _ _ _ _ _ _ (reach_step _ _ _ _ Hr Hs) Hrun Hq')
  as (q2 & Hq2 & Hle).
assert (q2 = q'') as -> by congruence.
intros E. rewrite E in Hle. lia.
Qed.
End step_inv.

(** ** A run of the concrete world *)

Lemma ex_sim_initial : sim_initial ex_sim.
Proof.
  split.
  - intros k t Hk. change (taxi_set ex_sim) with ({[1 := ex_taxi]} : gmap Z Taxi) in Hk.
    apply lookup_singleton_Some in Hk as [_ <-]. reflexivity.
  - intros k q Hq. apply elem_of_map_to_list in Hq.
    set (l := map_to_list (query_set ex_sim)) in Hq. vm_compute in l. subst l.
    apply list_elem_of_singleton in Hq. injection Hq as -> ->.
    split; [reflexivity|]. split; eexists; reflexivity.
Qed.

Lemma ex_sim_after_99 :
  sim_run (H := equator_geo) 10 99 ex_start ex_sim = Ok (ex_sim_after 99).
Proof. vm_compute. reflexivity. Qed.

Lemma ex_sim_step_100 :
  sim_step (H := equator_geo) 10 (ex_start + 99) (ex_sim_after 99)
  = Ok (ex_sim_after 100).
Proof. vm_compute. reflexivity. Qed.

Lemma ex_sim_reachable_99 : sim_reachable (H := equator_geo) 10 (ex_sim_after 99).
Proof.
  eapply sim_run_reachable; [|exact ex_sim_after_99].
  apply reach_initial, ex_sim_initial.
Qed.

Lemma riders_within_capacity_witness :
  exists t,
    taxi_set (ex_sim_after 100) !! 1 = Some t
    /\ num_riders t = 1
    /\ 0 <= num_riders t <= capacity t
    /\ num_riders t = Z.of_nat (size (serving_queries t)).
Proof.
  destruct (taxi_set (ex_sim_after 100) !! 1) as [t|] eqn:Ht;
    [|vm_compute in Ht; discriminate Ht].
  exists t. split; [reflexivity|].
  split; [vm_compute in Ht; injection Ht as <-; reflexivity|].
  exact (riders_within_capacity (H := equator_geo) 10 (ex_sim_after 99)
           (ex_start + 99) (ex_sim_after 100) ex_sim_reachable_99
           ex_sim_step_100 1 t Ht).
Defined.

Lemma status_follows_lifecycle_witness :
  exists q q',
    query_set (ex_sim_after 99) !! 0 = Some q
    /\ query_set (ex_sim_after 100) !! 0 = Some q'
    /\ status q = WAITING /\ status q' = RIDING
    /\ (status q' = status q \/ lifecycle (status q) (status q')).
Proof.
  destruct (query_set (ex_sim_after 99) !! 0) as [q|] eqn:Hq;
    [|vm_compute in Hq; discriminate Hq].
  destruct (status_follows_lifecycle (H := equator_geo) 10 (ex_sim_after 99)
              (ex_start + 99) (ex_sim_after 100) ex_sim_reachable_99
              ex_sim_step_100 0 q Hq) as (q' & Hq' & Hst & _).
  exists q, q'. split; [reflexivity|]. split; [exact Hq'|].
  split; [vm_compute in Hq; injection Hq as <-; reflexivity|].
  split; [vm_compute in Hq'; injection Hq' as <-; reflexivity|exact Hst].
Defined.

(** ** road_network.py: further properties *)


Lemma construct_edge_list_length rn v_list e_list d e_list' d' :
  construct_edge_list rn v_list e_list d = Ok (e_list', d') ->
  length e_list' = (length e_list + (length v_list - 1))%nat.
Proof.
  revert e_list d. induction v_list as [|u l IH]; intros e_list d Hc.
  - injection Hc as <- <-. simpl. lia.
  - destruct l as [|v l].
    + injection Hc as <- <-. simpl. lia.
    + cbn [construct_edge_list] in Hc.
      inv_bind Hc as eid Heid. inv_bind Hc as w Hw.
      apply IH in Hc. rewrite Hc, length_app. simpl. lia.
Qed.




(** ** road_network.py: the networks the class builds *)

Lemma size_insert_decide `{Countable K} {A} (m : gmap K A) (k : K) (x : A) :
  Z.of_nat (size (<[k := x]> m))
  = if decide (is_Some (m !! k)) then Z.of_nat (size m)
    else Z.of_nat (size m) + 1.
Proof.
  destruct (decide (is_Some (m !! k))) as [[y Hy]|Hn].
  - by erewrite map_size_insert_Some.
  - rewrite map_size_insert_None; [lia|].
    destruct (m !! k) eqn:E; [|done]. exfalso. apply Hn. by eexists.
Qed.

Lemma add_vertex_vertex_set_ok rn v_id lat lon :
  vertex_set_ok rn -> vertex_set_ok (add_vertex rn v_id lat lon).
Proof.
  intros (Hn & Hid & Hadj). unfold add_vertex. split; [|split]; simpl.
  - rewrite size_insert_decide, Hn. by destruct (decide _).
  - intros k vx. destruct (decide (v_id = k)) as [->|Hne].
    + rewrite lookup_insert_eq. by intros [= <-].
    + rewrite lookup_insert_ne by done. apply Hid.
  - intros u vx v e. destruct (decide (v_id = u)) as [->|Hne].
    + rewrite lookup_insert_eq. intros [= <-]. simpl.
      by rewrite lookup_empty.
    + rewrite lookup_insert_ne by done. intros Hu Hv.
      destruct (Hadj _ _ _ _ Hu Hv) as [Hv' He]. split; [|done].
      destruct (decide (v_id = v)) as [->|Hne'].
      * rewrite lookup_insert_eq. by eexists.
      * by rewrite lookup_insert_ne.
Qed.

Lemma add_edge_ok rn e_id start_v end_v w rn' :
  vertex_set_ok rn -> edge_set_ok rn ->
  add_edge rn e_id start_v end_v w = Ok rn' ->
  vertex_set_ok rn' /\ edge_set_ok rn'.
Proof.
  intros Hv [Hne Heid]. unfold add_edge.
  set (rn1 := mkRoadNetwork _ _ _ _).
  assert (Hn1 : num_edge rn1 = Z.of_nat (size (<[e_id := mkEdge e_id start_v end_v w]> (edge_set rn)))).
  { rewrite size_insert_decide, <-Hne. done. }
  assert (He1 : edge_set rn1 = edge_set rn) by done.
  assert (Hv1 : vertex_set_ok rn1) by done.
  clearbody rn1.
  set (rn2 := if decide (is_Some (vertex_set rn1 !! start_v)) then rn1
              else add_vertex rn1 start_v None None).
  assert (Hn2 : num_edge rn2 = num_edge rn1 /\ edge_set rn2 = edge_set rn1
                /\ vertex_set_ok rn2).
  { subst rn2. destruct (decide (is_Some (vertex_set rn1 !! start_v))); [done|].
    split; [done|]. split; [done|]. by apply add_vertex_vertex_set_ok. }
  destruct Hn2 as (Hn2 & He2 & Hv2). clearbody rn2.
  set (rn3 := if decide (is_Some (vertex_set rn2 !! end_v)) then rn2
              else add_vertex rn2 end_v None None).
  assert (Hn3 : num_edge rn3 = num_edge rn2 /\ edge_set rn3 = edge_set rn2
                /\ vertex_set_ok rn3 /\ is_Some (vertex_set rn3 !! end_v)).
  { subst rn3. destruct (decide (is_Some (vertex_set rn2 !! end_v))); [done|].
    split; [done|]. split; [done|].
    split; [by apply add_vertex_vertex_set_ok|].
    unfold add_vertex. simpl. rewrite lookup_insert_eq. by eexists. }
  destruct Hn3 as (Hn3 & He3 & (Hnv & Hid & Hadj) & Hend). clearbody rn3.
  intros Hadd. inv_bind Hadd as vx Hvx. apply getitem_Ok in Hvx.
  injection Hadd as <-. split; [split; [|split]|split]; simpl.
  - by erewrite map_size_insert_Some.
  - intros k vx'. destruct (decide (start_v = k)) as [->|Hnk].
    + rewrite lookup_insert_eq. intros [= <-]. simpl. by eapply Hid.
    + rewrite lookup_insert_ne by done. apply Hid.
  - assert (Hkeep : forall v, is_Some (vertex_set rn3 !! v) ->
        is_Some (<[start_v := add_neighbor vx end_v e_id]> (vertex_set rn3) !! v)).
    { intros v Hv'. destruct (decide (start_v = v)) as [->|Hnv'].
      - rewrite lookup_insert_eq. by eexists.
      - by rewrite lookup_insert_ne. }
    assert (Hkeep_e : forall e, is_Some (edge_set rn3 !! e) ->
        is_Some (<[e_id := mkEdge e_id start_v end_v w]> (edge_set rn3) !! e)).
    { intros e He'. destruct (decide (e_id = e)) as [->|Hne'].
      - rewrite lookup_insert_eq. by eexists.
      - by rewrite lookup_insert_ne. }
    intros u vx' v e. destruct (decide (start_v = u)) as [->|Hnu].
    + rewrite lookup_insert_eq. intros [= <-]. simpl.
      destruct (decide (end_v = v)) as [->|Hnv'].
      * rewrite lookup_insert_eq. intros [= <-]. split; [by apply Hkeep|].
        rewrite lookup_insert_eq. by eexists.
      * rewrite lookup_insert_ne by done. intros Hv'.
        destruct (Hadj _ _ _ _ Hvx Hv'). split; [by apply Hkeep|by apply Hkeep_e].
    + rewrite lookup_insert_ne by done. intros Hu Hv'.
      destruct (Hadj _ _ _ _ Hu Hv'). split; [by apply Hkeep|by apply Hkeep_e].
  - rewrite Hn3, Hn2, Hn1, He3, He2, He1. done.
  - intros k e. rewrite He3, He2, He1.
    destruct (decide (e_id = k)) as [->|Hnk].
    + rewrite lookup_insert_eq. by intros [= <-].
    + rewrite lookup_insert_ne by done. apply Heid.
Qed.

Lemma built_ok rn : built rn -> vertex_set_ok rn /\ edge_set_ok rn.
Proof.
  induction 1 as [|rn v_id lat lon _ [IHv IHe]|rn e_id s t w rn' _ [IHv IHe] Hadd].
  - unfold vertex_set_ok, edge_set_ok. simpl. repeat split; try done.
    all: intros *; by rewrite lookup_empty.
  - split; [by apply add_vertex_vertex_set_ok|done].
  - by eapply add_edge_ok.
Qed.

Lemma built_neighbors_are_vertices rn : built rn -> neighbors_are_vertices rn.
Proof.
  intros [(_ & _ & Hadj) _]%built_ok u v (vx & Hu & [e He]).
  by destruct (Hadj _ _ _ _ Hu He).
Qed.

(** In every network built from [RoadNetwork()] by [add_vertex] and
    [add_edge], [num_vertex] and [num_edge] count the vertices and the
    edges stored, every vertex and edge is stored under its own id, and
    every adjacency entry names a stored vertex and a stored edge; so
    [get_weight] from a stored vertex never raises [KeyError]. *)
Theorem built_network_is_consistent (rn : RoadNetwork) :
  built rn ->
  num_vertex rn = Z.of_nat (size (vertex_set rn))
  /\ num_edge rn = Z.of_nat (size (edge_set rn))
  /\ (forall k vx, vertex_set rn !! k = Some vx -> vertex_id vx = k)
  /\ (forall k e, edge_set rn !! k = Some e -> edge_id e = k)
  /\ neighbors_are_vertices rn
  /\ (forall u v, is_Some (vertex_set rn !! u) ->
        get_weight rn u v <> Err KeyError).
Proof.
  intros Hb. pose proof (built_neighbors_are_vertices _ Hb) as Hnv.
  destruct (built_ok _ Hb) as [(Hn & Hid & Hadj) (Hne & Heid)].
  repeat split; try done.
  intros u v [vx Hu]. unfold get_weight, getitem. rewrite Hu. simpl.
  destruct (connected_to vx !! v) as [e|] eqn:He; [|done].
  destruct (Hadj _ _ _ _ Hu He) as [_ [ed Hed]]. by rewrite Hed.
Qed.

Lemma ex_rn_is_built : built ex_rn.
Proof.
  pose proof ex_rn_built as Hb. unfold ex_rn_build in Hb.
  inv_bind Hb as rn1 H1. inv_bind Hb as rn2 H2.
  eapply built_add_edge; [|exact Hb].
  eapply built_add_edge; [|exact H2].
  eapply built_add_edge; [|exact H1].
  repeat apply built_add_vertex. apply built_init.
Qed.

Lemma built_network_is_consistent_witness :
  num_vertex ex_rn = Z.of_nat (size (vertex_set ex_rn))
  /\ num_edge ex_rn = Z.of_nat (size (edge_set ex_rn))
  /\ neighbors_are_vertices ex_rn.
Proof.
  destruct (built_network_is_consistent ex_rn ex_rn_is_built)
    as (Hn & He & _ & _ & Hnv & _).
  split; [exact Hn|]. split; [exact He|]. exact Hnv.
Defined.
(** ** road_network.py: [is_reachable] *)

Lemma road_edge_get_neighbors rn u nbrs v :
  get_neighbors rn u = Ok nbrs -> road_edge rn u v -> v ∈ nbrs.
Proof.
  unfold get_neighbors. intros Hn (vx & Hvx & [e He]).
  inv_bind Hn as vx' Hvx'. apply getitem_Ok in Hvx'.
  injection Hn as <-. assert (vx' = vx) as -> by congruence.
  apply list_elem_of_fmap. exists (v, e). split; [done|].
  by apply elem_of_map_to_list.
Qed.

(** What one pass over the neighbours of [current] does to the frontier
    and to [came_from]. *)
Lemma bfs_visit_fold current l st :
  let st' := foldl (fun st n => bfs_visit current n st) st l in
  (forall k, is_Some (st.2 !! k) -> is_Some (st'.2 !! k))
  /\ (forall x, x ∈ st.1 -> x ∈ st'.1)
  /\ (forall k, is_Some (st'.2 !! k) ->
        is_Some (st.2 !! k) \/ (k ∈ st'.1 /\ k ∈ l))
  /\ (forall n, n ∈ l -> is_Some (st'.2 !! n))
  /\ (forall x, x ∈ st'.1 -> x ∈ st.1 \/ x ∈ l)
  /\ (length st'.1 + size st.2 = length st.1 + size st'.2)%nat.
Proof.
  revert st. induction l as [|n l IH]; intros st; simpl.
  - repeat split; auto. intros m Hm. by apply elem_of_nil in Hm.
  - specialize (IH (bfs_visit current n st)). simpl in IH.
    destruct IH as (Ha & Hb & Hc & Hd & He & Hf).
    set (st' := foldl _ _ l) in *.
    assert (Hv : (forall k, is_Some (st.2 !! k) ->
                    is_Some ((bfs_visit current n st).2 !! k))
                 /\ (forall x, x ∈ st.1 -> x ∈ (bfs_visit current n st).1)
                 /\ (forall k, is_Some ((bfs_visit current n st).2 !! k) ->
                       is_Some (st.2 !! k)
                       \/ (k = n /\ k ∈ (bfs_visit current n st).1))
                 /\ is_Some ((bfs_visit current n st).2 !! n)
                 /\ (forall x, x ∈ (bfs_visit current n st).1 ->
                       x ∈ st.1 \/ x = n)
                 /\ (length (bfs_visit current n st).1 + size st.2
                     = length st.1 + size (bfs_visit current n st).2)%nat).
    { destruct st as [fr cf]. unfold bfs_visit. simpl.
      destruct (cf !! n) as [o|] eqn:Hn; simpl.
      - repeat split; eauto.
      - unfold Queue_put. repeat split.
        + intros k Hk. destruct (decide (n = k)) as [->|Hne].
          * rewrite lookup_insert_eq. by eexists.
          * by rewrite lookup_insert_ne.
        + intros x Hx. apply elem_of_app. by left.
        + intros k Hk. destruct (decide (n = k)) as [->|Hne].
          * right. split; [done|]. apply elem_of_app. right.
            by apply list_elem_of_singleton.
          * rewrite lookup_insert_ne in Hk by done. by left.
        + rewrite lookup_insert_eq. by eexists.
        + intros x [Hx|Hx%list_elem_of_singleton]%elem_of_app; auto.
        + rewrite length_app, map_size_insert_None by done. simpl. lia. }
    destruct Hv as (Va & Vb & Vc & Vd & Ve & Vf).
    split; [auto|]. split; [auto|]. split.
    { intros k Hk. destruct (Hc k Hk) as [Hk'|[Hk1 Hk2]].
      - destruct (Vc k Hk') as [?|[-> Hk2]]; [by left|].
        right. split; [auto|]. by apply elem_of_cons; left.
      - right. split; [done|]. by apply elem_of_cons; right. }
    split.
    { intros m [->|Hm]%elem_of_cons; auto. }
    split.
    { intros x Hx. destruct (He x Hx) as [Hx'|Hx'].
      - destruct (Ve x Hx') as [?| ->]; [by left|].
        right. by apply elem_of_cons; left.
      - right. by apply elem_of_cons; right. }
    lia.
Qed.

Section reachability.
Context (rn : RoadNetwork) (s_vid e_vid : Z).

(** The frontier holds keys of [came_from], all reachable from the
    start; a key that left the frontier is not the end vertex and has
    all its neighbours among the keys. *)
Definition explored (frontier : list Z) (came_from : gmap Z (option Z))
  : Prop :=
is_Some (came_from !! s_vid)
/\ (forall x, x ∈ frontier -> reachable rn s_vid x)
/\ (forall k, is_Some (came_from !! k) ->
      k ∈ frontier
      \/ (k <> e_vid /\ forall v, road_edge rn k v -> is_Some (came_from !! v))).

Lemma explored_closed came_from :
explored [] came_from ->
forall x, reachable rn s_vid x -> is_Some (came_from !! x) /\ x <> e_vid.
Proof.
intros (Hs & _ & Hk) x Hx.
assert (Hin : is_Some (came_from !! x)).
{ revert x Hx. apply rtc_ind_r; [done|]. intros y z _ Hyz IH.
  destruct (Hk _ IH) as [[]%elem_of_nil|[_ Hc]]. by apply Hc. }
split; [done|]. destruct (Hk _ Hin) as [[]%elem_of_nil|[Hne _]]. done.
Qed.

Lemma explored_step current frontier came_from nbrs :
explored (current :: frontier) came_from ->
current <> e_vid ->
get_neighbors rn current = Ok nbrs ->
explored (foldl (fun st n => bfs_visit current n st) (frontier, came_from) nbrs).1
         (foldl (fun st n => bfs_visit current n st) (frontier, came_from) nbrs).2.
Proof.
intros (Hs & Hf & Hk) Hne Hn.
destruct (bfs_visit_fold current nbrs (frontier, came_from))
  as (Ha & Hb & Hc & Hd & He & _).
simpl in *. set (st' := foldl _ _ nbrs) in *.
assert (Hcur : reachable rn s_vid current) by (apply Hf; by left).
split; [by apply Ha|]. split.
- intros x Hx. destruct (He x Hx) as [Hx'|Hx'].
  + apply Hf. by right.
  + eapply reachable_step; [done|]. by eapply get_neighbors_edge.
- intros k Hk'. destruct (Hc k Hk') as [Hold|[Hnew _]]; [|by left].
  destruct (Hk k Hold) as [[->|Hin]%elem_of_cons|[Hke Hcl]].
  + right. split; [done|]. intros v Hv. apply Hd.
    by eapply road_edge_get_neighbors.
  + left. by apply Hb.
  + right. split; [done|]. intros v Hv. apply Ha. by apply Hcl.
Qed.

Lemma is_reachable_loop_sound fuel frontier came_from b :
explored frontier came_from ->
is_reachable_loop fuel rn e_vid frontier came_from = Ok b ->
b = true <-> reachable rn s_vid e_vid.
Proof.
revert frontier came_from.
induction fuel as [|fuel IH]; intros frontier came_from Hex Hloop;
  simpl in Hloop; destruct frontier as [|current frontier']; simpl in Hloop.
- injection Hloop as <-. split; [done|]. intros Hr.
  by destruct (explored_closed _ Hex _ Hr).
- destruct (decide (current = e_vid)) as [->|Hne]; [|discriminate].
  injection Hloop as <-. split; [|done]. intros _.
  destruct Hex as (_ & Hf & _). apply Hf. by left.
- injection Hloop as <-. split; [done|]. intros Hr.
  by destruct (explored_closed _ Hex _ Hr).
- destruct (decide (current = e_vid)) as [->|Hne].
  + injection Hloop as <-. split; [|done]. intros _.
    destruct Hex as (_ & Hf & _). apply Hf. by left.
  + inv_bind Hloop as nbrs Hn.
    pose proof (explored_step _ _ _ _ Hex Hne Hn) as Hex'.
    destruct (foldl _ _ nbrs) as [frontier'' came_from'].
    by eapply IH.
Qed.

(** The loop returns once its fuel covers the vertices that are not yet
    keys of [came_from] and the vertices waiting in the frontier. *)
Lemma is_reachable_loop_returns fuel frontier came_from :
neighbors_are_vertices rn ->
(forall x, x ∈ frontier -> is_Some (vertex_set rn !! x)) ->
(forall k, is_Some (came_from !! k) -> is_Some (vertex_set rn !! k)) ->
(size (vertex_set rn) + length frontier <= fuel + size came_from)%nat ->
exists b, is_reachable_loop fuel rn e_vid frontier came_from = Ok b.
Proof.
intros Hwf. revert frontier came_from.
induction fuel as [|fuel IH]; intros frontier came_from Hfr Hcf Hsz;
  simpl; destruct frontier as [|current frontier']; simpl; eauto;
  destruct (decide (current = e_vid)) as [->|Hne]; eauto.
- exfalso. simpl in Hsz.
  assert (size came_from <= size (vertex_set rn))%nat; [|lia].
  rewrite <-!size_dom. apply subseteq_size.
  intros k Hk%elem_of_dom. apply elem_of_dom. auto.
- destruct (Hfr current) as [vx Hvx]; [by left|].
  unfold get_neighbors, getitem. rewrite Hvx. simpl.
  set (nbrs := (map_to_list (connected_to vx)).*1).
  assert (Hn : get_neighbors rn current = Ok nbrs).
  { unfold get_neighbors, getitem. by rewrite Hvx. }
  destruct (bfs_visit_fold current nbrs (frontier', came_from))
    as (Ha & Hb & Hc & Hd & He & Hlen).
  simpl in *. destruct (foldl _ _ nbrs) as [frontier'' came_from'].
  simpl in *. apply IH.
  + intros x Hx. destruct (He x Hx) as [Hx'|Hx'].
    * apply Hfr. by right.
    * eapply Hwf, get_neighbors_edge; eauto.
  + intros k Hk. destruct (Hc k Hk) as [Hk'|[_ Hk']]; [auto|].
    eapply Hwf, get_neighbors_edge; eauto.
  + lia.
Qed.
End reachability.

(** On a network whose recorded neighbours are all vertices,
    [is_reachable] from a vertex returns within as many expansions as
    there are vertices, and it returns [True] exactly when a chain of
    edges leads from the start vertex to the end vertex. *)
Theorem is_reachable_decides_reachability
  (rn : RoadNetwork) (s_vid e_vid : Z) :
  neighbors_are_vertices rn ->
  is_Some (vertex_set rn !! s_vid) ->
  exists b,
    is_reachable (size (vertex_set rn)) rn s_vid e_vid = Ok b
    /\ (b = true <-> reachable rn s_vid e_vid).
Proof.
  intros Hwf Hs. unfold is_reachable, Queue_put. simpl.
  destruct (is_reachable_loop_returns rn e_vid (size (vertex_set rn))
              [s_vid] {[s_vid := None]} Hwf) as [b Hb].
  - by intros x ->%list_elem_of_singleton.
  - by intros k [o [<- _]%lookup_singleton_Some].
  - rewrite map_size_singleton. simpl. lia.
  - exists b. split; [done|].
    eapply (is_reachable_loop_sound rn s_vid); [|done].
    split; [by rewrite lookup_singleton_eq|]. split.
    + intros x ->%list_elem_of_singleton. apply rtc_refl.
    + intros k [o [<- _]%lookup_singleton_Some]. left.
      by apply list_elem_of_singleton.
Qed.

Lemma ex_rn_neighbors_are_vertices : neighbors_are_vertices ex_rn.
Proof. apply built_neighbors_are_vertices, ex_rn_is_built. Qed.

Lemma is_reachable_decides_reachability_witness :
  is_reachable (size (vertex_set ex_rn)) ex_rn 1 3 = Ok true
  /\ reachable ex_rn 1 3
  /\ is_reachable (size (vertex_set ex_rn)) ex_rn 3 1 = Ok false
  /\ ~ reachable ex_rn 3 1.
Proof.
  destruct (is_reachable_decides_reachability ex_rn 1 3
              ex_rn_neighbors_are_vertices) as (b & Hb & Hiff);
    [vm_compute; eauto|].
  destruct (is_reachable_decides_reachability ex_rn 3 1
              ex_rn_neighbors_are_vertices) as (b' & Hb' & Hiff');
    [vm_compute; eauto|].
  vm_compute in Hb. injection Hb as <-.
  vm_compute in Hb'. injection Hb' as <-.
  split; [vm_compute; reflexivity|]. split; [by apply Hiff|].
  split; [vm_compute; reflexivity|]. intros Hr. by apply Hiff' in Hr.
Defined.



(** ** Searching from a vertex to itself *)

Section same_vertex.
Context `{Geo}.

Lemma search_same_vertex fuel rn priority_of v :
search_loop fuel rn priority_of (Some v) (search_init v) = Ok {[v := None]}.
Proof.
destruct fuel; simpl; by destruct (decide (Some v = Some v)).
Qed.

Lemma construct_path_same_vertex fuel rn v came_from :
construct_path fuel rn v v came_from = Ok (mkPath [v] [] 0%Q).
Proof.
unfold construct_path.
assert (construct_vertex_list fuel came_from v v [v] = Ok [v]) as ->.
{ destruct fuel; simpl; by destruct (decide (v = v)). }
done.
Qed.

Lemma get_shortest_path_same_vertex fuel rn v :
get_shortest_path fuel rn v v = Ok (mkPath [v] [] 0%Q).
Proof.
unfold get_shortest_path. rewrite search_same_vertex. simpl.
apply construct_path_same_vertex.
Qed.

(** From a vertex to itself every search returns, whatever the network
  and the fuel, the path that holds this vertex alone: no edge and
  distance 0.  The vertex need not even be in the network. *)
Theorem search_to_same_vertex (fuel : nat) (rn : RoadNetwork) (v : Z) :
get_shortest_path fuel rn v v = Ok (mkPath [v] [] 0%Q)
/\ dijkstra fuel rn v v = Ok (mkPath [v] [] 0%Q)
/\ greedy_bfs fuel rn v v = Ok (mkPath [v] [] 0%Q)
/\ bfs fuel rn v v = Ok (mkPath [v] [] 0%Q).
Proof.
split; [apply get_shortest_path_same_vertex|].
unfold dijkstra, greedy_bfs, bfs.
rewrite !search_same_vertex. simpl.
assert (greedy_loop fuel rn v (pq_put [] v 0%Q, {[v := None]})
        = Ok {[v := None]}) as ->.
{ destruct fuel; simpl; by destruct (decide (v = v)). }
assert (bfs_loop fuel rn v (Queue_put [] v) {[v := None]}
        = Ok {[v := None]}) as ->.
{ destruct fuel; simpl; by destruct (decide (v = v)). }
simpl. by rewrite !construct_path_same_vertex.
Qed.

(** A taxi that stands on the vertex matched to the head of its schedule
  gets from [update_route] a route without edges, and [drive] then
  returns at once, at every timestamp: the taxi stays where it is and
  the head of its schedule is never reached. *)
Theorem taxi_on_matched_vertex_never_arrives
(fuel : nat) (t : Taxi) (rn : RoadNetwork)
(head : ScheduleNode) (rest : list (option ScheduleNode)) (v : Z) :
schedule t = Some head :: rest ->
matched_vid head = Some v ->
v_id t = Some v ->
let t' := set_route t (Some (mkPath [v] [] 0%Q)) in
update_route fuel t rn None = Ok t'
/\ schedule t' = Some head :: rest
/\ forall fuel' timestamp d qs db,
     drive fuel' timestamp rn (mkWorld t' d qs db) = Ok (mkWorld t' d qs db).
Proof.
intros Hs Hm Hv. simpl. split; [|split].
- unfold update_route. rewrite Hs, Hv. simpl. rewrite Hm.
  by rewrite get_shortest_path_same_vertex.
- done.
- intros. unfold drive. simpl. done.
Qed.
End same_vertex.

Lemma taxi_on_matched_vertex_never_arrives_witness :
  let t := set_schedule ex_taxi [Some (mkScheduleNode 0 true (Some 2))] in
  let t' := set_route t (Some (mkPath [2] [] 0%Q)) in
  update_route (H := equator_geo) 10 t ex_rn None = Ok t'
  /\ drive (H := equator_geo) 10 ex_start ex_rn
       (mkWorld t' Dispatcher_init ex_query_set ex_db)
     = Ok (mkWorld t' Dispatcher_init ex_query_set ex_db).
Proof.
  destruct (taxi_on_matched_vertex_never_arrives (H := equator_geo) 10
              (set_schedule ex_taxi [Some (mkScheduleNode 0 true (Some 2))])
              ex_rn (mkScheduleNode 0 true (Some 2)) [] 2
              eq_refl eq_refl eq_refl) as (Hu & _ & Hd).
  split; [exact Hu|apply Hd].
Defined.

(** ** spatio_temporal_index.py: further properties *)

Lemma elem_of_keys_list `{Countable K} {V} (m : gmap K V) (k : K) :
  k ∈ (map_to_list m).*1 <-> is_Some (m !! k).
Proof.
  rewrite list_elem_of_fmap. split.
  - intros ([k' v] & -> & Hin). apply elem_of_map_to_list in Hin. by eexists.
  - intros [v Hv]. exists (k, v). split; [done|]. by apply elem_of_map_to_list.
Qed.

Lemma load_vertex_fresh_cells rn v_id database database' :
  fresh_cells database ->
  load_vertex rn v_id database = Ok database' ->
  fresh_cells database'.
Proof.
  intros [Hn Hc] Hload. unfold load_vertex in Hload.
  inv_bind Hload as vx Hvx.
  set (gh := loc_geohash (vertex_location vx)) in *.
  destruct (grid database !! gh) as [c|] eqn:Hgh.
  - injection Hload as <-. split; simpl.
    + by erewrite map_size_insert_Some.
    + intros g c'. destruct (decide (gh = g)) as [<-|Hne].
      * rewrite lookup_insert_eq. intros [= <-]. simpl. by apply Hc.
      * rewrite lookup_insert_ne by done. apply Hc.
  - inv_bind Hload as nc Hnc. injection Hload as <-. split; simpl.
    + rewrite map_size_insert_None by done. lia.
    + intros g c'. destruct (decide (gh = g)) as [<-|Hne].
      * rewrite lookup_insert_eq. intros [= <-]. simpl.
        unfold GridCell_init in Hnc. inv_bind Hnc as ll Hll.
        destruct ll as [la lo]. by injection Hnc as <-.
      * rewrite lookup_insert_ne by done. apply Hc.
Qed.

(** The grid that [load_road_network] builds from an empty database
    partitions the vertices by geohash: every vertex is in the cell of
    its geohash, a cell holds only vertices of its own geohash and at
    least one of them, [num_grid] counts the cells, and every cell is
    otherwise fresh (no anchor, no taxi, empty static lists). *)
Theorem loaded_grid_partitions_vertices
  (rn : RoadNetwork) (database : SpatioTemporalDatabase) :
  load_road_network Database_init rn = Ok database ->
  (forall v_id vx, vertex_set rn !! v_id = Some vx ->
     exists c, grid database !! loc_geohash (vertex_location vx) = Some c
               /\ v_id ∈ cell_vertex_list c)
  /\ (forall g c v_id, grid database !! g = Some c ->
        v_id ∈ cell_vertex_list c ->
        exists vx, vertex_set rn !! v_id = Some vx
                   /\ loc_geohash (vertex_location vx) = g)
  /\ (forall g c, grid database !! g = Some c ->
        cell_vertex_list c <> ∅ /\ cell_geohash c = g /\ anchor c = None
        /\ taxi_list c = ∅)
  /\ num_grid database = Z.of_nat (size (grid database)).
Proof.
  intros Hload. pose proof (load_road_network_cover _ _ Hload) as Hcov.
  assert (Hfresh : fresh_cells database).
  { revert Hload. unfold load_road_network. apply foldM_preserves.
    - split; [done|]. intros g c. simpl. by rewrite lookup_empty.
    - intros x s1 s2 _ Hs1 Hl. by eapply load_vertex_fresh_cells. }
  destruct Hfresh as [Hn Hc].
  split; [|split; [|split; [|done]]].
  - intros v_id vx Hv. specialize (Hcov (loc_geohash (vertex_location vx))).
    destruct (grid database !! loc_geohash (vertex_location vx)) as [c|].
    + exists c. split; [done|]. apply Hcov. split.
      * apply elem_of_keys_list. by eexists.
      * unfold vertex_geohash. by rewrite Hv.
    + exfalso. apply (Hcov v_id).
      * apply elem_of_keys_list. by eexists.
      * unfold vertex_geohash. by rewrite Hv.
  - intros g c v_id Hg Hin. specialize (Hcov g). rewrite Hg in Hcov.
    destruct Hcov as [_ Hcov]. apply Hcov in Hin as [_ Hgeo].
    unfold vertex_geohash in Hgeo.
    destruct (vertex_set rn !! v_id) as [vx|]; [|discriminate].
    exists vx. split; [done|]. by injection Hgeo.
  - intros g c Hg. destruct (Hc g c Hg) as (? & ? & ? & _).
    repeat split; try done. specialize (Hcov g). rewrite Hg in Hcov.
    destruct Hcov as [[v Hv] _]. intros Hempty. rewrite Hempty in Hv.
    by apply elem_of_empty in Hv.
Qed.

Lemma loaded_grid_partitions_vertices_witness :
  (exists c, grid ex_loaded !! "kpbpb"%string = Some c /\ 1 ∈ cell_vertex_list c)
  /\ num_grid ex_loaded = Z.of_nat (size (grid ex_loaded)).
Proof.
  destruct (loaded_grid_partitions_vertices ex_rn ex_loaded ex_loaded_built)
    as (Hin & _ & _ & Hn).
  split; [|exact Hn].
  apply (Hin 1 (mkVertex 1 (Location_init (Some 0%Q) (Some ex_lon1)) {[2 := 1]})).
  vm_compute. reflexivity.
Defined.

(** *** The static lists *)

Lemma insert_by_value_perm x l : insert_by_value x l ≡ₚ x :: l.
Proof.
  induction l as [|y l IH]; simpl; [done|].
  destruct (Qltb y.2 x.2); [|done].
  rewrite IH. apply Permutation_swap.
Qed.

Lemma insert_by_value_ascending x l :
  ascending l -> ascending (insert_by_value x l).
Proof.
  unfold ascending. induction l as [|y l IH]; simpl; intros Hs.
  - by repeat constructor.
  - apply StronglySorted_inv in Hs as [Hs Hy].
    destruct (Qltb y.2 x.2) eqn:Hlt.
    + apply Qltb_lt in Hlt. constructor; [auto|].
      rewrite insert_by_value_perm. constructor; [|done].
      by apply Qlt_le_weak.
    + apply Qltb_ge in Hlt. constructor; [by constructor|].
      constructor; [done|]. eapply Forall_impl; [exact Hy|].
      intros z Hz. simpl in *. by eapply Qle_trans.
Qed.

Lemma sorted_by_value_spec l :
  ascending (sorted_by_value l) /\ sorted_by_value l ≡ₚ l.
Proof.
  unfold sorted_by_value. induction l as [|x l [IHs IHp]]; simpl.
  - split; [constructor|done].
  - split; [by apply insert_by_value_ascending|].
    by rewrite insert_by_value_perm, IHp.
Qed.

(** A loop over the keys of a map that rewrites, at each key, the value
    stored there leaves every key rewritten once, from its first value. *)
Lemma foldM_rewrite_each `{Countable K} {V}
  (step : K -> gmap K V -> res (gmap K V)) (R : K -> V -> V -> Prop)
  (m m' : gmap K V) :
  (forall k g g', step k g = Ok g' ->
     exists c v, g !! k = Some c /\ R k c v /\ g' = <[k := v]> g) ->
  foldM step (map_to_list m).*1 m = Ok m' ->
  forall k,
    match m' !! k with
    | Some v => exists c, m !! k = Some c /\ R k c v
    | None => m !! k = None
    end.
Proof.
  intros Hstep Hfold.
  pose proof (NoDup_fst_map_to_list m) as Hnd.
  pose (P := fun (processed : list K) (g : gmap K V) =>
             forall k,
               (k ∈ processed ->
                exists c v, m !! k = Some c /\ g !! k = Some v /\ R k c v)
               /\ (k ∉ processed -> g !! k = m !! k)).
  assert (Hinv : P (map_to_list m).*1 m').
  { apply (foldM_invariant_split step P _ m); [| |exact Hfold]; unfold P.
    - intros k. split; [by intros ?%elem_of_nil|done].
    - intros processed x todo g g' Hl HP Hs k.
      destruct (Hstep _ _ _ Hs) as (c & v & Hc & HR & ->).
      assert (Hx : x ∉ processed).
      { rewrite Hl in Hnd. apply NoDup_app in Hnd as (_ & Hnd & _).
        intros Hx. apply (Hnd x Hx). by left. }
      destruct (HP x) as [_ Hxm]. rewrite (Hxm Hx) in Hc.
      destruct (decide (x = k)) as [->|Hne].
      + split.
        * intros _. exists c, v. by rewrite lookup_insert_eq.
        * intros Hk. exfalso. apply Hk, elem_of_app. right.
          by apply list_elem_of_singleton.
      + rewrite lookup_insert_ne by done. destruct (HP k) as [Hin Hout].
        split.
        * intros [Hk|Hk%list_elem_of_singleton]%elem_of_app; [auto|done].
        * intros Hk. apply Hout. intros Hk'. apply Hk, elem_of_app. by left. }
  intros k. destruct (Hinv k) as [Hin Hout].
  destruct (decide (k ∈ (map_to_list m).*1)) as [Hk|Hk].
  - destruct (Hin Hk) as (c & v & Hc & -> & HR). eauto.
  - rewrite (Hout Hk). destruct (m !! k) eqn:E; [|done].
    exfalso. apply Hk, elem_of_keys_list. by eexists.
Qed.

(** After [__construct_static_list], the spatial and the temporal grid
    list of every cell hold the entries of the cell's row of the grid
    distance matrix, the first in ascending order of [d] and the second
    in ascending order of [t]; nothing else of the database changes. *)
Theorem static_lists_are_sorted_rows
  (database database' : SpatioTemporalDatabase) :
  construct_static_list database = Ok database' ->
  num_grid database' = num_grid database
  /\ grid_distance_matrix database' = grid_distance_matrix database
  /\ forall i,
       match grid database' !! i with
       | Some c' =>
           exists c row,
             grid database !! i = Some c
             /\ grid_distance_matrix database !! i = Some row
             /\ c' = set_static_lists c (spatial_grid_list c')
                       (temporal_grid_list c')
             /\ ascending (spatial_grid_list c')
             /\ spatial_grid_list c' ≡ₚ map_to_list (mc_d <$> row)
             /\ ascending (temporal_grid_list c')
             /\ temporal_grid_list c' ≡ₚ map_to_list (mc_t <$> row)
       | None => grid database !! i = None
       end.
Proof.
  unfold construct_static_list. intros Hc. inv_bind Hc as g Hg.
  injection Hc as <-. split; [done|]. split; [done|]. simpl.
  intros i.
  pose proof (foldM_rewrite_each (construct_static_cell database)
    (fun i c c' =>
       exists row,
         grid_distance_matrix database !! i = Some row
         /\ c' = set_static_lists c
                   (sorted_by_value (map_to_list (mc_d <$> row)))
                   (sorted_by_value (map_to_list (mc_t <$> row))))
    (grid database) g) as Hall.
  assert (Hstep : forall k g0 g',
             construct_static_cell database k g0 = Ok g' ->
             exists c v, g0 !! k = Some c
               /\ (exists row,
                     grid_distance_matrix database !! k = Some row
                     /\ v = set_static_lists c
                              (sorted_by_value (map_to_list (mc_d <$> row)))
                              (sorted_by_value (map_to_list (mc_t <$> row))))
               /\ g' = <[k := v]> g0).
  { intros k g0 g' Hs. unfold construct_static_cell in Hs.
    inv_bind Hs as row Hrow. inv_bind Hs as c Hcell.
    apply getitem_Ok in Hrow, Hcell. injection Hs as <-.
    exists c. eexists. split; [done|]. split; [|done]. by exists row. }
  specialize (Hall Hstep Hg i).
  destruct (g !! i) as [c'|]; [|done].
  destruct Hall as (c & Hc & row & Hrow & ->). exists c, row. simpl.
  destruct (sorted_by_value_spec (map_to_list (mc_d <$> row))) as [? ?].
  destruct (sorted_by_value_spec (map_to_list (mc_t <$> row))) as [? ?].
  by repeat split.
Qed.

Lemma static_lists_are_sorted_rows_witness :
  exists database',
    construct_static_list
      (mkDatabase (num_grid ex_loaded) (grid ex_loaded) ex_matrix)
    = Ok database'
    /\ forall i,
         match grid database' !! i with
         | Some c' => ascending (temporal_grid_list c')
         | None => True
         end.
Proof.
  destruct (construct_static_list
              (mkDatabase (num_grid ex_loaded) (grid ex_loaded) ex_matrix))
    as [database'|e] eqn:Hc; [|vm_compute in Hc; discriminate Hc].
  exists database'. split; [reflexivity|]. intros i.
  destruct (static_lists_are_sorted_rows _ _ Hc) as (_ & _ & Hall).
  specialize (Hall i). destruct (grid database' !! i) as [c'|]; [|done].
  destruct Hall as (c & row & _ & _ & _ & _ & _ & Hasc & _). exact Hasc.
Defined.
(** *** Closest vertices: anchors and map matching *)

Section closest_facts.
Context `{Geo}.

Lemma closest_vertex_spec rn target vs r :
closest_vertex rn target vs = Ok r -> closest_in rn target vs r.
Proof.
unfold closest_vertex. intros Hc. inv_bind Hc as st Hst. injection Hc as <-.
pose (P := fun (processed : list Z) (st : option Z * option Q) =>
  match st with
  | (Some v, Some d) =>
      v ∈ processed /\ distance_to rn target v d
      /\ forall u du, u ∈ processed -> distance_to rn target u du -> (d <= du)%Q
  | (None, None) => processed = []
  | _ => False
  end).
assert (HP : P (elements vs) st).
{ apply (foldM_invariant (closest_visit rn target) P _ (None, None));
    [done| |exact Hst].
  intros processed x s1 s2 H1 _ Hv. unfold closest_visit in Hv.
  inv_bind Hv as vx Hvx. apply deref_Ok in Hvx. inv_bind Hv as dis Hdis.
  assert (Hx : distance_to rn target x dis) by (by exists vx).
  assert (Huniq : forall du, distance_to rn target x du -> du = dis).
  { intros du (vx' & Hvx' & Hdu). unfold get_vertex in Hvx. congruence. }
  destruct s1 as [[v|] [d|]]; simpl in *; try done.
  - destruct H1 as (Hin & Hd & Hmin).
    destruct (Qltb dis d) eqn:Hlt; injection Hv as <-; simpl.
    + apply Qltb_lt in Hlt. split; [|split; [done|]].
      * apply elem_of_app. right. by apply list_elem_of_singleton.
      * intros u du [Hu|Hu%list_elem_of_singleton]%elem_of_app Hdu.
        -- pose proof (Hmin u du Hu Hdu). lra.
        -- subst u. rewrite (Huniq du Hdu). lra.
    + apply Qltb_ge in Hlt. split; [|split; [done|]].
      * apply elem_of_app. by left.
      * intros u du [Hu|Hu%list_elem_of_singleton]%elem_of_app Hdu.
        -- by apply (Hmin u du).
        -- subst u. by rewrite (Huniq du Hdu).
  - subst processed. injection Hv as <-. simpl. split; [|split; [done|]].
    + by apply list_elem_of_singleton.
    + intros u du Hu%list_elem_of_singleton Hdu. subst u.
      rewrite (Huniq du Hdu). lra. }
unfold closest_in. destruct st as [[v|] [d|]]; simpl in *; try done.
- destruct HP as (Hin & Hd & Hmin). split; [by apply elem_of_elements|].
  exists d. split; [done|]. intros u du Hu. apply Hmin. by apply elem_of_elements.
- by apply elements_empty_inv in HP as ?%leibniz_equiv.
Qed.

(** [map_match] returns a node that carries the query id and the origin
  flag it was given, matched to a vertex of the cell of the location
  that no vertex of this cell is closer to the location than. *)
Theorem map_match_picks_closest_vertex
(query_id : Z) (location : Location) (origin_flag : bool)
(rn : RoadNetwork) (database : SpatioTemporalDatabase) (node : ScheduleNode) :
map_match query_id location origin_flag rn database = Ok node ->
sn_query_id node = query_id
/\ is_origin node = origin_flag
/\ exists c, grid database !! loc_geohash location = Some c
             /\ closest_in rn location (cell_vertex_list c) (matched_vid node).
Proof.
unfold map_match. intros Hm. inv_bind Hm as c Hc. apply getitem_Ok in Hc.
inv_bind Hm as v Hv. injection Hm as <-. simpl.
split; [done|]. split; [done|]. exists c. split; [done|].
by apply closest_vertex_spec.
Qed.

(** After [__determine_anchor] the anchor of every cell is a vertex of
  the cell that no vertex of the cell is closer to the centre of the
  cell than; nothing else of the database changes. *)
Theorem anchors_are_closest_to_centre
(database database' : SpatioTemporalDatabase) (rn : RoadNetwork) :
determine_anchor database rn = Ok database' ->
num_grid database' = num_grid database
/\ grid_distance_matrix database' = grid_distance_matrix database
/\ forall g,
     match grid database' !! g with
     | Some c' =>
         exists c, grid database !! g = Some c
                   /\ c' = set_anchor c (anchor c')
                   /\ closest_in rn (center_location c) (cell_vertex_list c)
                        (anchor c')
     | None => grid database !! g = None
     end.
Proof.
unfold determine_anchor. intros Hd. inv_bind Hd as g Hg. injection Hd as <-.
split; [done|]. split; [done|]. simpl. intros gh.
pose proof (foldM_rewrite_each (determine_anchor_cell rn)
  (fun _ c c' =>
     exists a, c' = set_anchor c a
               /\ closest_in rn (center_location c) (cell_vertex_list c) a)
  (grid database) g) as Hall.
assert (Hstep : forall k g0 g',
           determine_anchor_cell rn k g0 = Ok g' ->
           exists c v, g0 !! k = Some c
             /\ (exists a, v = set_anchor c a
                   /\ closest_in rn (center_location c) (cell_vertex_list c) a)
             /\ g' = <[k := v]> g0).
{ intros k g0 g' Hs. unfold determine_anchor_cell in Hs.
  inv_bind Hs as c Hc. apply getitem_Ok in Hc. inv_bind Hs as a Ha.
  injection Hs as <-. exists c. eexists. split; [done|]. split; [|done].
  exists a. split; [done|]. by apply closest_vertex_spec. }
specialize (Hall Hstep Hg gh). destruct (g !! gh) as [c'|]; [|done].
destruct Hall as (c & Hc & a & -> & Ha). by exists c.
Qed.
End closest_facts.

Lemma map_match_picks_closest_vertex_witness :
  exists node,
    map_match (H := equator_geo) 0 (origin ex_query) true ex_rn ex_db = Ok node
    /\ sn_query_id node = 0 /\ is_origin node = true.
Proof.
  destruct (map_match (H := equator_geo) 0 (origin ex_query) true ex_rn ex_db)
    as [node|e] eqn:Hm; [|vm_compute in Hm; discriminate Hm].
  exists node. split; [reflexivity|].
  destruct (map_match_picks_closest_vertex (H := equator_geo) _ _ _ _ _ _ Hm)
    as (Hq & Ho & _).
  split; [exact Hq|exact Ho].
Defined.

Lemma anchors_are_closest_to_centre_witness :
  exists database',
    determine_anchor (H := equator_geo) ex_loaded ex_rn = Ok database'
    /\ num_grid database' = num_grid ex_loaded.
Proof.
  destruct (determine_anchor (H := equator_geo) ex_loaded ex_rn)
    as [database'|e] eqn:Hd; [|vm_compute in Hd; discriminate Hd].
  exists database'. split; [reflexivity|].
  destruct (anchors_are_closest_to_centre (H := equator_geo) _ _ _ Hd)
    as (Hn & _). exact Hn.
Defined.
(** *** The dynamic lists *)

(** [init_dynamic_info] registers every taxi of the fleet, with the
    start time, in the cell of the taxi's geohash, and changes nothing
    else: the cells keep their keys and static fields, and an id that is
    not a taxi of this cell keeps the entry it had. *)
Theorem init_dynamic_info_registers_fleet
  (database database' : SpatioTemporalDatabase) (fleet : gmap Z Taxi)
  (start_time : Z) :
  init_dynamic_info database fleet start_time = Ok database' ->
  num_grid database' = num_grid database
  /\ grid_distance_matrix database' = grid_distance_matrix database
  /\ (forall identifier t, fleet !! identifier = Some t ->
        is_Some (grid database !! taxi_geohash t))
  /\ forall g,
       match grid database' !! g with
       | Some c' =>
           exists c, grid database !! g = Some c
             /\ c' = set_taxi_list c (taxi_list c')
             /\ forall identifier,
                  taxi_list c' !! identifier
                  = match fleet !! identifier with
                    | Some t =>
                        if decide (taxi_geohash t = g)
                        then Some (inject_Z start_time)
                        else taxi_list c !! identifier
                    | None => taxi_list c !! identifier
                    end
       | None => grid database !! g = None
       end.
Proof.
  unfold init_dynamic_info. intros Hi. inv_bind Hi as g Hg.
  injection Hi as <-. split; [done|]. split; [done|]. simpl.
  pose (P := fun (processed : list (Z * Taxi)) (g : gmap string GridCell) =>
    (forall e, e ∈ processed -> is_Some (grid database !! taxi_geohash e.2))
    /\ forall gh,
      match g !! gh with
      | Some c' =>
          exists c, grid database !! gh = Some c
            /\ c' = set_taxi_list c (taxi_list c')
            /\ (forall e, e ∈ processed -> taxi_geohash e.2 = gh ->
                  taxi_list c' !! e.1 = Some (inject_Z start_time))
            /\ (forall identifier,
                  (forall e, e ∈ processed -> e.1 = identifier ->
                     taxi_geohash e.2 <> gh) ->
                  taxi_list c' !! identifier = taxi_list c !! identifier)
      | None => grid database !! gh = None
      end).
  assert (HP : P (map_to_list fleet) g).
  { apply (foldM_invariant_split (init_dynamic_taxi start_time) P _
             (grid database)); [| |exact Hg]; unfold P.
    - split; [by intros e ?%elem_of_nil|]. intros gh.
      destruct (grid database !! gh) as [c|]; [|done].
      exists c. split; [done|]. split; [by destruct c|].
      split; [by intros e ?%elem_of_nil|done].
    - intros processed [id t] todo g1 g2 Hl [Hreg H1] Hs.
      unfold init_dynamic_taxi in Hs. inv_bind Hs as c0 Hc0.
      apply getitem_Ok in Hc0. injection Hs as <-.
      assert (Hfresh : forall e, e ∈ processed -> e.1 <> id).
      { intros e He Heq. pose proof (NoDup_fst_map_to_list fleet) as Hnd.
        rewrite Hl, fmap_app in Hnd. apply NoDup_app in Hnd as (_ & Hnd & _).
        apply (Hnd e.1); [by apply list_elem_of_fmap_2|].
        simpl. rewrite Heq. by left. }
      split.
      { intros e [He|He%list_elem_of_singleton]%elem_of_app; [auto|].
        subst e. simpl. pose proof (H1 (taxi_geohash t)) as Ht.
        rewrite Hc0 in Ht. destruct Ht as (c & -> & _). by eexists. }
      intros gh. destruct (decide (taxi_geohash t = gh)) as [<-|Hne].
      + rewrite lookup_insert_eq. pose proof (H1 (taxi_geohash t)) as Ht.
        rewrite Hc0 in Ht. destruct Ht as (c & Hc & Hshape & Hin & Hout).
        exists c. split; [done|]. simpl. split.
        { rewrite Hshape. by destruct c. }
        split.
        * intros e [He|He%list_elem_of_singleton]%elem_of_app Hgeo.
          -- rewrite lookup_insert_ne by (apply not_eq_sym; by apply Hfresh).
             by apply Hin.
          -- subst e. simpl. by rewrite lookup_insert_eq.
        * intros identifier Hnone.
          assert (id <> identifier).
          { intros <-. apply (Hnone (id, t)); [|done..].
            apply elem_of_app. right. by apply list_elem_of_singleton. }
          rewrite lookup_insert_ne by done. apply Hout.
          intros e He. apply Hnone, elem_of_app. by left.
      + rewrite lookup_insert_ne by done. pose proof (H1 gh) as Hgh.
        destruct (g1 !! gh) as [c'|]; [|done].
        destruct Hgh as (c & Hc & Hshape & Hin & Hout).
        exists c. split; [done|]. split; [done|]. split.
        * intros e [He|He%list_elem_of_singleton]%elem_of_app Hgeo;
            [by apply Hin|]. subst e. done.
        * intros identifier Hnone. apply Hout.
          intros e He. apply Hnone, elem_of_app. by left. }
  destruct HP as [Hreg HP]. split.
  { intros identifier t Ht.
    apply (Hreg (identifier, t)). by apply elem_of_map_to_list. }
  intros gh. specialize (HP gh). destruct (g !! gh) as [c'|]; [|done].
  destruct HP as (c & Hc & Hshape & Hin & Hout).
  exists c. split; [done|]. split; [done|]. intros identifier.
  destruct (fleet !! identifier) as [t|] eqn:Ht.
  - destruct (decide (taxi_geohash t = gh)) as [Hgeo|Hgeo].
    + apply (Hin (identifier, t)); [|done]. by apply elem_of_map_to_list.
    + apply Hout. intros [id' t'] He%elem_of_map_to_list Heq. simpl in *.
      subst id'. congruence.
  - apply Hout. intros [id' t'] He%elem_of_map_to_list Heq. simpl in *.
    subst id'. congruence.
Qed.

Lemma init_dynamic_info_registers_fleet_witness :
  exists database',
    init_dynamic_info ex_db ex_taxi_set ex_start = Ok database'
    /\ is_Some (grid ex_db !! taxi_geohash ex_taxi).
Proof.
  destruct (init_dynamic_info ex_db ex_taxi_set ex_start)
    as [database'|e] eqn:Hi; [|vm_compute in Hi; discriminate Hi].
  exists database'. split; [reflexivity|].
  destruct (init_dynamic_info_registers_fleet _ _ _ _ Hi) as (_ & _ & Hreg & _).
  apply (Hreg 1 ex_taxi). vm_compute. reflexivity.
Defined.
(** [update_taxi_list] only writes entries of the taxi it is given, in
    cells that exist already: the grid keeps its keys, every cell keeps
    its static fields and the entries of all other taxis, and no entry is
    removed, so the cells the taxi was registered in before stay
    registered. *)
Theorem update_taxi_list_writes_own_entries
  (database database' : SpatioTemporalDatabase) (timestamp : Z) (taxi : Taxi)
  (new_route : option Path) (rn : RoadNetwork) :
  update_taxi_list database timestamp taxi new_route rn = Ok database' ->
  num_grid database' = num_grid database
  /\ grid_distance_matrix database' = grid_distance_matrix database
  /\ forall g,
       match grid database' !! g with
       | Some c' =>
           exists c, grid database !! g = Some c
             /\ c' = set_taxi_list c (taxi_list c')
             /\ (forall identifier, identifier <> taxi_id taxi ->
                   taxi_list c' !! identifier = taxi_list c !! identifier)
             /\ (is_Some (taxi_list c !! taxi_id taxi) ->
                 is_Some (taxi_list c' !! taxi_id taxi))
       | None => grid database !! g = None
       end.
Proof.
  pose (P := fun (g : gmap string GridCell) =>
    forall gh,
      match g !! gh with
      | Some c' =>
          exists c, grid database !! gh = Some c
            /\ c' = set_taxi_list c (taxi_list c')
            /\ (forall identifier, identifier <> taxi_id taxi ->
                  taxi_list c' !! identifier = taxi_list c !! identifier)
            /\ (is_Some (taxi_list c !! taxi_id taxi) ->
                is_Some (taxi_list c' !! taxi_id taxi))
      | None => grid database !! gh = None
      end).
  assert (P0 : P (grid database)).
  { intros gh. destruct (grid database !! gh) as [c|]; [|done].
    exists c. split; [done|]. split; [by destruct c|]. done. }
  unfold update_taxi_list. intros Hu.
  destruct (route_edges new_route) as [[p edges]|].
  2:{ injection Hu as <-. split; [done|]. split; [done|]. apply P0. }
  inv_bind Hu as cur_vid Hcur. inv_bind Hu as v Hv. inv_bind Hu as st Hst.
  injection Hu as <-. split; [done|]. split; [done|]. simpl.
  revert Hst.
  apply (foldM_preserves (update_taxi_list_edge timestamp taxi rn)
           (fun st => P st.1.1)); [exact P0|].
  intros e [[g1 cur1] dis1] [[g2 cur2] dis2] _ H1 Hs. simpl in *.
  unfold update_taxi_list_edge in Hs.
  inv_bind Hs as next_edge Hne. inv_bind Hs as v' Hv'.
  destruct (decide (loc_geohash (vertex_location v') <> cur1)) as [Hd|Hd].
  2:{ by injection Hs as <- _ _. }
  inv_bind Hs as c0 Hc0. apply getitem_Ok in Hc0.
  injection Hs as <- _ _. intros gh.
  set (ngh := loc_geohash (vertex_location v')) in *.
  destruct (decide (ngh = gh)) as [<-|Hgh].
  - rewrite lookup_insert_eq. pose proof (H1 ngh) as Hn. rewrite Hc0 in Hn.
    destruct Hn as (c & Hc & Hshape & Hother & Hown).
    exists c. split; [done|]. simpl. split.
    { rewrite Hshape. by destruct c. }
    split.
    + intros identifier Hid. rewrite lookup_insert_ne by done. by apply Hother.
    + intros _. rewrite lookup_insert_eq. by eexists.
  - rewrite lookup_insert_ne by done. apply H1.
Qed.

Lemma update_taxi_list_writes_own_entries_witness :
  exists database',
    update_taxi_list ex_db ex_start ex_taxi
      (Some (mkPath [2; 3] [Some 3] 1%Q)) ex_rn = Ok database'
    /\ num_grid database' = num_grid ex_db.
Proof.
  destruct (update_taxi_list ex_db ex_start ex_taxi
              (Some (mkPath [2; 3] [Some 3] 1%Q)) ex_rn)
    as [database'|e] eqn:Hu; [|vm_compute in Hu; discriminate Hu].
  exists database'. split; [reflexivity|].
  destruct (update_taxi_list_writes_own_entries _ _ _ _ _ _ Hu) as (Hn & _).
  exact Hn.
Defined.
